(** * barrel-breaker: a shallow embedding of the import-rewrite engine

    The development follows [src/lib/barrelBreaker.js] (the rewrite
    engine) and the purge module that is stored in the same file
    ([isPureBarrelFile], [purgeBarrels]).

    The parsed modules come from ts-morph; what the program reads from a
    ts-morph node is a field of the corresponding record below.  JavaScript
    [Map]s that are only read through [get] are [gmap]s, the [seen] set is
    a [gset]; the [Map]s whose insertion order reaches the output are
    association lists.  The plain object [importGroups] is the list of its
    own properties in the order of their creation, read the way the
    language reads a plain object: what [Object.prototype] hands down is
    found under its name, and [Object.entries] lists array indices
    first. *)

From Stdlib Require Import String Ascii.
From stdpp Require Import base option list gmap strings fin_maps fin_sets sorting.

Local Open Scope string_scope.

(** ** JavaScript string primitives used by the program *)
Module Js.

(** [!!s] for a string. *)
Definition truthy (s : string) : bool :=
  match s with
  | EmptyString => false
  | String _ _ => true
  end.

(** [!!v] for [v : string | undefined]. *)
Definition truthy_opt (o : option string) : bool :=
  match o with
  | Some s => truthy s
  | None => false
  end.

(** [a || b] where [a : string | undefined] and [b : string]. *)
Definition or_else (a : option string) (b : string) : string :=
  match a with
  | Some s => if truthy s then s else b
  | None => b
  end.

(** [s.startsWith(p)]. *)
Definition startsWith (s p : string) : bool := String.prefix p s.

Definition endsWith (s suf : string) : bool :=
  let n := String.length s in
  let k := String.length suf in
  if Nat.leb k n then String.eqb (String.substring (n - k) k s) suf else false.

(** The replacement text of [String.prototype.replace] for a string
    pattern: [$$], [$&], [$`] and [$'] are expanded, every other
    character (and [$n], there being no capture group) is literal. *)
Fixpoint getSubstitution (matched before after replacement : string) : string :=
  match replacement with
  | EmptyString => EmptyString
  | String c tl =>
      if Ascii.eqb c "$" then
        match tl with
        | String d tl' =>
            if Ascii.eqb d "$" then String "$" (getSubstitution matched before after tl')
            else if Ascii.eqb d "&" then matched ++ getSubstitution matched before after tl'
            else if Ascii.eqb d "`" then before ++ getSubstitution matched before after tl'
            else if Ascii.eqb d "'" then after ++ getSubstitution matched before after tl'
            else String c (getSubstitution matched before after tl)
        | EmptyString => String c EmptyString
        end
      else String c (getSubstitution matched before after tl)
  end.

(** [s.replace(pat, rep)] with a string pattern: the first occurrence
    only. *)
Definition replace (s pat rep : string) : string :=
  match String.index 0 pat s with
  | Some i =>
      let before := String.substring 0 i s in
      let after := String.substring (i + String.length pat)
                     (String.length s - (i + String.length pat)) s in
      before ++ getSubstitution pat before after rep ++ after
  | None => s
  end.

(** [s.replace(/\.tsx?$/, "")]. *)
Definition stripTsExtension (s : string) : string :=
  if endsWith s ".tsx" then String.substring 0 (String.length s - 4) s
  else if endsWith s ".ts" then String.substring 0 (String.length s - 3) s
  else s.

(** [s.replace(/\\/g, "/")]. *)
Fixpoint backslashesToSlashes (s : string) : string :=
  match s with
  | EmptyString => EmptyString
  | String c tl =>
      String (if Ascii.eqb c "\" then "/"%char else c) (backslashesToSlashes tl)
  end.

End Js.

(** ** The parsed program, as ts-morph presents it *)

(** [export { name as alias }]: [getNameNode().getText()] and
    [getAliasNode()?.getText()]. *)
Record ExportSpecifier := {
  es_name : string;
  es_alias : option string;
}.

(** An [ExportDeclaration] node: [export * from "m"], [export { .. } from
    "m"] or [export { .. }]. *)
Record ExportDeclaration := {
  ed_moduleSpecifierValue : option string;
  ed_isNamespaceExport : bool;
  ed_namedExports : list ExportSpecifier;
}.

(** [import { name as alias }]: [getName()] and
    [getAliasNode()?.getText()]. *)
Record ImportSpecifier := {
  is_name : string;
  is_alias : option string;
}.

(** An [ImportDeclaration] node; also the structure handed to
    [addImportDeclaration]. *)
Record ImportDeclaration := {
  id_moduleSpecifierValue : string;
  id_defaultImport : option string;
  id_namedImports : list ImportSpecifier;
}.

Inductive Statement :=
| ImportStmt (d : ImportDeclaration)
| ExportStmt (d : ExportDeclaration)
| OtherStmt (text : string).

(** A source file.  The last two fields are answers of the TypeScript
    checker, which the program reads through ts-morph:
    [getExportedDeclarations()] (exported name to the files holding its
    declarations, re-exports followed to the declaration) and
    [getDefaultExportSymbol()?.getDeclarations()]. *)
Record SourceFile := {
  sf_filePath : string;
  sf_statements : list Statement;
  sf_exportedDeclarations : list (string * list string);
  sf_defaultExportDeclarations : option (list string);
}.

Definition getStatements (sf : SourceFile) : list Statement := sf_statements sf.

Definition getExportDeclarations (sf : SourceFile) : list ExportDeclaration :=
  omap (λ st, match st with ExportStmt d => Some d | _ => None end) (sf_statements sf).

(** The import declarations with their position in the statement list,
    which stands for the identity of the node. *)
Definition getImportDeclarations (sf : SourceFile) : list (nat * ImportDeclaration) :=
  omap (λ '(i, st), match st with ImportStmt d => Some (i, d) | _ => None end)
       (imap pair (sf_statements sf)).

(** The collaborators the program calls: Node's [path] module and the
    module resolution of the TypeScript checker
    ([getModuleSpecifierSourceFile], from the path of the file holding the
    statement and the specifier to the path of the target). *)
Record Host := {
  path_resolve : list string → string;
  path_dirname : string → string;
  path_join : string → string → string;
  path_relative : string → string → string;
  moduleSpecifierSourceFile : string → string → option string;
}.

(** The source files on disk, each parsed; a path names the first file
    that carries it. *)
Definition findSourceFile (files : list SourceFile) (p : string) : option SourceFile :=
  List.find (λ sf, bool_decide (sf_filePath sf = p)) files.

(** [fs.existsSync] on the candidate paths of a source file. *)
Definition existsSync (files : list SourceFile) (p : string) : bool :=
  bool_decide (is_Some (findSourceFile files p)).

Record ReExport := {
  localName : string;
  resolvedPath : string;
}.

(** A loop whose body may fail to return. *)
Fixpoint forEachM {A S : Type} (body : S → A → option S) (l : list A) (s : S) : option S :=
  match l with
  | [] => Some s
  | x :: l' =>
      match body s x with
      | Some s' => forEachM body l' s'
      | None => None
      end
  end.

(** The outcome of a call: a value, an exception, or no return within the
    recursion bound. *)
Inductive Result (A : Type) :=
| Return (a : A)
| Throw (error : string)
| Diverge.
Arguments Return {A} a.
Arguments Throw {A} error.
Arguments Diverge {A}.

#[global] Instance Result_ret : MRet Result := λ A a, Return a.
#[global] Instance Result_bind : MBind Result := λ A B f m,
  match m with
  | Return a => f a
  | Throw e => Throw e
  | Diverge => Diverge
  end.

(** A [forEach] whose callback may throw. *)
Fixpoint forEachR {A S : Type} (body : S → A → Result S) (l : list A) (s : S) : Result S :=
  match l with
  | [] => Return s
  | x :: l' => s' ← body s x; forEachR body l' s'
  end.

(** A JavaScript [Map] with string keys whose iteration order is observed
    (and the own properties of an object, in the order of their creation):
    [get], and [set], which keeps the position of a key that is present and
    appends a new one. *)
Fixpoint alist_get {V : Type} (k : string) (l : list (string * V)) : option V :=
  match l with
  | [] => None
  | (k', v) :: l' => if decide (k' = k) then Some v else alist_get k l'
  end.

Fixpoint alist_set {V : Type} (k : string) (v : V) (l : list (string * V)) : list (string * V) :=
  match l with
  | [] => [(k, v)]
  | (k', v') :: l' => if decide (k' = k) then (k, v) :: l' else (k', v') :: alist_set k v l'
  end.

(** One entry of [rewrittenBySpecifier]: the pairs [[originalExportName,
    usedName]] and the default import. *)
Record Rewritten := {
  rw_named : list (string * string);
  rw_defaultImport : option string;
}.

(** One element of [rewrittenImports]. *)
Record RewrittenImport := {
  ri_specifier : string;
  ri_named : list (string * string);
  ri_defaultImport : option string;
}.

(** The value returned by [processImportDeclaration]. *)
Record ProcessResult := {
  pr_changed : bool;
  pr_rewrittenImports : list RewrittenImport;
}.

(** One value of [importGroups]: the [named] map and the [default] slot. *)
Record ImportGroup := {
  ig_named : list (string * string);
  ig_default : option string;
}.

(** ** The plain object [importGroups]

    [importGroups] is created as [{}] (line 153) and its keys are the
    resolved specifiers.  It holds its own properties in the order of their
    creation; a lookup [importGroups[specifier]] also finds what
    [Object.prototype] hands down. *)

(** The names of the members of [Object.prototype]. *)
Definition objectPrototypeKeys : list string :=
  ["constructor"; "__proto__"; "hasOwnProperty"; "isPrototypeOf"; "propertyIsEnumerable";
   "toLocaleString"; "toString"; "valueOf"; "__defineGetter__"; "__defineSetter__";
   "__lookupGetter__"; "__lookupSetter__"].

(** The first characters of the member names of [Object.prototype]. *)
Definition memberInitials : list ascii :=
  omap (λ k, match k with String c _ => Some c | EmptyString => None end) objectPrototypeKeys.

(** A string whose first character starts no member name of
    [Object.prototype]. *)
Definition plainHead (s : string) : bool :=
  match s with
  | String c _ => bool_decide (c ∉ memberInitials)
  | EmptyString => false
  end.

(** The value of a string of decimal digits. *)
Fixpoint decimalValue (acc : N) (s : string) : option N :=
  match s with
  | EmptyString => Some acc
  | String c tl =>
      let n := N_of_ascii c in
      if N.leb 48 n && N.leb n 57 then decimalValue (10 * acc + (n - 48))%N tl else None
  end.

(** An array index: a key that is the canonical decimal form of an integer
    below [2^32 - 1]. *)
Definition arrayIndex (k : string) : option N :=
  match k with
  | EmptyString => None
  | String c tl =>
      if Ascii.eqb c "0" && negb (String.eqb tl "") then None
      else
        match decimalValue 0 k with
        | Some n => if N.ltb n 4294967295 then Some n else None
        | None => None
        end
  end.

(** [Object.entries(object)]: the own properties whose keys are array
    indices come first, in ascending order, the others follow in the order
    of their creation. *)
Definition indexOrder {V : Type} (a b : string * V) : Prop :=
  (default 0 (arrayIndex a.1) ≤ default 0 (arrayIndex b.1))%N.

#[global] Instance indexOrder_dec {V : Type} : RelDecision (@indexOrder V) :=
  λ a b, decide (default 0 (arrayIndex a.1) ≤ default 0 (arrayIndex b.1))%N.

Definition Object_entries {V : Type} (object : list (string * V)) : list (string * V) :=
  (merge_sort indexOrder (filter (λ entry : string * V, is_Some (arrayIndex entry.1)) object)
   ++ filter (λ entry : string * V, arrayIndex entry.1 = None) object)%list.

(** What [importGroups[specifier]] finds: a group of the object's own, a
    member that [Object.prototype] hands down (a function, or
    [Object.prototype] itself under [__proto__]: an object without
    [named]), the string that stands in [Object.prototype.default] once the
    loop below has put one there, or nothing. *)
Inductive Member :=
| OwnGroup (group : ImportGroup)
| InheritedObject
| InheritedString (value : string)
| NoMember.

(** [prototypeDefault] is [Object.prototype.default]; Node starts without
    it. *)
Definition getMember (prototypeDefault : option string)
    (importGroups : list (string * ImportGroup)) (specifier : string) : Member :=
  match alist_get specifier importGroups with
  | Some group => OwnGroup group
  | None =>
      if decide (specifier ∈ objectPrototypeKeys) then InheritedObject
      else if decide (specifier = "default") then
        match prototypeDefault with
        | Some value => InheritedString value
        | None => NoMember
        end
      else NoMember
  end.

(** The three statements of the loop over [result.rewrittenImports] where
    the object has, or gets, a group of its own under the key: the group is
    created when there is none, it takes the default import when there is
    one, and its [named] map takes the bindings. *)
Definition mergeOwn (specifier : string) (named : list (string * string))
    (defaultImport : option string) (importGroups : list (string * ImportGroup))
  : list (string * ImportGroup) :=
  let group :=
    match alist_get specifier importGroups with
    | Some g => g
    | None => {| ig_named := []; ig_default := None |}
    end in
  alist_set specifier
    {| ig_named := foldl (λ m entry, alist_set entry.1 entry.2 m) (ig_named group) named;
       ig_default := if Js.truthy_opt defaultImport then defaultImport else ig_default group |}
    importGroups.

(** The body of the loop over [result.rewrittenImports] (lines 189-201),
    on [Object.prototype.default] and the own properties of
    [importGroups]:
<<
   if (!importGroups[specifier]) importGroups[specifier] = { named: new Map(), default: undefined };
   if (defaultImport) importGroups[specifier].default = defaultImport;
   named.forEach(([name, alias]) => importGroups[specifier].named.set(name, alias));
>>
    Under a key that [Object.prototype] hands down no group is created: the
    default import is stored on the inherited member, which under
    [__proto__] is [Object.prototype] itself, and the first named binding
    throws, the member having no [named].  The module is strict code, so
    storing a property on the inherited string throws as well. *)
Definition mergeGroup (specifier : string) (named : list (string * string))
    (defaultImport : option string) (st : option string * list (string * ImportGroup))
  : Result (option string * list (string * ImportGroup)) :=
  let '(prototypeDefault, importGroups) := st in
  let own := Return (prototypeDefault, mergeOwn specifier named defaultImport importGroups) in
  let noNamed := "TypeError: Cannot read properties of undefined (reading 'set')" in
  match getMember prototypeDefault importGroups specifier with
  | OwnGroup _ => own
  | NoMember => own
  | InheritedObject =>
      let prototypeDefault' :=
        if Js.truthy_opt defaultImport && bool_decide (specifier = "__proto__")
        then defaultImport else prototypeDefault in
      if decide (named = []) then Return (prototypeDefault', importGroups)
      else Throw noNamed
  | InheritedString value =>
      if Js.truthy value then
        if Js.truthy_opt defaultImport
        then Throw ("TypeError: Cannot create property 'default' on string '" ++ value ++ "'")
        else if decide (named = []) then Return (prototypeDefault, importGroups)
        else Throw noNamed
      else own
  end.

(** The merge of a list of rewritten imports into an insertion-ordered
    map, which has nothing but its own entries. *)
Definition mergeIntoMap (importGroups : list (string * ImportGroup)) (r : RewrittenImport)
  : list (string * ImportGroup) :=
  mergeOwn (ri_specifier r) (ri_named r) (ri_defaultImport r) importGroups.

(** [sourceFile.addImportDeclaration(structure)]: ts-morph puts the new
    declaration after the last import declaration of the file, at the top
    when there is none. *)
Fixpoint insertAfterLastImport (d : ImportDeclaration) (stmts : list Statement)
  : option (list Statement) :=
  match stmts with
  | [] => None
  | st :: rest =>
      match insertAfterLastImport d rest with
      | Some rest' => Some (st :: rest')
      | None =>
          match st with
          | ImportStmt _ => Some (st :: ImportStmt d :: rest)
          | _ => None
          end
      end
  end.

Definition addImportDeclaration (d : ImportDeclaration) (stmts : list Statement)
  : list Statement :=
  match insertAfterLastImport d stmts with
  | Some stmts' => stmts'
  | None => ImportStmt d :: stmts
  end.

(** [importsToRemove.forEach((decl) => decl.remove())], the declarations
    being named by their positions. *)
Definition removeStatements (positions : list nat) (stmts : list Statement) : list Statement :=
  omap (λ '(i, st), if decide (i ∈ positions) then None else Some st) (imap pair stmts).

Section Engine.

Context (host : Host) (files : list SourceFile).

(** [exportDecl.getModuleSpecifierSourceFile?.()]. *)
Definition exportTargetByChecker (sourceFile : SourceFile) (exportDecl : ExportDeclaration)
  : option SourceFile :=
  match ed_moduleSpecifierValue exportDecl with
  | Some specifier =>
      match moduleSpecifierSourceFile host (sf_filePath sourceFile) specifier with
      | Some p => findSourceFile files p
      | None => None
      end
  | None => None
  end.

(** The probing of [.ts], [.tsx], [index.ts], [index.tsx], first
    existing wins. *)
Definition probeFullPath (sourceFile : SourceFile) (specifier : string) : option string :=
  let resolvedPath :=
    path_resolve host [path_dirname host (sf_filePath sourceFile); specifier] in
  if existsSync files (resolvedPath ++ ".ts") then Some (resolvedPath ++ ".ts")
  else if existsSync files (resolvedPath ++ ".tsx") then Some (resolvedPath ++ ".tsx")
  else if existsSync files (path_join host resolvedPath "index.ts")
       then Some (path_join host resolvedPath "index.ts")
  else if existsSync files (path_join host resolvedPath "index.tsx")
       then Some (path_join host resolvedPath "index.tsx")
  else None.

(** The target of an export declaration, as [getReExportMapRecursive]
    finds it: the checker first, then the probing. *)
Definition exportTarget (sourceFile : SourceFile) (exportDecl : ExportDeclaration)
  : option SourceFile :=
  match exportTargetByChecker sourceFile exportDecl with
  | Some targetSource => Some targetSource
  | None =>
      match ed_moduleSpecifierValue exportDecl with
      | Some specifier =>
          if Js.truthy specifier then
            match probeFullPath sourceFile specifier with
            | Some fullPath => findSourceFile files fullPath
            | None => None
            end
          else None
      | None => None
      end
  end.

(** [for (const [exportedName, value] of nestedMap.entries())
      reExportMap.set(exportedName, value)]. *)
Definition mergeEntries (nestedMap reExportMap : gmap string ReExport) : gmap string ReExport :=
  foldl (λ m kv, <[kv.1 := kv.2]> m) reExportMap (map_to_list nestedMap).

Definition exportedNameOf (spec : ExportSpecifier) : string :=
  Js.or_else (es_alias spec) (es_name spec).

(** [exportDecl.getNamedExports().forEach(...)]. *)
Definition setNamedExports (resolvedPath : string) (specs : list ExportSpecifier)
    (reExportMap : gmap string ReExport) : gmap string ReExport :=
  foldl (λ m spec,
           <[exportedNameOf spec :=
               {| localName := es_name spec; resolvedPath := resolvedPath |}]> m)
        reExportMap specs.

(** The callback of [sourceFile.getExportDeclarations().forEach] (lines
    107-144), given the function to call for a namespace re-export.  The
    state is the map built so far and the set [seen]. *)
Definition exportStep
    (recurse : SourceFile → gset string → option (gmap string ReExport * gset string))
    (sourceFile : SourceFile) (st : gmap string ReExport * gset string)
    (exportDecl : ExportDeclaration) : option (gmap string ReExport * gset string) :=
  match exportTarget sourceFile exportDecl with
  | None => Some st
  | Some targetSource =>
      if ed_isNamespaceExport exportDecl then
        match recurse targetSource st.2 with
        | Some (nestedMap, seen') => Some (mergeEntries nestedMap st.1, seen')
        | None => None
        end
      else
        Some (setNamedExports (sf_filePath targetSource) (ed_namedExports exportDecl) st.1,
              st.2)
  end.

(** [getReExportMapRecursive(project, sourceFile, seen)].  The set
    [seen] is one object shared by the whole recursion, so it is threaded
    through the calls; [fuel] bounds the depth of the recursion, and
    [None] means that the bound was reached. *)
Fixpoint getReExportMapRecursive (fuel : nat) (sourceFile : SourceFile) (seen : gset string)
  : option (gmap string ReExport * gset string) :=
  match fuel with
  | O => None
  | S fuel' =>
      if decide (sf_filePath sourceFile ∈ seen) then Some (∅, seen)
      else
        forEachM (exportStep (getReExportMapRecursive fuel') sourceFile)
                 (getExportDeclarations sourceFile)
                 (∅, {[sf_filePath sourceFile]} ∪ seen)
  end.

(** A depth that no recursion over [files] reaches. *)
Definition enoughFuel : nat := S (S (length files)).

(** The call [getReExportMapRecursive(project, declarations)] of
    [rewriteImportsInFile], with a fresh [seen]. *)
Definition getReExportMap (sourceFile : SourceFile) : option (gmap string ReExport) :=
  fst <$> getReExportMapRecursive enoughFuel sourceFile ∅.


(** The [paths] object of tsconfig.json in the order of [Object.keys]; a
    value is an array of base paths, or [None] for a falsy value. *)
Definition Paths : Type := list (string * option (list string)).

(** [resolveAlias(paths, resolvedPath)].  [basePaths[0]] of an empty array
    is [undefined], and calling [replace] on it throws. *)
Fixpoint resolveAlias (paths : Paths) (resolvedPath : string) : Result (option string) :=
  match paths with
  | [] => Return None
  | (alias, basePaths) :: rest =>
      match basePaths with
      | None => resolveAlias rest resolvedPath
      | Some [] => Throw "TypeError: Cannot read properties of undefined (reading 'replace')"
      | Some (base0 :: _) =>
          let absolute := path_resolve host [Js.replace base0 "/*" ""] in
          if Js.startsWith resolvedPath absolute then
            Return (Some (Js.backslashesToSlashes
                            (Js.stripTsExtension
                               (Js.replace resolvedPath absolute (Js.replace alias "/*" "")))))
          else resolveAlias rest resolvedPath
      end
  end.

(** [getRelativePath(from, to)]. *)
Definition getRelativePath (from to : string) : string :=
  let relativePath := Js.stripTsExtension (path_relative host (path_dirname host from) to) in
  let relativePath :=
    if Js.startsWith relativePath "." then relativePath else "./" ++ relativePath in
  Js.backslashesToSlashes relativePath.

(** [resolveAlias(paths, resolvedFile) ||
     getRelativePath(sourceFile.getFilePath(), resolvedFile)]. *)
Definition resolvedSpecifier (paths : Paths) (sourceFile : SourceFile) (resolvedFile : string)
  : Result string :=
  aliased ← resolveAlias paths resolvedFile;
  mret (Js.or_else aliased (getRelativePath (sf_filePath sourceFile) resolvedFile)).

(** The three locals of [processImportDeclaration]. *)
Record ProcessState := {
  ps_rewrittenBySpecifier : list (string * Rewritten);
  ps_keptNamed : list ImportSpecifier;
  ps_changed : bool;
}.

(** The default import of [processImportDeclaration] (lines 247-261). *)
Definition processDefaultImport (importDecl : ImportDeclaration) (declarations sourceFile : SourceFile)
    (moduleSpecifier : string) (paths : Paths) : Result ProcessState :=
  let start := {| ps_rewrittenBySpecifier := []; ps_keptNamed := []; ps_changed := false |} in
  let defaultImport := id_defaultImport importDecl in
  if Js.truthy_opt defaultImport then
    match sf_defaultExportDeclarations declarations ≫= head with
    | Some resolvedFile =>
        resolved ← resolvedSpecifier paths sourceFile resolvedFile;
        if decide (resolved ≠ moduleSpecifier) then
          mret {| ps_rewrittenBySpecifier :=
                    [(resolved, {| rw_named := []; rw_defaultImport := defaultImport |})];
                  ps_keptNamed := [];
                  ps_changed := true |}
        else mret start
    | None => mret start
    end
  else mret start.

(** The callback of [importDecl.getNamedImports().forEach] (lines
    263-293). *)
Definition processNamedImport (declarations sourceFile : SourceFile) (moduleSpecifier : string)
    (reExportMap : gmap string ReExport) (paths : Paths)
    (st : ProcessState) (namedImport : ImportSpecifier) : Result ProcessState :=
  let name := is_name namedImport in
  let alias := is_alias namedImport in
  let usedName := Js.or_else alias name in
  match alist_get name (sf_exportedDeclarations declarations) ≫= head with
  | None =>
      mret {| ps_rewrittenBySpecifier := ps_rewrittenBySpecifier st;
              ps_keptNamed := ps_keptNamed st ++ [{| is_name := name; is_alias := alias |}];
              ps_changed := ps_changed st |}
  | Some resolvedFile =>
      resolved ← resolvedSpecifier paths sourceFile resolvedFile;
      let originalExportName :=
        match reExportMap !! name with
        | Some reExport =>
            if decide (resolvedPath reExport = resolvedFile) then localName reExport else name
        | None => name
        end in
      if decide (resolved ≠ moduleSpecifier) then
        let entry :=
          match alist_get resolved (ps_rewrittenBySpecifier st) with
          | Some e => e
          | None => {| rw_named := []; rw_defaultImport := None |}
          end in
        mret {| ps_rewrittenBySpecifier :=
                  alist_set resolved
                    {| rw_named := rw_named entry ++ [(originalExportName, usedName)];
                       rw_defaultImport := rw_defaultImport entry |}
                    (ps_rewrittenBySpecifier st);
                ps_keptNamed := ps_keptNamed st;
                ps_changed := true |}
      else
        mret {| ps_rewrittenBySpecifier := ps_rewrittenBySpecifier st;
                ps_keptNamed := ps_keptNamed st ++ [{| is_name := name; is_alias := alias |}];
                ps_changed := ps_changed st |}
  end.

(** The state of [processImportDeclaration] when both loops are done. *)
Definition processBindings (importDecl : ImportDeclaration) (declarations sourceFile : SourceFile)
    (moduleSpecifier : string) (reExportMap : gmap string ReExport) (paths : Paths)
  : Result ProcessState :=
  st ← processDefaultImport importDecl declarations sourceFile moduleSpecifier paths;
  forEachR (processNamedImport declarations sourceFile moduleSpecifier reExportMap paths)
           (id_namedImports importDecl) st.

(** The import that keeps the bindings of [keptNamed] under the original
    specifier. *)
Definition residualImport (moduleSpecifier : string) (keptNamed : list ImportSpecifier)
  : ImportDeclaration :=
  {| id_moduleSpecifierValue := moduleSpecifier;
     id_defaultImport := None;
     id_namedImports :=
       (λ k, {| is_name := is_name k;
                is_alias := if Js.truthy_opt (is_alias k) then is_alias k else None |})
         <$> keptNamed |}.

(** [processImportDeclaration({...})].  The statements of the importing
    file are passed through, since the function adds the residual import to
    that file. *)
Definition processImportDeclaration (importDecl : ImportDeclaration)
    (declarations sourceFile : SourceFile) (moduleSpecifier : string)
    (reExportMap : gmap string ReExport) (paths : Paths) (stmts : list Statement)
  : Result (ProcessResult * list Statement) :=
  st ← processBindings importDecl declarations sourceFile moduleSpecifier reExportMap paths;
  if ps_changed st then
    let stmts' :=
      if decide (0 < length (ps_keptNamed st))
      then addImportDeclaration (residualImport moduleSpecifier (ps_keptNamed st)) stmts
      else stmts in
    mret ({| pr_changed := true;
             pr_rewrittenImports :=
               (λ '(specifier, e),
                  {| ri_specifier := specifier;
                     ri_named := rw_named e;
                     ri_defaultImport := rw_defaultImport e |})
                 <$> ps_rewrittenBySpecifier st |}, stmts')
  else mret ({| pr_changed := false; pr_rewrittenImports := [] |}, stmts).

(** [name === alias ? name : { name, alias }], the element of
    [namedImports] built from an entry of a [named] map. *)
Definition namedImportStructure (entry : string * string) : ImportSpecifier :=
  {| is_name := entry.1;
     is_alias := if decide (entry.1 = entry.2) then None else Some entry.2 |}.

(** The body of the loop over [result.rewrittenImports] (lines 189-201)
    for one rewritten import. *)
Definition mergeRewrittenImport (st : option string * list (string * ImportGroup))
    (r : RewrittenImport) : Result (option string * list (string * ImportGroup)) :=
  mergeGroup (ri_specifier r) (ri_named r) (ri_defaultImport r) st.

(** The import declaration added for one entry of [importGroups] (lines
    207-216). *)
Definition groupImport (entry : string * ImportGroup) : ImportDeclaration :=
  {| id_moduleSpecifierValue := entry.1;
     id_defaultImport := ig_default entry.2;
     id_namedImports := namedImportStructure <$> ig_named entry.2 |}.

(** The locals of [rewriteImportsInFile], with the statements of the file
    being rewritten and [Object.prototype.default]. *)
Record FileState := {
  fs_statements : list Statement;
  fs_importGroups : list (string * ImportGroup);
  fs_importsToRemove : list nat;
  fs_changed : bool;
  fs_prototypeDefault : option string;
}.

Definition isLocalImport (aliasPrefixes : list string) (moduleSpecifier : string) : bool :=
  Js.startsWith moduleSpecifier "."
  || existsb (λ a, Js.startsWith moduleSpecifier a) aliasPrefixes.

(** [importDecl.getModuleSpecifierSourceFile()] for an import of
    [sourceFile]. *)
Definition importTarget (sourceFile : SourceFile) (moduleSpecifier : string) : option SourceFile :=
  moduleSpecifierSourceFile host (sf_filePath sourceFile) moduleSpecifier
    ≫= findSourceFile files.

(** [declarations.getExportDeclarations().length > 0]. *)
Definition isBarrel (declarations : SourceFile) : bool :=
  bool_decide (0 < length (getExportDeclarations declarations)).

(** The callback of [sourceFile.getImportDeclarations().forEach] (lines
    158-203). *)
Definition rewriteImport (sourceFile : SourceFile) (aliasPrefixes : list string) (paths : Paths)
    (st : FileState) (imp : nat * ImportDeclaration) : Result FileState :=
  let importDecl := imp.2 in
  let moduleSpecifier := id_moduleSpecifierValue importDecl in
  if negb (isLocalImport aliasPrefixes moduleSpecifier) then mret st
  else
    match importTarget sourceFile moduleSpecifier with
    | None => mret st
    | Some declarations =>
        if negb (isBarrel declarations) then mret st
        else
          match getReExportMap declarations with
          | None => Diverge
          | Some reExportMap =>
              '(result, stmts) ← processImportDeclaration importDecl declarations sourceFile
                                   moduleSpecifier reExportMap paths (fs_statements st);
              if pr_changed result then
                '(prototypeDefault, importGroups) ←
                  forEachR mergeRewrittenImport (pr_rewrittenImports result)
                           (fs_prototypeDefault st, fs_importGroups st);
                mret {| fs_statements := stmts;
                        fs_importGroups := importGroups;
                        fs_importsToRemove := fs_importsToRemove st ++ [imp.1];
                        fs_changed := true;
                        fs_prototypeDefault := prototypeDefault |}
              else
                mret {| fs_statements := stmts;
                        fs_importGroups := fs_importGroups st;
                        fs_importsToRemove := fs_importsToRemove st;
                        fs_changed := fs_changed st;
                        fs_prototypeDefault := fs_prototypeDefault st |}
          end
    end.

(** What [rewriteImportsInFile] leaves behind: the file as it stands in
    memory, whether an import changed, and whether the file was saved
    ([saveSync], not in a dry run). *)
Record RewriteOutcome := {
  ro_sourceFile : SourceFile;
  ro_changed : bool;
  ro_saved : bool;
}.

(** [rewriteImportsInFile(sourceFile, { project, aliasPrefixes, paths,
    isDryRun })] in a process whose [Object.prototype.default] is
    [prototypeDefault]; it returns what it leaves there as well.  The
    checker answers from [files] during the call: what the call adds to
    the file before it is done are imports of bindings that the file
    imports already. *)
Definition rewriteImportsInFileFrom (prototypeDefault : option string) (sourceFile : SourceFile)
    (aliasPrefixes : list string) (paths : Paths) (isDryRun : bool)
  : Result (RewriteOutcome * option string) :=
  st ← forEachR (rewriteImport sourceFile aliasPrefixes paths)
         (getImportDeclarations sourceFile)
         {| fs_statements := sf_statements sourceFile;
            fs_importGroups := [];
            fs_importsToRemove := [];
            fs_changed := false;
            fs_prototypeDefault := prototypeDefault |};
  let stmts := removeStatements (fs_importsToRemove st) (fs_statements st) in
  let stmts := foldl (λ acc entry, addImportDeclaration (groupImport entry) acc)
                     stmts (Object_entries (fs_importGroups st)) in
  mret ({| ro_sourceFile :=
             {| sf_filePath := sf_filePath sourceFile;
                sf_statements := stmts;
                sf_exportedDeclarations := sf_exportedDeclarations sourceFile;
                sf_defaultExportDeclarations := sf_defaultExportDeclarations sourceFile |};
           ro_changed := fs_changed st;
           ro_saved := fs_changed st && negb isDryRun |},
        fs_prototypeDefault st).

(** [rewriteImportsInFile] as Node starts it, [Object.prototype] having no
    member [default]. *)
Definition rewriteImportsInFile (sourceFile : SourceFile) (aliasPrefixes : list string)
    (paths : Paths) (isDryRun : bool) : Result RewriteOutcome :=
  '(outcome, _) ← rewriteImportsInFileFrom None sourceFile aliasPrefixes paths isDryRun;
  mret outcome.

(** ** The re-export graph

    The notions the statements about [getReExportMapRecursive] are written
    in. *)

(** A source file that is the one its path names among [files]; every file
    the program obtains from ts-morph is of this kind. *)
Definition canonical (sf : SourceFile) : Prop :=
  findSourceFile files (sf_filePath sf) = Some sf.

Definition knownPaths : gset string := list_to_set (sf_filePath <$> files).

(** The number of files that [seen] does not hold yet. *)
Definition unseen (seen : gset string) : nat := size (knownPaths ∖ seen).

(** [p] has a namespace re-export ([export * from ..]) whose target is
    [q]. *)
Definition starEdge (p q : string) : Prop :=
  ∃ m d t, findSourceFile files p = Some m
           ∧ d ∈ getExportDeclarations m
           ∧ ed_isNamespaceExport d = true
           ∧ exportTarget m d = Some t
           ∧ sf_filePath t = q.

(** [m] has a named re-export clause that exports [k]; [e] is the entry
    the clause writes: the name of the clause and the path of the target of
    its statement. *)
Definition namedClause (m : SourceFile) (k : string) (e : ReExport) : Prop :=
  ∃ d t spec, d ∈ getExportDeclarations m
              ∧ ed_isNamespaceExport d = false
              ∧ exportTarget m d = Some t
              ∧ spec ∈ ed_namedExports d
              ∧ exportedNameOf spec = k
              ∧ e = {| localName := es_name spec; resolvedPath := sf_filePath t |}.

Definition ownName (m : SourceFile) (k : string) : Prop := ∃ e, namedClause m k e.

(** The entry [e] for [k] is written by a named clause of a file reached
    from [p] through namespace re-exports only. *)
Definition provenance (p k : string) (e : ReExport) : Prop :=
  ∃ q m, rtc starEdge p q ∧ findSourceFile files q = Some m ∧ namedClause m k e.

(** What a finished call guarantees about the files it was first to see:
    their namespace targets are seen, and their names are in the map. *)
Definition explored (seen seen' : gset string) (M : gmap string ReExport) : Prop :=
  (∀ x q, x ∈ seen' → x ∉ seen → starEdge x q → q ∈ seen')
  ∧ (∀ x m k, x ∈ seen' → x ∉ seen → findSourceFile files x = Some m → ownName m k →
              k ∈ dom M).

(** Following the words of the spec: [q] is reached from [p] by a chain of
    namespace re-exports in which [visiting] holds the modules of the
    current chain, a module being added before the chain goes on and never
    entered while it is in the set. *)
Inductive reachesOnChain : gset string → string → string → Prop :=
| chain_here visiting p :
    p ∉ visiting → reachesOnChain visiting p p
| chain_step visiting p r q :
    p ∉ visiting → starEdge p r → reachesOnChain ({[p]} ∪ visiting) r q →
    reachesOnChain visiting p q.

(** Following the words of the spec: the symbols resolvable from [p]
    without traversing a cycle twice. *)
Definition resolvableOnce (p k : string) : Prop :=
  ∃ q m, reachesOnChain ∅ p q ∧ findSourceFile files q = Some m ∧ ownName m k.

(** A path of namespace re-exports that stays out of [V]. *)
Inductive reachAvoid (V : gset string) : string → string → Prop :=
| avoid_here p : p ∉ V → reachAvoid V p p
| avoid_step p r q : p ∉ V → starEdge p r → reachAvoid V r q → reachAvoid V p q.

(** The tsconfig.json tables on which [resolveAlias] does not throw: no
    array of base paths is empty. *)
Definition pathsWellFormed (paths : Paths) : Prop :=
  Forall (λ entry : string * option (list string), entry.2 ≠ Some []) paths.

(** Following the words of the spec (C1): every entry of the export map of
    [sf] names the file in which the checker finds the declaration of the
    symbol, and that file does not pass the name on through a re-export
    clause of its own. *)
Definition entriesNameDeclaringModule (sf : SourceFile) : Prop :=
  ∀ M k e,
    getReExportMap sf = Some M → M !! k = Some e →
    alist_get k (sf_exportedDeclarations sf) ≫= head = Some (resolvedPath e)
    ∧ ∀ m, findSourceFile files (resolvedPath e) = Some m → ¬ ownName m (localName e).

(** Following the words of the spec (C2): the name written for a rewritten
    named binding is the [localName] of the export entry of the imported
    name.  The entry written for a binding is the one that carries its
    local alias. *)
Definition writesEntryLocalName (importDecl : ImportDeclaration)
    (declarations sourceFile : SourceFile) (moduleSpecifier : string)
    (reExportMap : gmap string ReExport) (paths : Paths) : Prop :=
  ∀ namedImport reExport result stmts stmts' r n,
    namedImport ∈ id_namedImports importDecl →
    reExportMap !! is_name namedImport = Some reExport →
    processImportDeclaration importDecl declarations sourceFile moduleSpecifier
      reExportMap paths stmts = Return (result, stmts') →
    r ∈ pr_rewrittenImports result →
    (n, Js.or_else (is_alias namedImport) (is_name namedImport)) ∈ ri_named r →
    n = localName reExport.


(** ** The alias resolver, restated *)

(** The first base path of the entry, resolved, is a prefix of the path. *)
Definition aliasEntryMatches (resolvedPath : string) (entry : string * option (list string))
  : bool :=
  match entry.2 with
  | Some (base0 :: _) =>
      Js.startsWith resolvedPath (path_resolve host [Js.replace base0 "/*" ""])
  | _ => false
  end.

(** The specifier an entry gives to the path. *)
Definition aliasSpecifier (resolvedPath : string) (entry : string * option (list string))
  : option string :=
  match entry.2 with
  | Some (base0 :: _) =>
      Some (Js.backslashesToSlashes
              (Js.stripTsExtension
                 (Js.replace resolvedPath (path_resolve host [Js.replace base0 "/*" ""])
                    (Js.replace entry.1 "/*" ""))))
  | _ => None
  end.

(** The first entry that matches, in the order of the table, decides. *)
Definition firstAliasMatch (paths : Paths) (resolvedPath : string) : option string :=
  List.find (aliasEntryMatches resolvedPath) paths ≫= aliasSpecifier resolvedPath.

(** Following the words of the spec (C7): the path falls under one of the
    configured base prefixes. *)
Definition fallsUnderSomeBase (paths : Paths) (resolvedPath : string) : Prop :=
  ∃ alias bases base,
    (alias, Some bases) ∈ paths ∧ base ∈ bases
    ∧ Js.startsWith resolvedPath (path_resolve host [Js.replace base "/*" ""]) = true.

(** Following the words of the spec (C7): an alias-prefixed specifier when
    the path falls under any configured base prefix, [null] otherwise. *)
Definition resolvesUnderAnyBase (paths : Paths) (resolvedPath : string) : Prop :=
  (fallsUnderSomeBase paths resolvedPath →
   ∃ specifier, resolveAlias paths resolvedPath = Return (Some specifier))
  ∧ (¬ fallsUnderSomeBase paths resolvedPath →
     resolveAlias paths resolvedPath = Return None).

(** The rewritten imports that [rewriteImport] merges into [importGroups]
    for one import declaration. *)
Definition rewrittenImportsOf (sourceFile : SourceFile) (aliasPrefixes : list string)
    (paths : Paths) (imp : nat * ImportDeclaration) : Result (list RewrittenImport) :=
  let importDecl := imp.2 in
  let moduleSpecifier := id_moduleSpecifierValue importDecl in
  if negb (isLocalImport aliasPrefixes moduleSpecifier) then mret []
  else
    match importTarget sourceFile moduleSpecifier with
    | None => mret []
    | Some declarations =>
        if negb (isBarrel declarations) then mret []
        else
          match getReExportMap declarations with
          | None => Diverge
          | Some reExportMap =>
              '(result, _) ← processImportDeclaration importDecl declarations sourceFile
                               moduleSpecifier reExportMap paths [];
              mret (if pr_changed result then pr_rewrittenImports result else [])
          end
    end.

(** The rewritten imports of all the import declarations of a file, in the
    order of the declarations. *)
Definition allRewrittenImports (sourceFile : SourceFile) (aliasPrefixes : list string)
    (paths : Paths) : Result (list RewrittenImport) :=
  forEachR (λ acc imp,
              rs ← rewrittenImportsOf sourceFile aliasPrefixes paths imp;
              mret (acc ++ rs)%list)
           (getImportDeclarations sourceFile) [].

(** ** The cache of the later revision

    [getReExportMapRecursive] as it stands in [src/unnamed/part_002] (lines
    288-333): [reExportCache] is a [Map] of the module, keyed by file
    path; it is read before [seen] is looked at and written when the loop
    over the export declarations is done. *)
Definition exportStepCached
    (recurse : SourceFile → gset string → gmap string (gmap string ReExport) →
               option (gmap string ReExport * gset string * gmap string (gmap string ReExport)))
    (sourceFile : SourceFile)
    (st : gmap string ReExport * gset string * gmap string (gmap string ReExport))
    (exportDecl : ExportDeclaration)
  : option (gmap string ReExport * gset string * gmap string (gmap string ReExport)) :=
  let '(reExportMap, seen, cache) := st in
  match exportTarget sourceFile exportDecl with
  | None => Some st
  | Some targetSource =>
      if ed_isNamespaceExport exportDecl then
        match recurse targetSource seen cache with
        | Some (nestedMap, seen', cache') =>
            Some (mergeEntries nestedMap reExportMap, seen', cache')
        | None => None
        end
      else
        Some (setNamedExports (sf_filePath targetSource) (ed_namedExports exportDecl)
                reExportMap, seen, cache)
  end.

Fixpoint getReExportMapRecursiveCached (fuel : nat) (sourceFile : SourceFile)
    (seen : gset string) (reExportCache : gmap string (gmap string ReExport))
  : option (gmap string ReExport * gset string * gmap string (gmap string ReExport)) :=
  match fuel with
  | O => None
  | S fuel' =>
      let filePath := sf_filePath sourceFile in
      match reExportCache !! filePath with
      | Some cached => Some (cached, seen, reExportCache)
      | None =>
          if decide (filePath ∈ seen) then Some (∅, seen, reExportCache)
          else
            match forEachM (exportStepCached (getReExportMapRecursiveCached fuel') sourceFile)
                           (getExportDeclarations sourceFile)
                           (∅, {[filePath]} ∪ seen, reExportCache) with
            | Some (reExportMap, seen', cache') =>
                Some (reExportMap, seen', <[filePath := reExportMap]> cache')
            | None => None
            end
      end
  end.

(** An import declaration of [sourceFile] that a run leaves alone: it is
    not local, or its target is not found or is no barrel, or each of its
    bindings has no declaration in the target or resolves to the specifier
    the declaration already has. *)
Definition settledImport (sourceFile : SourceFile) (aliasPrefixes : list string) (paths : Paths)
    (importDecl : ImportDeclaration) : Prop :=
  let moduleSpecifier := id_moduleSpecifierValue importDecl in
  isLocalImport aliasPrefixes moduleSpecifier = false
  ∨ importTarget sourceFile moduleSpecifier = None
  ∨ ∃ declarations,
      importTarget sourceFile moduleSpecifier = Some declarations
      ∧ (isBarrel declarations = false
         ∨ ((Js.truthy_opt (id_defaultImport importDecl) = true →
             ∀ resolvedFile,
               sf_defaultExportDeclarations declarations ≫= head = Some resolvedFile →
               resolvedSpecifier paths sourceFile resolvedFile = Return moduleSpecifier)
            ∧ ∀ namedImport resolvedFile,
                namedImport ∈ id_namedImports importDecl →
                alist_get (is_name namedImport) (sf_exportedDeclarations declarations) ≫= head
                = Some resolvedFile →
                resolvedSpecifier paths sourceFile resolvedFile = Return moduleSpecifier)).

End Engine.

(** ** The entry point *)

(** What [runBarrelBreaker] reads of the parsed tsconfig.json. *)
Record CompilerOptions := {
  co_paths : option Paths;
}.

Record TsConfig := {
  tc_compilerOptions : option CompilerOptions;
}.

(** The rest of the platform: the text files on disk, [JSON.parse] on the
    text of a tsconfig.json, the [Project] constructor of ts-morph with or
    without a [tsConfigFilePath], the files [collectSourceFiles] finds, and
    the checker of the project: what [getExportedDeclarations] and
    [getDefaultExportSymbol] find for the file at a path when the files of
    the project, given by their paths, hold the given statements. *)
Record Platform := {
  textFiles : gmap string string;
  JSON_parse : string → Result TsConfig;
  newProject : option string → Result (list SourceFile);
  collectSourceFiles : string → Result (list SourceFile);
  checkProject : list (string * list Statement) → string →
                 list (string * list string) * option (list string);
}.

(** A project in which a file has been changed: the file stands as it was
    left, the others as they were. *)
Definition replaceFile (out : SourceFile) (files : list SourceFile) : list SourceFile :=
  (λ f, if decide (sf_filePath f = sf_filePath out) then out else f) <$> files.

(** The project of a run once [rewriteImportsInFile] has changed a file:
    ts-morph changes the file in place, also in a dry run, and the checker
    answers from the statements the files hold then. *)
Definition projectAfter (pf : Platform) (out : SourceFile) (files : list SourceFile)
  : list SourceFile :=
  let files' := replaceFile out files in
  let texts := (λ f, (sf_filePath f, sf_statements f)) <$> files' in
  (λ f, {| sf_filePath := sf_filePath f;
           sf_statements := sf_statements f;
           sf_exportedDeclarations := (checkProject pf texts (sf_filePath f)).1;
           sf_defaultExportDeclarations := (checkProject pf texts (sf_filePath f)).2 |})
    <$> files'.

(** [fs.readFileSync(path, "utf-8")]. *)
Definition readFileSync (pf : Platform) (path : string) : Result string :=
  match textFiles pf !! path with
  | Some text => Return text
  | None => Throw "ENOENT: no such file or directory"
  end.

(** [tsconfig.compilerOptions?.paths || {}]. *)
Definition pathsOf (tsconfig : TsConfig) : Paths :=
  match tc_compilerOptions tsconfig with
  | Some co => default [] (co_paths co)
  | None => []
  end.

(** [Object.keys(paths).map((p) => p.replace("/*", ""))]. *)
Definition aliasPrefixesOf (paths : Paths) : list string :=
  (λ entry, Js.replace entry.1 "/*" "") <$> paths.

(** [project.addSourceFileAtPath] and [project.addSourceFilesAtPaths] in
    [collectSourceFiles] (lines 63-65): a collected file that the project
    does not hold is added to it.  The checker is first asked in the loop
    that follows, so the files carry what it finds in the whole project. *)
Definition addSourceFiles (collected files : list SourceFile) : list SourceFile :=
  foldl (λ project sourceFile,
           if decide (is_Some (findSourceFile project (sf_filePath sourceFile)))
           then project else (project ++ [sourceFile])%list)
        files collected.

(** The callback of [sourceFiles.forEach] (lines 51-53), on the files of
    the project, [Object.prototype.default] and the outcomes so far.  The
    source file is the one the project holds under the path of the file
    collected; what the call changes, it changes in the project, which the
    next call works on. *)
Definition rewriteNext (host : Host) (pf : Platform) (aliasPrefixes : list string)
    (paths : Paths) (isDryRun : bool)
    (st : list SourceFile * option string * list RewriteOutcome) (collected : SourceFile)
  : Result (list SourceFile * option string * list RewriteOutcome) :=
  let '(files, prototypeDefault, outcomes) := st in
  let sourceFile := default collected (findSourceFile files (sf_filePath collected)) in
  '(outcome, prototypeDefault') ←
    rewriteImportsInFileFrom host files prototypeDefault sourceFile aliasPrefixes paths isDryRun;
  mret (if ro_changed outcome then projectAfter pf (ro_sourceFile outcome) files else files,
        prototypeDefault', (outcomes ++ [outcome])%list).

(** [runBarrelBreaker(inputPath, isDryRun, tsconfigPath)] of
    [src/lib/barrelBreaker.js]. *)
Definition runBarrelBreaker (host : Host) (pf : Platform) (inputPath : string) (isDryRun : bool)
    (tsconfigPath : string) : Result (list RewriteOutcome) :=
  files ← newProject pf (Some tsconfigPath);
  text ← readFileSync pf tsconfigPath;
  tsconfig ← JSON_parse pf text;
  let paths := pathsOf tsconfig in
  let aliasPrefixes := aliasPrefixesOf paths in
  sourceFiles ← collectSourceFiles pf inputPath;
  '(_, _, outcomes) ← forEachR (rewriteNext host pf aliasPrefixes paths isDryRun)
                               sourceFiles (addSourceFiles sourceFiles files, None, []);
  mret outcomes.

(** An alias that, the [/*] taken off, is not empty and begins neither
    with the first character of a member name of [Object.prototype] nor
    with [$], which starts a pattern in the replacement text of [replace]:
    aliases such as [@app/*] and [~/*]. *)
Definition plainAlias (alias : string) : bool :=
  match Js.replace alias "/*" "" with
  | String c _ => bool_decide (c ∉ memberInitials) && negb (Ascii.eqb c "$")
  | EmptyString => false
  end.

Definition aliasesPlain (paths : Paths) : Prop :=
  Forall (λ entry : string * option (list string), plainAlias entry.1 = true) paths.

(** The outcomes of the calls of [rewriteImportsInFile] on the collected
    files, one after the other, each on the project as the calls before it
    left it: when a call has changed its file, the project holds the file
    as the call left it in place of the one of that path, and every file
    carries what the checker finds then. *)
Fixpoint outcomesInTurn (host : Host) (pf : Platform) (aliasPrefixes : list string)
    (paths : Paths) (isDryRun : bool) (files : list SourceFile)
    (sourceFiles : list SourceFile) (outcomes : list RewriteOutcome) : Prop :=
  match sourceFiles, outcomes with
  | [], [] => True
  | collected :: sourceFiles', outcome :: outcomes' =>
      let sourceFile := default collected (findSourceFile files (sf_filePath collected)) in
      let held :=
        (λ f, if decide (sf_filePath f = sf_filePath collected) then ro_sourceFile outcome
              else f) <$> files in
      let texts := (λ f, (sf_filePath f, sf_statements f)) <$> held in
      let asked :=
        (λ f, {| sf_filePath := sf_filePath f;
                 sf_statements := sf_statements f;
                 sf_exportedDeclarations := (checkProject pf texts (sf_filePath f)).1;
                 sf_defaultExportDeclarations := (checkProject pf texts (sf_filePath f)).2 |})
          <$> held in
      rewriteImportsInFile host files sourceFile aliasPrefixes paths isDryRun = Return outcome
      ∧ sf_filePath (ro_sourceFile outcome) = sf_filePath collected
      ∧ ro_saved outcome = ro_changed outcome && negb isDryRun
      ∧ outcomesInTurn host pf aliasPrefixes paths isDryRun
          (if ro_changed outcome then asked else files) sourceFiles' outcomes'
  | _, _ => False
  end.

(** The way the later revision of [runBarrelBreaker] (stored in
    [src/unnamed/part_002]) obtains the paths and the project: the console
    warnings, the paths and the files of the project. *)
Definition loadConfigurationGuarded (pf : Platform) (tsconfigPath : string)
  : Result (list string * Paths * list SourceFile) :=
  '(warnings, tsconfig) ←
     match textFiles pf !! tsconfigPath with
     | Some _ =>
         text ← readFileSync pf tsconfigPath;
         tsconfig ← JSON_parse pf text;
         mret ([], tsconfig)
     | None =>
         mret (["Warning: tsconfig.json not found"],
               {| tc_compilerOptions := Some {| co_paths := Some [] |} |})
     end;
  let paths := pathsOf tsconfig in
  match textFiles pf !! tsconfigPath with
  | Some _ =>
      files ← newProject pf (Some tsconfigPath);
      mret (warnings, paths, files)
  | None =>
      files ← newProject pf None;
      mret ((warnings ++ ["Warning: tsconfig.json not found"])%list, paths, files)
  end.

(** ** Purge *)

(** [isPureBarrelFile(sourceFile)]. *)
Definition isPureBarrelFile (sourceFile : SourceFile) : bool :=
  let statements := getStatements sourceFile in
  if decide (length statements = 0) then false
  else
    forallb (λ stmt,
               match stmt with
               | ExportStmt d => Js.truthy_opt (ed_moduleSpecifierValue d)
               | _ => false
               end)
            statements.

(** The two lists filled by the loop of [purgeBarrels] (lines 401-410). *)
Definition purgePartition (sourceFiles : list SourceFile) : list SourceFile * list SourceFile :=
  foldl (λ '(pureBarrelFiles, impureBarrelFiles) sourceFile,
           if decide (0 < length (getExportDeclarations sourceFile)) then
             if isPureBarrelFile sourceFile
             then ((pureBarrelFiles ++ [sourceFile])%list, impureBarrelFiles)
             else (pureBarrelFiles, (impureBarrelFiles ++ [sourceFile])%list)
           else (pureBarrelFiles, impureBarrelFiles))
        ([], []) sourceFiles.

(** What [purgeBarrels] does with the two lists: the paths it deletes
    ([fs.unlinkSync], not in a dry run) and the paths it warns about. *)
Record PurgeOutcome := {
  po_deleted : list string;
  po_warned : list string;
}.

(** [purgeBarrels(directory, dryRun)], on the source files found in the
    directory. *)
Definition purgeBarrels (sourceFiles : list SourceFile) (dryRun : bool) : PurgeOutcome :=
  let '(pureBarrelFiles, impureBarrelFiles) := purgePartition sourceFiles in
  {| po_deleted := if dryRun then [] else sf_filePath <$> pureBarrelFiles;
     po_warned := sf_filePath <$> impureBarrelFiles |}.

(** ** Concrete source trees

    The trees on which the statements below are tried.  The host of the
    examples computes Node's [path] functions on absolute POSIX paths that
    have no [.] or [..] segment to normalise, and resolves a relative
    specifier to [<path>.ts], then to [<path>/index.ts]. *)
Module Posix.

Fixpoint lastSlash (s : string) : option nat :=
  match s with
  | EmptyString => None
  | String c tl =>
      match lastSlash tl with
      | Some i => Some (S i)
      | None => if Ascii.eqb c "/" then Some 0 else None
      end
  end.

Definition dirname (s : string) : string :=
  match lastSlash s with
  | Some 0 => "/"
  | Some i => String.substring 0 i s
  | None => "."
  end.

Definition dropDotSlash (s : string) : string :=
  if Js.startsWith s "./" then String.substring 2 (String.length s - 2) s else s.

Definition join (a b : string) : string := a ++ "/" ++ dropDotSlash b.

(** [path.resolve(...parts)], the working directory being [/cwd]. *)
Definition resolve (parts : list string) : string :=
  foldl (λ acc part, if Js.startsWith part "/" then part else join acc part) "/cwd" parts.

Definition relative (from to : string) : string :=
  if Js.startsWith to (from ++ "/")
  then String.substring (S (String.length from)) (String.length to - S (String.length from)) to
  else to.

Definition host (files : list SourceFile) : Host :=
  {| path_resolve := resolve;
     path_dirname := dirname;
     path_join := join;
     path_relative := relative;
     moduleSpecifierSourceFile := λ file specifier,
       if Js.startsWith specifier "." then
         let base := resolve [dirname file; specifier] in
         if existsSync files (base ++ ".ts") then Some (base ++ ".ts")
         else if existsSync files (base ++ "/index.ts") then Some (base ++ "/index.ts")
         else None
       else None |}.

End Posix.

(** [import { names } from "from"]. *)
Definition importNamed (names : list (string * option string)) (from : string) : Statement :=
  ImportStmt {| id_moduleSpecifierValue := from;
                id_defaultImport := None;
                id_namedImports := (λ na, {| is_name := na.1; is_alias := na.2 |}) <$> names |}.

(** [export { names } from "from"]. *)
Definition exportNamedFrom (names : list (string * option string)) (from : string) : Statement :=
  ExportStmt {| ed_moduleSpecifierValue := Some from;
                ed_isNamespaceExport := false;
                ed_namedExports := (λ na, {| es_name := na.1; es_alias := na.2 |}) <$> names |}.

(** [export { names }]. *)
Definition exportLocal (names : list (string * option string)) : Statement :=
  ExportStmt {| ed_moduleSpecifierValue := None;
                ed_isNamespaceExport := false;
                ed_namedExports := (λ na, {| es_name := na.1; es_alias := na.2 |}) <$> names |}.

(** [export * from "from"]. *)
Definition exportStarFrom (from : string) : Statement :=
  ExportStmt {| ed_moduleSpecifierValue := Some from;
                ed_isNamespaceExport := true;
                ed_namedExports := [] |}.

(** A chain of named re-exports that renames the symbol:
<<
   /p/U.ts   import { x } from './A';  console.log(x);
   /p/A.ts   export { y as x } from './B';
   /p/B.ts   export { z as y } from './C';
   /p/C.ts   export const z = 1;  export { x } from './D';
   /p/D.ts   export const x = 2;
>>
    The checker finds the declaration behind [x] of [A] and behind [y] of
    [B] in [C.ts], and the one behind [x] of [C] in [D.ts]. *)
Module Chain.

Definition U : SourceFile :=
  {| sf_filePath := "/p/U.ts";
     sf_statements := [importNamed [("x", None)] "./A"; OtherStmt "console.log(x);"];
     sf_exportedDeclarations := [];
     sf_defaultExportDeclarations := None |}.

Definition A : SourceFile :=
  {| sf_filePath := "/p/A.ts";
     sf_statements := [exportNamedFrom [("y", Some "x")] "./B"];
     sf_exportedDeclarations := [("x", ["/p/C.ts"])];
     sf_defaultExportDeclarations := None |}.

Definition B : SourceFile :=
  {| sf_filePath := "/p/B.ts";
     sf_statements := [exportNamedFrom [("z", Some "y")] "./C"];
     sf_exportedDeclarations := [("y", ["/p/C.ts"])];
     sf_defaultExportDeclarations := None |}.

Definition C : SourceFile :=
  {| sf_filePath := "/p/C.ts";
     sf_statements := [OtherStmt "export const z = 1;"; exportNamedFrom [("x", None)] "./D"];
     sf_exportedDeclarations := [("z", ["/p/C.ts"]); ("x", ["/p/D.ts"])];
     sf_defaultExportDeclarations := None |}.

Definition D : SourceFile :=
  {| sf_filePath := "/p/D.ts";
     sf_statements := [OtherStmt "export const x = 2;"];
     sf_exportedDeclarations := [("x", ["/p/D.ts"])];
     sf_defaultExportDeclarations := None |}.

Definition files : list SourceFile := [U; A; B; C; D].

Definition host : Host := Posix.host files.

(** The import statement of [U]. *)
Definition theImport : ImportDeclaration :=
  {| id_moduleSpecifierValue := "./A";
     id_defaultImport := None;
     id_namedImports := [{| is_name := "x"; is_alias := None |}] |}.

(** The export map of [A]. *)
Definition mapOfA : gmap string ReExport :=
  {[ "x" := {| localName := "y"; resolvedPath := "/p/B.ts" |} ]}.

(** [U] after the first run. *)
Definition U1 : SourceFile :=
  {| sf_filePath := "/p/U.ts";
     sf_statements := [importNamed [("x", None)] "./C"; OtherStmt "console.log(x);"];
     sf_exportedDeclarations := [];
     sf_defaultExportDeclarations := None |}.

(** The tree after the first run. *)
Definition files1 : list SourceFile := [U1; A; B; C; D].

Definition host1 : Host := Posix.host files1.

(** [U] after the second run. *)
Definition U2 : SourceFile :=
  {| sf_filePath := "/p/U.ts";
     sf_statements := [importNamed [("x", None)] "./D"; OtherStmt "console.log(x);"];
     sf_exportedDeclarations := [];
     sf_defaultExportDeclarations := None |}.

End Chain.

(** Two barrels that re-export each other:
<<
   /p/A.ts    export { a } from './A1';  export * from './B';
   /p/B.ts    export { b } from './B1';  export * from './A';
   /p/A1.ts   export const a = 1;
   /p/B1.ts   export const b = 2;
>> *)
Module Cycle.

Definition A : SourceFile :=
  {| sf_filePath := "/p/A.ts";
     sf_statements := [exportNamedFrom [("a", None)] "./A1"; exportStarFrom "./B"];
     sf_exportedDeclarations := [("a", ["/p/A1.ts"]); ("b", ["/p/B1.ts"])];
     sf_defaultExportDeclarations := None |}.

Definition B : SourceFile :=
  {| sf_filePath := "/p/B.ts";
     sf_statements := [exportNamedFrom [("b", None)] "./B1"; exportStarFrom "./A"];
     sf_exportedDeclarations := [("a", ["/p/A1.ts"]); ("b", ["/p/B1.ts"])];
     sf_defaultExportDeclarations := None |}.

Definition A1 : SourceFile :=
  {| sf_filePath := "/p/A1.ts";
     sf_statements := [OtherStmt "export const a = 1;"];
     sf_exportedDeclarations := [("a", ["/p/A1.ts"])];
     sf_defaultExportDeclarations := None |}.

Definition B1 : SourceFile :=
  {| sf_filePath := "/p/B1.ts";
     sf_statements := [OtherStmt "export const b = 2;"];
     sf_exportedDeclarations := [("b", ["/p/B1.ts"])];
     sf_defaultExportDeclarations := None |}.

Definition files : list SourceFile := [A; B; A1; B1].

Definition host : Host := Posix.host files.

End Cycle.

(** The example of the spec:
<<
   /p/import-example.ts             import { named, nested, missing } from './modules';
   /p/modules/index.ts              export { named } from './named-export';
                                    export * from './nested';
   /p/modules/named-export.ts       export const named = 1;
   /p/modules/nested/index.ts       export { actualNested as nested } from './nested-export';
   /p/modules/nested/nested-export.ts   export const actualNested = 2;
>>
    with a third binding, [missing], that the barrel does not export. *)
Module Fixture.

Definition importExample : SourceFile :=
  {| sf_filePath := "/p/import-example.ts";
     sf_statements :=
       [importNamed [("named", None); ("nested", None); ("missing", None)] "./modules"];
     sf_exportedDeclarations := [];
     sf_defaultExportDeclarations := None |}.

Definition modulesIndex : SourceFile :=
  {| sf_filePath := "/p/modules/index.ts";
     sf_statements := [exportNamedFrom [("named", None)] "./named-export";
                       exportStarFrom "./nested"];
     sf_exportedDeclarations :=
       [("named", ["/p/modules/named-export.ts"]);
        ("nested", ["/p/modules/nested/nested-export.ts"])];
     sf_defaultExportDeclarations := None |}.

Definition namedExport : SourceFile :=
  {| sf_filePath := "/p/modules/named-export.ts";
     sf_statements := [OtherStmt "export const named = 1;"];
     sf_exportedDeclarations := [("named", ["/p/modules/named-export.ts"])];
     sf_defaultExportDeclarations := None |}.

Definition nestedIndex : SourceFile :=
  {| sf_filePath := "/p/modules/nested/index.ts";
     sf_statements := [exportNamedFrom [("actualNested", Some "nested")] "./nested-export"];
     sf_exportedDeclarations := [("nested", ["/p/modules/nested/nested-export.ts"])];
     sf_defaultExportDeclarations := None |}.

Definition nestedExport : SourceFile :=
  {| sf_filePath := "/p/modules/nested/nested-export.ts";
     sf_statements := [OtherStmt "export const actualNested = 2;"];
     sf_exportedDeclarations := [("actualNested", ["/p/modules/nested/nested-export.ts"])];
     sf_defaultExportDeclarations := None |}.

Definition files : list SourceFile :=
  [importExample; modulesIndex; namedExport; nestedIndex; nestedExport].

Definition host : Host := Posix.host files.

(** [importExample] after the first run, and the tree with it. *)
Definition importExample1 : SourceFile :=
  {| sf_filePath := "/p/import-example.ts";
     sf_statements :=
       [importNamed [("missing", None)] "./modules";
        importNamed [("named", None)] "./modules/named-export";
        importNamed [("actualNested", Some "nested")] "./modules/nested/nested-export"];
     sf_exportedDeclarations := [];
     sf_defaultExportDeclarations := None |}.

Definition files1 : list SourceFile :=
  [importExample1; modulesIndex; namedExport; nestedIndex; nestedExport].

Definition host1 : Host := Posix.host files1.

(** The export map of [modulesIndex]. *)
Definition mapOfIndex : gmap string ReExport :=
  {[ "named" := {| localName := "named"; resolvedPath := "/p/modules/named-export.ts" |};
     "nested" := {| localName := "actualNested";
                    resolvedPath := "/p/modules/nested/nested-export.ts" |} ]}.

(** The import statement of [importExample]. *)
Definition theImport : ImportDeclaration :=
  {| id_moduleSpecifierValue := "./modules";
     id_defaultImport := None;
     id_namedImports := [{| is_name := "named"; is_alias := None |};
                         {| is_name := "nested"; is_alias := None |};
                         {| is_name := "missing"; is_alias := None |}] |}.

End Fixture.

(** A module that exports its own symbol through an export declaration
    without a module specifier:
<<
   /p/app.ts             import { x } from './modules';
   /p/modules/index.ts   const x = 1;  export { x };
>> *)
Module PlainExport.

Definition app : SourceFile :=
  {| sf_filePath := "/p/app.ts";
     sf_statements := [importNamed [("x", None)] "./modules"];
     sf_exportedDeclarations := [];
     sf_defaultExportDeclarations := None |}.

Definition modulesIndex : SourceFile :=
  {| sf_filePath := "/p/modules/index.ts";
     sf_statements := [OtherStmt "const x = 1;"; exportLocal [("x", None)]];
     sf_exportedDeclarations := [("x", ["/p/modules/index.ts"])];
     sf_defaultExportDeclarations := None |}.

Definition files : list SourceFile := [app; modulesIndex].

Definition host : Host := Posix.host files.

(** [app] after the run. *)
Definition app1 : SourceFile :=
  {| sf_filePath := "/p/app.ts";
     sf_statements := [importNamed [("x", None)] "./modules/index"];
     sf_exportedDeclarations := [];
     sf_defaultExportDeclarations := None |}.

End PlainExport.

(** The pair [[name, alias]] stands in the entry of [rewrittenBySpecifier]
    for [specifier]. *)
Definition written (st : ProcessState) (specifier : string) (pair : string * string) : Prop :=
  ∃ e, alist_get specifier (ps_rewrittenBySpecifier st) = Some e ∧ pair ∈ rw_named e.

(** A barrel whose own declaration shadows a name that also comes through
    a namespace re-export:
<<
   /p/app.ts         import { x } from './dir';
   /p/dir/index.ts   export * from './N';  export const x = 1;
   /p/dir/N.ts       export { l as x } from './F';
   /p/dir/F.ts       export const l = 2;
>>
    The checker finds the declaration behind [x] of [index.ts] in
    [index.ts] itself. *)
Module Shadow.

Definition app : SourceFile :=
  {| sf_filePath := "/p/app.ts";
     sf_statements := [importNamed [("x", None)] "./dir"];
     sf_exportedDeclarations := [];
     sf_defaultExportDeclarations := None |}.

Definition index : SourceFile :=
  {| sf_filePath := "/p/dir/index.ts";
     sf_statements := [exportStarFrom "./N"; OtherStmt "export const x = 1;"];
     sf_exportedDeclarations := [("x", ["/p/dir/index.ts"])];
     sf_defaultExportDeclarations := None |}.

Definition N : SourceFile :=
  {| sf_filePath := "/p/dir/N.ts";
     sf_statements := [exportNamedFrom [("l", Some "x")] "./F"];
     sf_exportedDeclarations := [("x", ["/p/dir/F.ts"])];
     sf_defaultExportDeclarations := None |}.

Definition F : SourceFile :=
  {| sf_filePath := "/p/dir/F.ts";
     sf_statements := [OtherStmt "export const l = 2;"];
     sf_exportedDeclarations := [("l", ["/p/dir/F.ts"])];
     sf_defaultExportDeclarations := None |}.

Definition files : list SourceFile := [app; index; N; F].

Definition host : Host := Posix.host files.

(** [app] after the run. *)
Definition app1 : SourceFile :=
  {| sf_filePath := "/p/app.ts";
     sf_statements := [importNamed [("x", None)] "./dir/index"];
     sf_exportedDeclarations := [];
     sf_defaultExportDeclarations := None |}.

End Shadow.

(** The impure barrel of the README and a file that imports from it:
<<
   /p/app.ts                            import { pure, impure } from './modules/impure-barrel';
   /p/modules/impure-barrel/index.ts    export * from './module';
                                        export const impure = 'impure';
   /p/modules/impure-barrel/module.ts   export const pure = 'pure';
>>
    No named re-export clause is reached from [index.ts], so its export map
    is empty; the checker finds [pure] in [module.ts] and [impure] in
    [index.ts]. *)
Module Impure.

Definition app : SourceFile :=
  {| sf_filePath := "/p/app.ts";
     sf_statements := [importNamed [("pure", None); ("impure", None)] "./modules/impure-barrel"];
     sf_exportedDeclarations := [];
     sf_defaultExportDeclarations := None |}.

Definition index : SourceFile :=
  {| sf_filePath := "/p/modules/impure-barrel/index.ts";
     sf_statements := [exportStarFrom "./module"; OtherStmt "export const impure = 'impure';"];
     sf_exportedDeclarations := [("pure", ["/p/modules/impure-barrel/module.ts"]);
                                 ("impure", ["/p/modules/impure-barrel/index.ts"])];
     sf_defaultExportDeclarations := None |}.

Definition module : SourceFile :=
  {| sf_filePath := "/p/modules/impure-barrel/module.ts";
     sf_statements := [OtherStmt "export const pure = 'pure';"];
     sf_exportedDeclarations := [("pure", ["/p/modules/impure-barrel/module.ts"])];
     sf_defaultExportDeclarations := None |}.

Definition files : list SourceFile := [app; index; module].

Definition host : Host := Posix.host files.

(** The import statement of [app]. *)
Definition theImport : ImportDeclaration :=
  {| id_moduleSpecifierValue := "./modules/impure-barrel";
     id_defaultImport := None;
     id_namedImports := [{| is_name := "pure"; is_alias := None |};
                         {| is_name := "impure"; is_alias := None |}] |}.

(** [app] after the run. *)
Definition app1 : SourceFile :=
  {| sf_filePath := "/p/app.ts";
     sf_statements := [importNamed [("pure", None)] "./modules/impure-barrel/module";
                       importNamed [("impure", None)] "./modules/impure-barrel/index"];
     sf_exportedDeclarations := [];
     sf_defaultExportDeclarations := None |}.

End Impure.

(** ** Purge, restated *)

(** An export declaration with a module specifier: the value of the
    specifier is a string, and not the empty one. *)
Definition reExportStatement (stmt : Statement) : Prop :=
  ∃ d specifier,
    stmt = ExportStmt d ∧ ed_moduleSpecifierValue d = Some specifier ∧ specifier ≠ "".

(** The alias table of the spec's example, and one whose entry has two
    base paths. *)
Definition componentsPaths : Paths := [("@components/*", Some ["./src/components/*"])].

Definition twoBasesPaths : Paths := [("@c/*", Some ["./a/*"; "./b/*"])].

(** The purge fixture of the README: a pure barrel, the impure barrel and
    a module that is no barrel. *)
Definition pureBarrel : SourceFile :=
  {| sf_filePath := "/p/modules/nested/index.ts";
     sf_statements := [exportNamedFrom [("actualNested", Some "nested")] "./nested-export"];
     sf_exportedDeclarations := [];
     sf_defaultExportDeclarations := None |}.

Definition impureBarrel : SourceFile :=
  {| sf_filePath := "/p/modules/impure-barrel/index.ts";
     sf_statements := [exportStarFrom "./module"; OtherStmt "export const impure = 'impure';"];
     sf_exportedDeclarations := [];
     sf_defaultExportDeclarations := None |}.

Definition plainModule : SourceFile :=
  {| sf_filePath := "/p/modules/named-export.ts";
     sf_statements := [OtherStmt "export const named = 1;"];
     sf_exportedDeclarations := [];
     sf_defaultExportDeclarations := None |}.

(** A platform without tsconfig.json on disk, on which the [Project]
    constructor nevertheless returns the files of the spec's example. *)
Definition noTsconfig : Platform :=
  {| textFiles := ∅;
     JSON_parse := λ _, Throw "SyntaxError";
     newProject := λ _, Return Fixture.files;
     collectSourceFiles := λ _, Return [Fixture.importExample];
     checkProject := λ _ _, ([], None) |}.

(** An alias whose name is that of a member of [Object.prototype]:
<<
   tsconfig.json              "paths": { "constructor": ["./src/barrel/index.ts"] }
   /cwd/src/app.ts            import lib from './barrel';  console.log(lib);
   /cwd/src/named.ts          import { helper } from './barrel';  helper();
   /cwd/src/barrel/index.ts   export * from './other';
                              export default 1;  export const helper = () => 2;
   /cwd/src/barrel/other.ts   export const other = 3;
>>
    [resolveAlias] gives [constructor] for [index.ts], the file that
    declares the default export and [helper]. *)
Module Inherited.

Definition paths : Paths := [("constructor", Some ["./src/barrel/index.ts"])].

Definition app : SourceFile :=
  {| sf_filePath := "/cwd/src/app.ts";
     sf_statements :=
       [ImportStmt {| id_moduleSpecifierValue := "./barrel";
                      id_defaultImport := Some "lib";
                      id_namedImports := [] |};
        OtherStmt "console.log(lib);"];
     sf_exportedDeclarations := [];
     sf_defaultExportDeclarations := None |}.

Definition named : SourceFile :=
  {| sf_filePath := "/cwd/src/named.ts";
     sf_statements := [importNamed [("helper", None)] "./barrel"; OtherStmt "helper();"];
     sf_exportedDeclarations := [];
     sf_defaultExportDeclarations := None |}.

Definition index : SourceFile :=
  {| sf_filePath := "/cwd/src/barrel/index.ts";
     sf_statements := [exportStarFrom "./other";
                       OtherStmt "export default 1;";
                       OtherStmt "export const helper = () => 2;"];
     sf_exportedDeclarations :=
       [("other", ["/cwd/src/barrel/other.ts"]);
        ("default", ["/cwd/src/barrel/index.ts"]);
        ("helper", ["/cwd/src/barrel/index.ts"])];
     sf_defaultExportDeclarations := Some ["/cwd/src/barrel/index.ts"] |}.

Definition other : SourceFile :=
  {| sf_filePath := "/cwd/src/barrel/other.ts";
     sf_statements := [OtherStmt "export const other = 3;"];
     sf_exportedDeclarations := [("other", ["/cwd/src/barrel/other.ts"])];
     sf_defaultExportDeclarations := None |}.

Definition files : list SourceFile := [app; named; index; other].

Definition host : Host := Posix.host files.

(** [app] after the run: the import is gone. *)
Definition app1 : SourceFile :=
  {| sf_filePath := "/cwd/src/app.ts";
     sf_statements := [OtherStmt "console.log(lib);"];
     sf_exportedDeclarations := [];
     sf_defaultExportDeclarations := None |}.

End Inherited.

(** ** The merge of the rewritten imports, restated *)

(** The named entries that are written, in the order of the writes: the
    specifier of the group, the written name and the alias. *)
Definition namedWrites (rs : list RewrittenImport) : list (string * string * string) :=
  rs ≫= λ r, (λ entry : string * string, (ri_specifier r, entry.1, entry.2)) <$> ri_named r.

(** The alias of the last write of [name] to the group of [specifier]. *)
Definition lastAlias (specifier name : string) (rs : list RewrittenImport) : option string :=
  last (omap (λ w : string * string * string,
                if decide (w.1.1 = specifier ∧ w.1.2 = name) then Some w.2 else None)
             (namedWrites rs)).

(** The last default import seen for [specifier]. *)
Definition lastDefault (specifier : string) (rs : list RewrittenImport) : option string :=
  last (omap (λ r, if decide (ri_specifier r = specifier)
                   then (if Js.truthy_opt (ri_defaultImport r)
                         then ri_defaultImport r else None)
                   else None)
             rs).

(** ** Further source trees and notions

    The trees and predicates that the further facts are written in. *)

(** A barrel whose named re-export comes after a namespace re-export of
    the same name:
<<
   /p/app.ts         import { x } from './dir';
   /p/dir/index.ts   export * from './N';  export { own as x } from './F';
   /p/dir/N.ts       export { l as x } from './G';
   /p/dir/F.ts       export const own = 1;
   /p/dir/G.ts       export const l = 2;
>> *)
Module Override.

Definition app : SourceFile :=
  {| sf_filePath := "/p/app.ts";
     sf_statements := [importNamed [("x", None)] "./dir"];
     sf_exportedDeclarations := [];
     sf_defaultExportDeclarations := None |}.

Definition index : SourceFile :=
  {| sf_filePath := "/p/dir/index.ts";
     sf_statements := [exportStarFrom "./N"; exportNamedFrom [("own", Some "x")] "./F"];
     sf_exportedDeclarations := [("x", ["/p/dir/F.ts"])];
     sf_defaultExportDeclarations := None |}.

Definition N : SourceFile :=
  {| sf_filePath := "/p/dir/N.ts";
     sf_statements := [exportNamedFrom [("l", Some "x")] "./G"];
     sf_exportedDeclarations := [("x", ["/p/dir/G.ts"])];
     sf_defaultExportDeclarations := None |}.

Definition F : SourceFile :=
  {| sf_filePath := "/p/dir/F.ts";
     sf_statements := [OtherStmt "export const own = 1;"];
     sf_exportedDeclarations := [("own", ["/p/dir/F.ts"])];
     sf_defaultExportDeclarations := None |}.

Definition G : SourceFile :=
  {| sf_filePath := "/p/dir/G.ts";
     sf_statements := [OtherStmt "export const l = 2;"];
     sf_exportedDeclarations := [("l", ["/p/dir/G.ts"])];
     sf_defaultExportDeclarations := None |}.

Definition files : list SourceFile := [app; index; N; F; G].

Definition host : Host := Posix.host files.

End Override.

(** [const usedName = alias || name] (line 266). *)
Definition usedName (namedImport : ImportSpecifier) : string :=
  Js.or_else (is_alias namedImport) (is_name namedImport).

(** The local names that the entries of [rewrittenBySpecifier] bind. *)
Definition rewrittenNames (entries : list (string * Rewritten)) : list string :=
  entries ≫= λ entry, (rw_named entry.2).*2.

(** A default import whose declaration changes and that is not rewritten
    itself:
<<
   /p/app.ts             import def, { a } from './modules/index';
   /p/modules/index.ts   export default 1;  export { a } from './a';
   /p/modules/a.ts       export const a = 2;
>> *)
Module DefaultStays.

Definition theImport : ImportDeclaration :=
  {| id_moduleSpecifierValue := "./modules/index";
     id_defaultImport := Some "def";
     id_namedImports := [{| is_name := "a"; is_alias := None |}] |}.

Definition app : SourceFile :=
  {| sf_filePath := "/p/app.ts";
     sf_statements := [ImportStmt theImport; OtherStmt "console.log(def, a);"];
     sf_exportedDeclarations := [];
     sf_defaultExportDeclarations := None |}.

Definition modulesIndex : SourceFile :=
  {| sf_filePath := "/p/modules/index.ts";
     sf_statements := [OtherStmt "export default 1;"; exportNamedFrom [("a", None)] "./a"];
     sf_exportedDeclarations := [("default", ["/p/modules/index.ts"]); ("a", ["/p/modules/a.ts"])];
     sf_defaultExportDeclarations := Some ["/p/modules/index.ts"] |}.

Definition a : SourceFile :=
  {| sf_filePath := "/p/modules/a.ts";
     sf_statements := [OtherStmt "export const a = 2;"];
     sf_exportedDeclarations := [("a", ["/p/modules/a.ts"])];
     sf_defaultExportDeclarations := None |}.

Definition files : list SourceFile := [app; modulesIndex; a].

Definition host : Host := Posix.host files.

(** [app] after the run. *)
Definition app1 : SourceFile :=
  {| sf_filePath := "/p/app.ts";
     sf_statements := [importNamed [("a", None)] "./modules/a"; OtherStmt "console.log(def, a);"];
     sf_exportedDeclarations := [];
     sf_defaultExportDeclarations := None |}.

End DefaultStays.

(** What [processImportDeclaration] returns for the import of the fixture. *)
Definition rewrittenOfFixture : ProcessResult :=
  {| pr_changed := true;
     pr_rewrittenImports :=
       [{| ri_specifier := "./modules/named-export";
           ri_named := [("named", "named")];
           ri_defaultImport := None |};
        {| ri_specifier := "./modules/nested/nested-export";
           ri_named := [("actualNested", "nested")];
           ri_defaultImport := None |}] |}.

(** What holds of [rewrittenBySpecifier] and [changed] all along. *)
Definition rewrittenInvariant (moduleSpecifier : string) (st : ProcessState) : Prop :=
  NoDup (ps_rewrittenBySpecifier st).*1
  ∧ (ps_changed st = true ↔ ps_rewrittenBySpecifier st ≠ [])
  ∧ ∀ specifier e, (specifier, e) ∈ ps_rewrittenBySpecifier st →
      specifier ≠ moduleSpecifier
      ∧ (Js.truthy_opt (rw_defaultImport e) = true ∨ rw_named e ≠ []).

(** Whether a statement is an import declaration. *)
Definition isImportStatement (stmt : Statement) : bool :=
  match stmt with
  | ImportStmt _ => true
  | _ => false
  end.

(** The statements of a file that are no import declarations, in their
    order. *)
Definition otherStatements (stmts : list Statement) : list Statement :=
  List.filter (λ stmt, negb (isImportStatement stmt)) stmts.

(** An import declaration that binds something. *)
Definition bindsSomething (d : ImportDeclaration) : Prop :=
  Js.truthy_opt (id_defaultImport d) = true ∨ id_namedImports d ≠ [].

(** The lines of [printImportDiff] that build [updatedImportText] (lines
    325-339): [parts] for one group, the line of the group, and the
    text. *)
Definition importParts (group : ImportGroup) : list string :=
  (if Js.truthy_opt (ig_default group) then [default "" (ig_default group)] else [])
  ++ (if decide (0 < length (ig_named group))
      then ["{ " ++ String.concat ", "
                      ((λ entry : string * string,
                          if decide (entry.1 = entry.2) then entry.1
                          else entry.1 ++ " as " ++ entry.2) <$> ig_named group)
                 ++ " }"]
      else []).

Definition importLine (entry : string * ImportGroup) : string :=
  "import " ++ String.concat ", " (importParts entry.2) ++ " from '" ++ entry.1 ++ "';".

Definition updatedImportText (importGroups : list (string * ImportGroup)) : string :=
  String.concat (String "010" "") (importLine <$> Object_entries importGroups).

Section LoopInvariant.

Context (host : Host) (files : list SourceFile).

(** What the loop of [rewriteImportsInFile] keeps true of its locals. *)
Definition loopInvariant (sourceFile : SourceFile) (aliasPrefixes : list string) (paths : Paths)
    (st : FileState) : Prop :=
  (∀ i d, sf_statements sourceFile !! i = Some (ImportStmt d) →
          fs_statements st !! i = Some (ImportStmt d))
  ∧ otherStatements (fs_statements st) = otherStatements (sf_statements sourceFile)
  ∧ (∀ j, j ∈ fs_importsToRemove st →
          ∃ d, sf_statements sourceFile !! j = Some (ImportStmt d)
               ∧ ¬ settledImport host files sourceFile aliasPrefixes paths d)
  ∧ (fs_changed st = false →
     fs_statements st = sf_statements sourceFile
     ∧ fs_importGroups st = [] ∧ fs_importsToRemove st = [])
  ∧ (∀ specifier group, (specifier, group) ∈ fs_importGroups st →
       Js.truthy_opt (ig_default group) = true ∨ ig_named group ≠ [])
  ∧ (∀ stmt, stmt ∈ fs_statements st →
       stmt ∈ sf_statements sourceFile ∨ ∃ d, stmt = ImportStmt d ∧ bindsSomething d).

End LoopInvariant.

(** A file of the tree of [Fixture] with an import of a package beside the
    import of the barrel:
<<
   /p/mixed.ts   import React from 'react';
                 import { named } from './modules';
                 export const view = React.createElement(named);
>> *)
Definition reactImport : ImportDeclaration :=
  {| id_moduleSpecifierValue := "react";
     id_defaultImport := Some "React";
     id_namedImports := [] |}.

Definition mixed : SourceFile :=
  {| sf_filePath := "/p/mixed.ts";
     sf_statements := [ImportStmt reactImport;
                       importNamed [("named", None)] "./modules";
                       OtherStmt "export const view = React.createElement(named);"];
     sf_exportedDeclarations := [("view", ["/p/mixed.ts"])];
     sf_defaultExportDeclarations := None |}.

(** [mixed] after the run. *)
Definition mixed1 : SourceFile :=
  {| sf_filePath := "/p/mixed.ts";
     sf_statements := [ImportStmt reactImport;
                       importNamed [("named", None)] "./modules/named-export";
                       OtherStmt "export const view = React.createElement(named);"];
     sf_exportedDeclarations := [("view", ["/p/mixed.ts"])];
     sf_defaultExportDeclarations := None |}.

(** A platform with a tsconfig.json that holds no compiler options, on
    which the project has the files of the spec's example; the checker
    finds for every file what it found when the project was loaded. *)
Definition plainTsconfig : Platform :=
  {| textFiles := {[ "/p/tsconfig.json" := "{}" ]};
     JSON_parse := λ _, Return {| tc_compilerOptions := None |};
     newProject := λ _, Return Fixture.files;
     collectSourceFiles := λ _, Return [Fixture.importExample; mixed];
     checkProject := λ _ path,
       match findSourceFile (Fixture.files ++ [mixed]) path with
       | Some f => (sf_exportedDeclarations f, sf_defaultExportDeclarations f)
       | None => ([], None)
       end |}.

(** A file that exports what it imports through the barrels of [Chain],
    and a file that imports from it:
<<
   /p/U.ts            import { x } from './A';  export { x };
   /p/V.ts            import { x } from './U';  console.log(x);
   /p/A.ts ... D.ts   as in [Chain]
   /p/tsconfig.json   { "compilerOptions": { "paths": { "@app/*": ["./app/*"] } } }
>>
    While [U] imports [x] from ['./A'] the checker finds the declaration
    behind [x] of [U] in [C.ts]; once [U] imports [x] from ['./C'] it is
    the [x] of [C], declared in [D.ts]. *)
Module InPlace.

Definition U : SourceFile :=
  {| sf_filePath := "/p/U.ts";
     sf_statements := [importNamed [("x", None)] "./A"; exportLocal [("x", None)]];
     sf_exportedDeclarations := [("x", ["/p/C.ts"])];
     sf_defaultExportDeclarations := None |}.

Definition V : SourceFile :=
  {| sf_filePath := "/p/V.ts";
     sf_statements := [importNamed [("x", None)] "./U"; OtherStmt "console.log(x);"];
     sf_exportedDeclarations := [];
     sf_defaultExportDeclarations := None |}.

Definition files : list SourceFile := [U; V; Chain.A; Chain.B; Chain.C; Chain.D].

Definition host : Host := Posix.host files.

Definition paths : Paths := [("@app/*", Some ["./app/*"])].

Definition importsFrom (specifier : string) (stmts : list Statement) : bool :=
  existsb (λ stmt, match stmt with
                   | ImportStmt d => String.eqb (id_moduleSpecifierValue d) specifier
                   | _ => false
                   end) stmts.

Definition quoted (s : string) : string := String "034" (s ++ String "034" "").

Definition tsconfigText : string :=
  "{ " ++ quoted "compilerOptions" ++ ": { " ++ quoted "paths" ++ ": { "
  ++ quoted "@app/*" ++ ": [" ++ quoted "./app/*" ++ "] } } }".

Definition platform : Platform :=
  {| textFiles := {[ "/p/tsconfig.json" := tsconfigText ]};
     JSON_parse := λ _, Return {| tc_compilerOptions := Some {| co_paths := Some paths |} |};
     newProject := λ _, Return files;
     collectSourceFiles := λ _, Return [U; V];
     checkProject := λ texts path,
       if decide (path = "/p/U.ts") then
         match alist_get "/p/U.ts" texts with
         | Some stmts =>
             ([("x", [if importsFrom "./C" stmts then "/p/D.ts" else "/p/C.ts"])], None)
         | None => ([], None)
         end
       else
         match findSourceFile files path with
         | Some f => (sf_exportedDeclarations f, sf_defaultExportDeclarations f)
         | None => ([], None)
         end |}.

(** [U] when [rewriteImportsInFile] has returned. *)
Definition U1 : SourceFile :=
  {| sf_filePath := "/p/U.ts";
     sf_statements := [importNamed [("x", None)] "./C"; exportLocal [("x", None)]];
     sf_exportedDeclarations := [("x", ["/p/C.ts"])];
     sf_defaultExportDeclarations := None |}.

(** [U] in the project after that, the checker asked anew. *)
Definition U1' : SourceFile :=
  {| sf_filePath := "/p/U.ts";
     sf_statements := [importNamed [("x", None)] "./C"; exportLocal [("x", None)]];
     sf_exportedDeclarations := [("x", ["/p/D.ts"])];
     sf_defaultExportDeclarations := None |}.

(** [V] as the run leaves it, and as a run on the project as loaded would
    leave it. *)
Definition V1 : SourceFile :=
  {| sf_filePath := "/p/V.ts";
     sf_statements := [importNamed [("x", None)] "./D"; OtherStmt "console.log(x);"];
     sf_exportedDeclarations := [];
     sf_defaultExportDeclarations := None |}.

Definition V1alone : SourceFile :=
  {| sf_filePath := "/p/V.ts";
     sf_statements := [importNamed [("x", None)] "./C"; OtherStmt "console.log(x);"];
     sf_exportedDeclarations := [];
     sf_defaultExportDeclarations := None |}.

End InPlace.

(** What a call of [getReExportMapRecursive] with cache returns: the map,
    [seen] and the cache. *)
Definition CacheState : Type :=
  gmap string ReExport * gset string * gmap string (gmap string ReExport).

(** What a call of the function with cache guarantees: [seen] and the
    cache grow, and a path that enters the cache was first seen in the
    call. *)
Definition cacheGrows (seen : gset string) (cache : gmap string (gmap string ReExport))
    (r : CacheState) : Prop :=
  seen ⊆ r.1.2 ∧ cache ⊆ r.2
  ∧ ∀ p, p ∈ dom r.2 → p ∈ dom cache ∨ (p ∈ r.1.2 ∧ p ∉ seen).

(** A named binding that [processNamedImport] keeps: the target has no
    declaration for it, or the declaration resolves to the specifier the
    import has. *)
Definition keptBinding (host : Host) (declarations sourceFile : SourceFile)
    (moduleSpecifier : string) (paths : Paths) (namedImport : ImportSpecifier) : Prop :=
  ∀ resolvedFile,
    alist_get (is_name namedImport) (sf_exportedDeclarations declarations) ≫= head
    = Some resolvedFile →
    resolvedSpecifier host paths sourceFile resolvedFile = Return moduleSpecifier.



(** ** The later revision of the rewrite of one declaration

    [resolveAlias] and [processImportDeclaration] as they stand in
    [src/unnamed/part_002] (lines 251-264 and 467-578).  The specifier of a
    binding is computed from the alias table when the import is an alias
    import and as a relative path otherwise, so it can be [null]; the
    counter [bindingsUpdated] of the module is passed in and returned. *)
Module Later.

(** A [Map] whose keys are strings or [null], in insertion order. *)
Fixpoint Map_get {V : Type} (k : option string) (l : list (option string * V)) : option V :=
  match l with
  | [] => None
  | (k', v) :: l' => if decide (k' = k) then Some v else Map_get k l'
  end.

Fixpoint Map_set {V : Type} (k : option string) (v : V) (l : list (option string * V))
  : list (option string * V) :=
  match l with
  | [] => [(k, v)]
  | (k', v') :: l' => if decide (k' = k) then (k, v) :: l' else (k', v') :: Map_set k v l'
  end.

(** One element of [rewrittenImports]; [None] is the specifier [null]. *)
Record RewrittenImport := {
  ri_specifier : option string;
  ri_named : list (string * string);
  ri_defaultImport : option string;
}.

Record ProcessResult := {
  pr_changed : bool;
  pr_rewrittenImports : list RewrittenImport;
}.

(** The locals of [processImportDeclaration] and the counter of the
    module. *)
Record ProcessState := {
  ps_rewrittenBySpecifier : list (option string * Rewritten);
  ps_keptNamed : list ImportSpecifier;
  ps_changed : bool;
  ps_bindingsUpdated : nat;
}.

Section LaterEngine.

Context (host : Host).

(** [resolveAlias(paths, resolvedPath, tsconfigDir)]. *)
Fixpoint resolveAlias (paths : Paths) (resolvedPath tsconfigDir : string)
  : Result (option string) :=
  match paths with
  | [] => Return None
  | (alias, basePaths) :: rest =>
      match basePaths with
      | None => resolveAlias rest resolvedPath tsconfigDir
      | Some [] => Throw "TypeError: Cannot read properties of undefined (reading 'replace')"
      | Some (base0 :: _) =>
          let absolute := path_resolve host [tsconfigDir; Js.replace base0 "/*" ""] in
          if Js.startsWith resolvedPath absolute then
            Return (Some (Js.backslashesToSlashes
                            (Js.stripTsExtension
                               (Js.replace resolvedPath absolute (Js.replace alias "/*" "")))))
          else resolveAlias rest resolvedPath tsconfigDir
      end
  end.

(** [isAliasImport ? resolveAlias(paths, resolvedFile, tsconfigDir)
                   : getRelativePath(sourceFile.getFilePath(), resolvedFile)]. *)
Definition resolvedSpecifier (isAliasImport : bool) (paths : Paths) (tsconfigDir : string)
    (sourceFile : SourceFile) (resolvedFile : string) : Result (option string) :=
  if isAliasImport then resolveAlias paths resolvedFile tsconfigDir
  else mret (Some (getRelativePath host (sf_filePath sourceFile) resolvedFile)).

(** The default import (lines 491-510). *)
Definition processDefaultImport (importDecl : ImportDeclaration)
    (declarations sourceFile : SourceFile) (moduleSpecifier : string) (paths : Paths)
    (tsconfigDir : string) (isAliasImport : bool) (bindingsUpdated : nat)
  : Result ProcessState :=
  let start := {| ps_rewrittenBySpecifier := []; ps_keptNamed := []; ps_changed := false;
                  ps_bindingsUpdated := bindingsUpdated |} in
  let defaultImport := id_defaultImport importDecl in
  if Js.truthy_opt defaultImport then
    match sf_defaultExportDeclarations declarations ≫= head with
    | Some resolvedFile =>
        resolved ← resolvedSpecifier isAliasImport paths tsconfigDir sourceFile resolvedFile;
        if decide (resolved ≠ Some moduleSpecifier) then
          mret {| ps_rewrittenBySpecifier :=
                    [(resolved, {| rw_named := []; rw_defaultImport := defaultImport |})];
                  ps_keptNamed := [];
                  ps_changed := true;
                  ps_bindingsUpdated := S bindingsUpdated |}
        else mret start
    | None => mret start
    end
  else mret start.

(** The callback of [importDecl.getNamedImports().forEach] (lines
    513-556). *)
Definition processNamedImport (declarations sourceFile : SourceFile) (moduleSpecifier : string)
    (reExportMap : gmap string ReExport) (paths : Paths) (tsconfigDir : string)
    (isAliasImport : bool) (st : ProcessState) (namedImport : ImportSpecifier)
  : Result ProcessState :=
  let name := is_name namedImport in
  let alias := is_alias namedImport in
  let usedName := Js.or_else alias name in
  match alist_get name (sf_exportedDeclarations declarations) ≫= head with
  | None =>
      mret {| ps_rewrittenBySpecifier := ps_rewrittenBySpecifier st;
              ps_keptNamed := ps_keptNamed st ++ [{| is_name := name; is_alias := alias |}];
              ps_changed := ps_changed st;
              ps_bindingsUpdated := ps_bindingsUpdated st |}
  | Some resolvedFile =>
      resolved ← resolvedSpecifier isAliasImport paths tsconfigDir sourceFile resolvedFile;
      let originalExportName :=
        match reExportMap !! name with
        | Some reExport =>
            if decide (resolvedPath reExport = resolvedFile) then localName reExport else name
        | None => name
        end in
      if decide (resolved ≠ Some moduleSpecifier) then
        let entry :=
          match Map_get resolved (ps_rewrittenBySpecifier st) with
          | Some e => e
          | None => {| rw_named := []; rw_defaultImport := None |}
          end in
        mret {| ps_rewrittenBySpecifier :=
                  Map_set resolved
                    {| rw_named := rw_named entry ++ [(originalExportName, usedName)];
                       rw_defaultImport := rw_defaultImport entry |}
                    (ps_rewrittenBySpecifier st);
                ps_keptNamed := ps_keptNamed st;
                ps_changed := true;
                ps_bindingsUpdated := S (ps_bindingsUpdated st) |}
      else
        mret {| ps_rewrittenBySpecifier := ps_rewrittenBySpecifier st;
                ps_keptNamed := ps_keptNamed st ++ [{| is_name := name; is_alias := alias |}];
                ps_changed := ps_changed st;
                ps_bindingsUpdated := ps_bindingsUpdated st |}
  end.

Definition processBindings (importDecl : ImportDeclaration) (declarations sourceFile : SourceFile)
    (moduleSpecifier : string) (reExportMap : gmap string ReExport) (paths : Paths)
    (tsconfigDir : string) (isAliasImport : bool) (bindingsUpdated : nat)
  : Result ProcessState :=
  st ← processDefaultImport importDecl declarations sourceFile moduleSpecifier paths
         tsconfigDir isAliasImport bindingsUpdated;
  forEachR (processNamedImport declarations sourceFile moduleSpecifier reExportMap paths
              tsconfigDir isAliasImport)
           (id_namedImports importDecl) st.

(** [processImportDeclaration({...})]: the result, the statements of the
    importing file and the counter. *)
Definition processImportDeclaration (importDecl : ImportDeclaration)
    (declarations sourceFile : SourceFile) (moduleSpecifier : string)
    (reExportMap : gmap string ReExport) (paths : Paths) (tsconfigDir : string)
    (isAliasImport : bool) (bindingsUpdated : nat) (stmts : list Statement)
  : Result (ProcessResult * list Statement * nat) :=
  st ← processBindings importDecl declarations sourceFile moduleSpecifier reExportMap paths
         tsconfigDir isAliasImport bindingsUpdated;
  if ps_changed st then
    let stmts' :=
      if decide (0 < length (ps_keptNamed st))
      then addImportDeclaration (residualImport moduleSpecifier (ps_keptNamed st)) stmts
      else stmts in
    mret ({| pr_changed := true;
             pr_rewrittenImports :=
               (λ '(specifier, e),
                  {| ri_specifier := specifier;
                     ri_named := rw_named e;
                     ri_defaultImport := rw_defaultImport e |})
                 <$> ps_rewrittenBySpecifier st |}, stmts', ps_bindingsUpdated st)
  else mret ({| pr_changed := false; pr_rewrittenImports := [] |}, stmts,
             ps_bindingsUpdated st).

End LaterEngine.

(** The key of [importGroups[specifier]]: a property key is a string, and
    [null] becomes ["null"]. *)
Definition propertyKey (specifier : option string) : string := default "null" specifier.

(** The body of the loop over [result.rewrittenImports] (lines 404-414),
    which is that of [src/lib/barrelBreaker.js]. *)
Definition mergeRewrittenImport (st : option string * list (string * ImportGroup))
    (r : RewrittenImport) : Result (option string * list (string * ImportGroup)) :=
  mergeGroup (propertyKey (ri_specifier r)) (ri_named r) (ri_defaultImport r) st.

(** The bindings that a list of rewritten imports carries. *)
Definition bindingsOf (rs : list RewrittenImport) : nat :=
  sum_list_with (λ r, length (ri_named r)
                      + (if Js.truthy_opt (ri_defaultImport r) then 1 else 0))%nat rs.

End Later.

(** A result of [processImportDeclaration] of [src/lib/barrelBreaker.js],
    as one of the later revision. *)
Definition laterResult (result : ProcessResult) : Later.ProcessResult :=
  {| Later.pr_changed := pr_changed result;
     Later.pr_rewrittenImports :=
       (λ r, {| Later.ri_specifier := Some (ri_specifier r);
                Later.ri_named := ri_named r;
                Later.ri_defaultImport := ri_defaultImport r |})
         <$> pr_rewrittenImports result |}.

(** The bindings that the entries of [rewrittenBySpecifier] carry. *)
Definition bindingsIn (entries : list (option string * Rewritten)) : nat :=
  sum_list_with (λ entry : option string * Rewritten,
                   length (rw_named entry.2)
                   + (if Js.truthy_opt (rw_defaultImport entry.2) then 1 else 0))%nat entries.

(** An alias import whose symbol is declared outside every base path:
<<
   tsconfig.json                "paths": { "@components/*": ["./src/components/*"] }
   /cwd/src/app.ts              import { helper } from '@components';
   /cwd/src/components/index.ts export { helper } from '../shared/helper';
   /cwd/src/shared/helper.ts    export const helper = 1;
>> *)
Module Outside.

Definition theImport : ImportDeclaration :=
  {| id_moduleSpecifierValue := "@components";
     id_defaultImport := None;
     id_namedImports := [{| is_name := "helper"; is_alias := None |}] |}.

Definition app : SourceFile :=
  {| sf_filePath := "/cwd/src/app.ts";
     sf_statements := [ImportStmt theImport];
     sf_exportedDeclarations := [];
     sf_defaultExportDeclarations := None |}.

Definition componentsIndex : SourceFile :=
  {| sf_filePath := "/cwd/src/components/index.ts";
     sf_statements := [exportNamedFrom [("helper", None)] "../shared/helper"];
     sf_exportedDeclarations := [("helper", ["/cwd/src/shared/helper.ts"])];
     sf_defaultExportDeclarations := None |}.

Definition mapOfIndex : gmap string ReExport :=
  {[ "helper" := {| localName := "helper"; resolvedPath := "/cwd/src/shared/helper.ts" |} ]}.

(** [import { helper } from "from"], the declaration. *)
Definition importNamedDeclaration (from : string) : ImportDeclaration :=
  {| id_moduleSpecifierValue := from;
     id_defaultImport := None;
     id_namedImports := [{| is_name := "helper"; is_alias := None |}] |}.

End Outside.

(** The locals of the two revisions of [processImportDeclaration] hold the
    same: the same kept bindings, the same flag, and the same entries, all
    under string keys. *)
Definition sameLocals (earlier : ProcessState) (later : Later.ProcessState) : Prop :=
  Later.ps_rewrittenBySpecifier later
  = (λ entry : string * Rewritten, (Some entry.1, entry.2)) <$> ps_rewrittenBySpecifier earlier
  ∧ Later.ps_keptNamed later = ps_keptNamed earlier
  ∧ Later.ps_changed later = ps_changed earlier.

(** [buildImportString(rewritten)] of the later revision
    ([src/unnamed/part_002], lines 77-87), which builds the line that is
    logged for a rewritten import; a specifier [null] is printed as
    ["null"] by the template literal. *)
Definition buildImportString (rewritten : Later.RewrittenImport) : string :=
  let parts :=
    ((if Js.truthy_opt (Later.ri_defaultImport rewritten)
      then [default "" (Later.ri_defaultImport rewritten)] else [])
     ++ (if decide (0 < length (Later.ri_named rewritten))
         then [("{ " ++ String.concat ", "
                          ((λ entry : string * string,
                              if decide (entry.1 = entry.2) then entry.1
                              else entry.1 ++ " as " ++ entry.2) <$> Later.ri_named rewritten)
                     ++ " }")%string]
         else []))%list in
  "import " ++ String.concat ", " parts ++ " from '"
  ++ default "null" (Later.ri_specifier rewritten) ++ "';".


Section SecondRunDefinitions.

Context (host : Host) (files : list SourceFile).

(** A specifier that leads the rewrite to no barrel: it is not local, or
    its target is not found or has no export declaration. *)
Definition leadsToNoBarrel (sourceFile : SourceFile) (aliasPrefixes : list string)
    (specifier : string) : Prop :=
  isLocalImport aliasPrefixes specifier = false
  ∨ importTarget host files sourceFile specifier = None
  ∨ ∃ declarations,
      importTarget host files sourceFile specifier = Some declarations
      ∧ isBarrel declarations = false.

(** What the loop of [rewriteImportsInFile] keeps true of the import
    declarations it has in hand: one that stands where the file had none
    is settled, and so is one of the file that is not to be removed. *)
Definition importsInvariant (sourceFile : SourceFile) (aliasPrefixes : list string)
    (paths : Paths) (handled : list (nat * ImportDeclaration)) (st : FileState) : Prop :=
  (∀ j d, fs_statements st !! j = Some (ImportStmt d) →
          sf_statements sourceFile !! j = Some (ImportStmt d)
          ∨ settledImport host files sourceFile aliasPrefixes paths d)
  ∧ (∀ imp, imp ∈ handled →
            imp.1 ∈ fs_importsToRemove st
            ∨ settledImport host files sourceFile aliasPrefixes paths imp.2).

End SecondRunDefinitions.

(** * Facts *)

#[local] Set Warnings "-clear-no-such-hyp".

(** ** The export map builder *)
Section EngineFacts.

Context (host : Host) (files : list SourceFile).

Lemma findSourceFile_Some p sf :
  findSourceFile files p = Some sf → sf_filePath sf = p ∧ sf ∈ files.
Proof.
  unfold findSourceFile. intros H.
  apply find_some in H as [Hin Hp].
  apply bool_decide_eq_true in Hp. split; [done|]. by apply list_elem_of_In.
Qed.


Lemma findSourceFile_canonical p sf : findSourceFile files p = Some sf → canonical files sf.
Proof.
  intros H. unfold canonical. by destruct (findSourceFile_Some _ _ H) as [-> _].
Qed.

Lemma exportTarget_canonical sf d t : exportTarget host files sf d = Some t → canonical files t.
Proof.
  unfold exportTarget, exportTargetByChecker. intros H.
  repeat (case_match; simplify_eq); eauto using findSourceFile_canonical.
Qed.


(** The file whose export map [rewriteImport] asks for is canonical. *)
Lemma importTarget_canonical sourceFile moduleSpecifier declarations :
  importTarget host files sourceFile moduleSpecifier = Some declarations →
  canonical files declarations.
Proof.
  unfold importTarget. intros H.
  destruct (moduleSpecifierSourceFile host _ _) as [p|]; [|done].
  by eapply findSourceFile_canonical.
Qed.

Lemma canonical_known sf : canonical files sf → sf_filePath sf ∈ (knownPaths files).
Proof.
  intros H. apply findSourceFile_Some in H as [_ Hin].
  unfold knownPaths. apply elem_of_list_to_set, list_elem_of_fmap. eauto.
Qed.

Lemma size_list_to_set_le (l : list string) :
  (size (list_to_set l : gset string) ≤ length l)%nat.
Proof.
  induction l as [|x l IH].
  - by rewrite list_to_set_nil, size_empty.
  - rewrite list_to_set_cons. cbn [length].
    rewrite size_union_alt.
    rewrite size_singleton.
    assert (size (list_to_set l ∖ {[x]} : gset string) ≤ size (list_to_set l : gset string))%nat
      by (apply subseteq_size; set_solver).
    lia.
Qed.

Lemma size_knownPaths : (size (knownPaths files) ≤ length files)%nat.
Proof.
  unfold knownPaths. etrans; [apply size_list_to_set_le|]. by rewrite length_fmap.
Qed.


Lemma unseen_mono s s' : s ⊆ s' → (unseen files s' ≤ unseen files s)%nat.
Proof. intros Hs. unfold unseen. apply subseteq_size. set_solver. Qed.

Lemma unseen_insert p s :
  p ∈ (knownPaths files) → p ∉ s → (unseen files ({[p]} ∪ s) < unseen files s)%nat.
Proof. intros Hp Hs. unfold unseen. apply subset_size. set_solver. Qed.

Lemma exportStep_loop_returns n sf :
  (∀ t s, canonical files t → (unseen files s < n)%nat →
          ∃ r, getReExportMapRecursive host files n t s = Some r ∧ s ⊆ r.2) →
  ∀ ds st, (unseen files st.2 < n)%nat →
    ∃ r, forEachM (exportStep host files (getReExportMapRecursive host files n) sf) ds st = Some r
         ∧ st.2 ⊆ r.2.
Proof.
  intros IHn ds. induction ds as [|d ds IHds]; intros [M S] Hlt; simpl in *.
  - eauto.
  - unfold exportStep at 1. destruct (exportTarget host files sf d) as [t|] eqn:Et; simpl.
    + destruct (ed_isNamespaceExport d).
      * destruct (IHn t S) as [[M1 S1] [-> Hsub]]; [by eapply exportTarget_canonical|done|].
        simpl in Hsub.
        destruct (IHds (mergeEntries M1 M, S1)) as [r [-> Hr]].
        { simpl. pose proof (unseen_mono _ _ Hsub). lia. }
        exists r. split; [done|]. simpl in Hr. set_solver.
      * apply (IHds (_, S)). done.
    + apply (IHds (M, S)). done.
Qed.

Lemma getReExportMapRecursive_returns_canonical n :
  ∀ sf seen, canonical files sf → (unseen files seen < n)%nat →
    ∃ r, getReExportMapRecursive host files n sf seen = Some r ∧ seen ⊆ r.2.
Proof.
  induction n as [|n IHn]; intros sf seen Hc Hlt; [lia|].
  simpl. case_decide as Hseen; [eauto|].
  destruct (exportStep_loop_returns n sf IHn (getExportDeclarations sf)
              (∅, {[sf_filePath sf]} ∪ seen)) as [r [-> Hr]].
  - simpl. pose proof (unseen_insert _ _ (canonical_known _ Hc) Hseen). lia.
  - exists r. split; [done|]. simpl in Hr. set_solver.
Qed.

Lemma getReExportMapRecursive_returns n sf seen :
  (unseen files seen + 1 < n)%nat → is_Some (getReExportMapRecursive host files n sf seen).
Proof.
  destruct n as [|n]; [lia|]. intros Hlt.
  simpl. case_decide as Hseen; [eauto|].
  destruct (exportStep_loop_returns n sf
              (getReExportMapRecursive_returns_canonical n)
              (getExportDeclarations sf) (∅, {[sf_filePath sf]} ∪ seen)) as [r [-> Hr]]; [|eauto].
  simpl. pose proof (unseen_mono seen ({[sf_filePath sf]} ∪ seen)) as Hm.
  assert (seen ⊆ {[sf_filePath sf]} ∪ seen) as Hs by set_solver. specialize (Hm Hs). lia.
Qed.

Lemma enoughFuel_enough seen : (unseen files seen + 1 < enoughFuel files)%nat.
Proof.
  unfold enoughFuel. pose proof size_knownPaths.
  assert (unseen files seen ≤ size (knownPaths files))%nat by (unfold unseen; apply subseteq_size; set_solver). lia.
Qed.


Lemma foldl_insert_lookup (l : list (string * ReExport)) :
  ∀ (cur : gmap string ReExport) k, NoDup l.*1 →
    foldl (λ m kv, <[kv.1 := kv.2]> m) cur l !! k
    = match (list_to_map l : gmap string ReExport) !! k with
      | Some e => Some e
      | None => cur !! k
      end.
Proof.
  induction l as [|[k0 v0] l IH]; intros cur k Hnd; simpl.
  - by rewrite lookup_empty.
  - apply NoDup_cons in Hnd as [Hk0 Hnd]. rewrite IH by done.
    destruct (decide (k0 = k)) as [->|Hne].
    + rewrite !lookup_insert_eq.
      by rewrite (not_elem_of_list_to_map_1 _ _ Hk0).
    + rewrite !lookup_insert_ne by done. done.
Qed.

Lemma mergeEntries_lookup (nested cur : gmap string ReExport) k :
  mergeEntries nested cur !! k = (nested ∪ cur) !! k.
Proof.
  unfold mergeEntries. rewrite foldl_insert_lookup by apply NoDup_fst_map_to_list.
  rewrite list_to_map_to_list, lookup_union.
  destruct (nested !! k), (cur !! k); done.
Qed.

Lemma mergeEntries_union (nested cur : gmap string ReExport) :
  mergeEntries nested cur = nested ∪ cur.
Proof. apply map_eq. intros k. apply mergeEntries_lookup. Qed.

Lemma setNamedExports_lookup p specs : ∀ (M : gmap string ReExport) k e,
  setNamedExports p specs M !! k = Some e →
  (∃ spec, spec ∈ specs ∧ exportedNameOf spec = k
           ∧ e = {| localName := es_name spec; resolvedPath := p |})
  ∨ M !! k = Some e.
Proof.
  unfold setNamedExports.
  induction specs as [|s specs IH]; intros M k e H; simpl in *; [by right|].
  apply IH in H as [(spec & Hin & Hk & He)|H].
  - left. exists spec. split; [by right|done].
  - destruct (decide (exportedNameOf s = k)) as [Heq|Hne].
    + rewrite Heq, lookup_insert_eq in H. left. exists s. split; [by left|]. split; congruence.
    + rewrite lookup_insert_ne in H by done. by right.
Qed.

Lemma setNamedExports_dom p specs : ∀ (M : gmap string ReExport) k,
  k ∈ dom (setNamedExports p specs M) ↔
  k ∈ dom M ∨ ∃ spec, spec ∈ specs ∧ exportedNameOf spec = k.
Proof.
  unfold setNamedExports.
  induction specs as [|s specs IH]; intros M k; simpl.
  - split; [by left|]. intros [?|(spec & Hin & _)]; [done|]. by apply elem_of_nil in Hin.
  - rewrite IH, dom_insert. split.
    + intros [H|(spec & Hin & Hk)].
      * apply elem_of_union in H as [H|H]; [|by left].
        apply elem_of_singleton in H. right. exists s. split; [by left|done].
      * right. exists spec. split; [by right|done].
    + intros [H|(spec & Hin & Hk)].
      * left. set_solver.
      * apply elem_of_cons in Hin as [->|Hin].
        -- left. set_solver.
        -- right. eauto.
Qed.





Lemma provenance_step p q k e : starEdge host files p q → provenance host files q k e → provenance host files p k e.
Proof.
  intros He (r & m & Hr & Hm & Hc). exists r, m. split; [|done]. by eapply rtc_l.
Qed.

Lemma exportStep_loop_sound n sf (seen0 : gset string) :
  canonical files sf →
  (∀ t s M S', canonical files t → getReExportMapRecursive host files n t s = Some (M, S') →
     (∀ q, q ∈ S' → q ∈ s ∨ rtc (starEdge host files) (sf_filePath t) q)
     ∧ (∀ k e, M !! k = Some e → provenance host files (sf_filePath t) k e)) →
  ∀ ds (st r : gmap string ReExport * gset string),
    (∀ d, d ∈ ds → d ∈ getExportDeclarations sf) →
    forEachM (exportStep host files (getReExportMapRecursive host files n) sf) ds st = Some r →
    (∀ q, q ∈ st.2 → q ∈ seen0 ∨ rtc (starEdge host files) (sf_filePath sf) q) →
    (∀ k e, st.1 !! k = Some e → provenance host files (sf_filePath sf) k e) →
    (∀ q, q ∈ r.2 → q ∈ seen0 ∨ rtc (starEdge host files) (sf_filePath sf) q)
    ∧ (∀ k e, r.1 !! k = Some e → provenance host files (sf_filePath sf) k e).
Proof.
  intros Hc IHn ds. induction ds as [|d ds IHds]; intros [M S] r Hds Hrun HS HM; simpl in *.
  - by simplify_eq.
  - assert (d ∈ getExportDeclarations sf) as Hd by (apply Hds; left).
    assert (∀ d', d' ∈ ds → d' ∈ getExportDeclarations sf) as Hds'
      by (intros d' Hd'; apply Hds; by right).
    unfold exportStep at 1 in Hrun.
    destruct (exportTarget host files sf d) as [t|] eqn:Et; simpl in Hrun;
      [|by eapply (IHds (M, S))].
    destruct (ed_isNamespaceExport d) eqn:Ens.
    + destruct (getReExportMapRecursive host files n t S) as [[M1 S1]|] eqn:Erec; [|done].
      assert (starEdge host files (sf_filePath sf) (sf_filePath t)) as Hedge
        by (exists sf, d, t; done).
      destruct (IHn t S M1 S1 (exportTarget_canonical _ _ _ Et) Erec) as [HS1 HM1].
      eapply (IHds (_, S1)); [done|done| |]; simpl.
      * intros q Hq. destruct (HS1 q Hq) as [?|?]; [by apply HS|].
        right. by eapply rtc_l.
      * intros k e. rewrite mergeEntries_lookup, lookup_union_Some_raw.
        intros [H|[_ H]]; [|by apply HM].
        eapply provenance_step; [done|]. by apply HM1.
    + eapply (IHds (_, S)); [done|done|done|]; simpl.
      intros k e H. apply setNamedExports_lookup in H as [(spec & Hin & Hk & He)|H];
        [|by apply HM].
      exists (sf_filePath sf), sf. split; [done|]. split; [done|].
      exists d, t, spec. done.
Qed.

Lemma getReExportMapRecursive_sound n :
  ∀ sf seen M S', canonical files sf →
    getReExportMapRecursive host files n sf seen = Some (M, S') →
    (∀ q, q ∈ S' → q ∈ seen ∨ rtc (starEdge host files) (sf_filePath sf) q)
    ∧ (∀ k e, M !! k = Some e → provenance host files (sf_filePath sf) k e).
Proof.
  induction n as [|n IHn]; intros sf seen M S' Hc Hrun; [done|].
  simpl in Hrun. case_decide as Hseen.
  - simplify_eq. split; [by left|]. intros k e. by rewrite lookup_empty.
  - eapply (exportStep_loop_sound n sf seen Hc IHn _ (_, _) (M, S')); [done|exact Hrun| |]; simpl.
    + intros q [Hq|Hq]%elem_of_union; [|by left].
      apply elem_of_singleton in Hq as ->. by right.
    + intros k e. by rewrite lookup_empty.
Qed.




Lemma exportStep_loop_complete n sf :
  (∀ t s M S', canonical files t → getReExportMapRecursive host files n t s = Some (M, S') →
     s ⊆ S' ∧ sf_filePath t ∈ S' ∧ explored host files s S' M) →
  ∀ ds (st r : gmap string ReExport * gset string),
    forEachM (exportStep host files (getReExportMapRecursive host files n) sf) ds st = Some r →
    st.2 ⊆ r.2 ∧ dom st.1 ⊆ dom r.1
    ∧ (∀ d t, d ∈ ds → ed_isNamespaceExport d = true →
              exportTarget host files sf d = Some t → sf_filePath t ∈ r.2)
    ∧ (∀ d t spec, d ∈ ds → ed_isNamespaceExport d = false →
              exportTarget host files sf d = Some t → spec ∈ ed_namedExports d →
              exportedNameOf spec ∈ dom r.1)
    ∧ explored host files st.2 r.2 r.1.
Proof.
  intros IHn ds. induction ds as [|d ds IHds]; intros [M S] r Hrun; simpl in *.
  - simplify_eq. simpl. split; [done|]. split; [done|].
    split; [intros ?? []%elem_of_nil|]. split; [intros ??? []%elem_of_nil|].
    split; intros; done.
  - unfold exportStep at 1 in Hrun.
    destruct (exportTarget host files sf d) as [t|] eqn:Et; simpl in Hrun.
    2:{ destruct (IHds _ _ Hrun) as (H1 & H2 & H3 & H4 & H5); simpl in *.
        split; [done|]. split; [done|].
        split; [|split; [|done]].
        - intros d' t' [->|Hin]%elem_of_cons ??; [congruence|eauto].
        - intros d' t' spec [->|Hin]%elem_of_cons ???; [congruence|eauto]. }
    destruct (ed_isNamespaceExport d) eqn:Ens.
    + destruct (getReExportMapRecursive host files n t S) as [[M1 S1]|] eqn:Erec; [|done].
      destruct (IHn t S M1 S1 (exportTarget_canonical _ _ _ Et) Erec)
        as (Hsub & Ht & Hcl & Hnm).
      destruct (IHds _ _ Hrun) as (H1 & H2 & H3 & H4 & H5 & H6); simpl in *.
      assert (dom M1 ⊆ dom r.1) as HM1.
      { etrans; [|exact H2]. rewrite mergeEntries_union, dom_union. set_solver. }
      split; [set_solver|]. split.
      { etrans; [|exact H2]. rewrite mergeEntries_union, dom_union. set_solver. }
      split; [|split; [|split]].
      * intros d' t' [->|Hin]%elem_of_cons Hns' Et'; [|eauto].
        simplify_eq. set_solver.
      * intros d' t' spec [->|Hin]%elem_of_cons Hns' Et' Hspec; [congruence|eauto].
      * intros x q Hx HxS Hedge. destruct (decide (x ∈ S1)) as [Hx1|Hx1]; [|eauto].
        apply H1. eauto.
      * intros x m k Hx HxS Hm Hk. destruct (decide (x ∈ S1)) as [Hx1|Hx1]; [|eauto].
        apply HM1. eauto.
    + destruct (IHds _ _ Hrun) as (H1 & H2 & H3 & H4 & H5); simpl in *.
      split; [done|]. split.
      { etrans; [|exact H2]. intros k Hk. apply setNamedExports_dom. by left. }
      split; [|split; [|done]].
      * intros d' t' [->|Hin]%elem_of_cons Hns' Et'; [congruence|eauto].
      * intros d' t' spec [->|Hin]%elem_of_cons Hns' Et' Hspec; [|eauto].
        simplify_eq. apply H2, setNamedExports_dom. right. eauto.
Qed.

Lemma getReExportMapRecursive_complete n :
  ∀ sf seen M S', canonical files sf →
    getReExportMapRecursive host files n sf seen = Some (M, S') →
    seen ⊆ S' ∧ sf_filePath sf ∈ S' ∧ explored host files seen S' M.
Proof.
  induction n as [|n IHn]; intros sf seen M S' Hc Hrun; [done|].
  simpl in Hrun. case_decide as Hseen.
  - simplify_eq. split; [done|]. split; [done|]. split; intros; done.
  - destruct (exportStep_loop_complete n sf IHn _ _ _ Hrun)
      as (H1 & H2 & H3 & H4 & H5 & H6); simpl in *.
    split; [set_solver|]. split; [set_solver|]. split.
    + intros x q Hx HxS Hedge.
      destruct (decide (x = sf_filePath sf)) as [->|Hne]; [|apply (H5 x); set_solver].
      destruct Hedge as (m & d & t & Hm & Hd & Hns & Et & <-).
      rewrite Hc in Hm. simplify_eq. eauto.
    + intros x m k Hx HxS Hm Hk.
      destruct (decide (x = sf_filePath sf)) as [->|Hne]; [|apply (H6 x m); set_solver].
      rewrite Hc in Hm. simplify_eq.
      destruct Hk as (e & d & t & spec & Hd & Hns & Et & Hspec & <- & _). eauto.
Qed.




Lemma reachesOnChain_rtc V p q : reachesOnChain host files V p q → rtc (starEdge host files) p q.
Proof. induction 1; [done|]. by eapply rtc_l. Qed.

Lemma rtc_reachAvoid p q : rtc (starEdge host files) p q → reachAvoid host files ∅ p q.
Proof.
  induction 1 as [p|p r q He _ IH]; [by apply avoid_here|].
  by eapply avoid_step.
Qed.

Lemma reachAvoid_cut V p q P :
  reachAvoid host files V p q →
  reachAvoid host files ({[P]} ∪ V) p q ∨ q = P ∨ ∃ T, starEdge host files P T ∧ reachAvoid host files ({[P]} ∪ V) T q.
Proof.
  induction 1 as [p Hp|p r q Hp He Hr IH].
  - destruct (decide (p = P)) as [->|Hne]; [by right; left|].
    left. apply avoid_here. set_solver.
  - destruct IH as [IH|[->|IH]]; [|by right; left|by right; right].
    destruct (decide (p = P)) as [->|Hne]; [right; right; eauto|].
    left. eapply avoid_step; [set_solver|done|done].
Qed.

Lemma starEdge_known p q : starEdge host files p q → p ∈ (knownPaths files).
Proof.
  intros (m & _ & _ & Hm & _). pose proof (findSourceFile_canonical _ _ Hm) as Hc.
  apply findSourceFile_Some in Hm as [<- _]. by apply canonical_known.
Qed.

Lemma reachAvoid_onChain n : ∀ V p q,
  (unseen files V ≤ n)%nat → reachAvoid host files V p q → reachesOnChain host files V p q.
Proof.
  induction n as [|n IHn]; intros V p q Hn Hr.
  - destruct Hr as [p Hp|p r q Hp He Hr]; [by apply chain_here|].
    pose proof (unseen_insert _ _ (starEdge_known _ _ He) Hp). lia.
  - destruct Hr as [p Hp|p r q Hp He Hr]; [by apply chain_here|].
    assert (unseen files ({[p]} ∪ V) ≤ n)%nat as Hn'.
    { pose proof (unseen_insert _ _ (starEdge_known _ _ He) Hp). lia. }
    destruct (reachAvoid_cut _ _ _ p Hr) as [H|[->|(T & HT & H)]].
    + eapply chain_step; [done|done|]. by apply IHn.
    + by apply chain_here.
    + eapply chain_step; [done|exact HT|]. by apply IHn.
Qed.

Lemma reachesOnChain_iff_rtc p q : reachesOnChain host files ∅ p q ↔ rtc (starEdge host files) p q.
Proof.
  split; [apply reachesOnChain_rtc|].
  intros H. eapply reachAvoid_onChain; [done|]. by apply rtc_reachAvoid.
Qed.


End EngineFacts.

Section EngineTheorems.

Context (host : Host) (files : list SourceFile).

Lemma forEachM_ext {A S : Type} (f g : S → A → option S) (l : list A) :
  ∀ s r, (∀ s x y, f s x = Some y → g s x = Some y) →
         forEachM f l s = Some r → forEachM g l s = Some r.
Proof.
  induction l as [|x l IH]; intros s r Hfg H; simpl in *; [done|].
  destruct (f s x) as [s'|] eqn:E; [|done].
  rewrite (Hfg _ _ _ E). by apply IH.
Qed.

(** More fuel does not change what a call returns. *)
Lemma getReExportMapRecursive_fuel_mono n :
  ∀ n' sf seen r, (n ≤ n')%nat →
    getReExportMapRecursive host files n sf seen = Some r →
    getReExportMapRecursive host files n' sf seen = Some r.
Proof.
  induction n as [|n IHn]; intros n' sf seen r Hle H; [done|].
  destruct n' as [|n']; [lia|]. simpl in *.
  case_decide; [done|].
  eapply forEachM_ext; [|exact H].
  intros [M S] d y. unfold exportStep. simpl.
  destruct (exportTarget host files sf d) as [t|]; [|done].
  destruct (ed_isNamespaceExport d); [|done].
  destruct (getReExportMapRecursive host files n t S) as [r'|] eqn:E; [|done].
  by rewrite (IHn n' t S r' ltac:(lia) E).
Qed.

Lemma getReExportMap_returns sf : is_Some (getReExportMap host files sf).
Proof.
  unfold getReExportMap.
  destruct (getReExportMapRecursive_returns host files (enoughFuel files) sf ∅
              (enoughFuel_enough files ∅)) as [r ->].
  by eexists.
Qed.

Lemma rtc_starEdge_seen (S' : gset string) (M : gmap string ReExport) p q :
  explored host files ∅ S' M → p ∈ S' → rtc (starEdge host files) p q → q ∈ S'.
Proof.
  intros [Hcl _] Hp Hr. induction Hr as [|p r q He _ IH]; [done|].
  apply IH. eapply Hcl; [exact Hp|set_solver|done].
Qed.

(** The names of the map of a file are those of the named clauses of the
    files reached through namespace re-exports. *)
Lemma getReExportMap_dom sf M :
  canonical files sf → getReExportMap host files sf = Some M →
  ∀ k, k ∈ dom M ↔
       ∃ q m, rtc (starEdge host files) (sf_filePath sf) q
              ∧ findSourceFile files q = Some m ∧ ownName host files m k.
Proof.
  intros Hc HM k. unfold getReExportMap in HM.
  destruct (getReExportMapRecursive host files (enoughFuel files) sf ∅) as [[M' S']|] eqn:E;
    [|done].
  simpl in HM. simplify_eq. split.
  - intros [e He]%elem_of_dom.
    destruct (getReExportMapRecursive_sound _ _ _ _ _ _ _ Hc E) as [_ Hs].
    destruct (Hs k e He) as (q & m & ? & ? & ?). exists q, m. split; [done|].
    split; [done|]. by exists e.
  - intros (q & m & Hq & Hm & Hk).
    destruct (getReExportMapRecursive_complete _ _ _ _ _ _ _ Hc E) as (_ & HP & Hex).
    pose proof (rtc_starEdge_seen _ _ _ _ Hex HP Hq) as HqS.
    destruct Hex as [_ Hn]. eapply Hn; [exact HqS|set_solver|done|done].
Qed.

(** C3: The export map builder returns on every re-export graph, cyclic
    ones included, from any state of [seen]; a file that is already in
    [seen] yields the empty map and leaves [seen] as it is; and the map of a
    file holds exactly the names resolvable from it along chains of
    namespace re-exports that enter no module twice. *)
Theorem getReExportMapRecursive_cycle_safe (sourceFile : SourceFile) :
  canonical files sourceFile →
  (∀ sf seen, is_Some (getReExportMapRecursive host files (enoughFuel files) sf seen))
  ∧ (∀ fuel sf seen, sf_filePath sf ∈ seen →
       getReExportMapRecursive host files (S fuel) sf seen = Some (∅, seen))
  ∧ ∃ M, getReExportMap host files sourceFile = Some M
         ∧ ∀ k, k ∈ dom M ↔ resolvableOnce host files (sf_filePath sourceFile) k.
Proof.
  intros Hc. split; [|split].
  - intros sf seen. apply getReExportMapRecursive_returns, enoughFuel_enough.
  - intros fuel sf seen Hin. simpl. by rewrite decide_True.
  - destruct (getReExportMap_returns sourceFile) as [M HM]. exists M. split; [done|].
    intros k. rewrite (getReExportMap_dom _ _ Hc HM). unfold resolvableOnce.
    split; intros (q & m & Hq & Hm & Hk); exists q, m; (split; [|done]);
      by apply reachesOnChain_iff_rtc.
Qed.

End EngineTheorems.

Lemma getReExportMapRecursive_cycle_safe_witness :
  canonical Cycle.files Cycle.A
  ∧ ∃ M, getReExportMap Cycle.host Cycle.files Cycle.A = Some M
         ∧ ∀ k, k ∈ dom M ↔ resolvableOnce Cycle.host Cycle.files "/p/A.ts" k.
Proof.
  split; [reflexivity|].
  apply (getReExportMapRecursive_cycle_safe Cycle.host Cycle.files Cycle.A). reflexivity.
Defined.

(** Each side of the cycle of [Cycle] gets both names. *)
Example cycle_both_sides :
  getReExportMap Cycle.host Cycle.files Cycle.A
  = Some {[ "a" := {| localName := "a"; resolvedPath := "/p/A1.ts" |};
            "b" := {| localName := "b"; resolvedPath := "/p/B1.ts" |} ]}
  ∧ getReExportMap Cycle.host Cycle.files Cycle.B
    = Some {[ "a" := {| localName := "a"; resolvedPath := "/p/A1.ts" |};
              "b" := {| localName := "b"; resolvedPath := "/p/B1.ts" |} ]}.
Proof. split; vm_compute; reflexivity. Qed.

(** ** C1: what an entry of the export map names *)

(** C1, as stated, fails on the chain of [Chain]: the entry of [A] for [x]
    names [B.ts], the target of the clause [export { y as x } from './B'],
    while the declaration is in [C.ts] and [B] itself only passes [y] on. *)
Lemma entriesNameDeclaringModule_fails_on_chain :
  ¬ entriesNameDeclaringModule Chain.host Chain.files Chain.A.
Proof.
  intros H.
  destruct (H {[ "x" := {| localName := "y"; resolvedPath := "/p/B.ts" |} ]} "x"
              {| localName := "y"; resolvedPath := "/p/B.ts" |}) as [Hdecl _].
  - vm_compute. reflexivity.
  - vm_compute. reflexivity.
  - vm_compute in Hdecl. discriminate Hdecl.
Qed.

(** In that tree the file named by the entry is a barrel for the name. *)
Example chain_entry_names_a_barrel :
  getReExportMap Chain.host Chain.files Chain.A
  = Some {[ "x" := {| localName := "y"; resolvedPath := "/p/B.ts" |} ]}
  ∧ ownName Chain.host Chain.files Chain.B "y".
Proof.
  split; [vm_compute; reflexivity|].
  eexists. exists {| ed_moduleSpecifierValue := Some "./C";
                     ed_isNamespaceExport := false;
                     ed_namedExports := [{| es_name := "z"; es_alias := Some "y" |}] |},
    Chain.C, {| es_name := "z"; es_alias := Some "y" |}.
  split; [by left|]. split; [done|]. split; [vm_compute; reflexivity|].
  split; [by left|]. split; reflexivity.
Qed.

Section ExportMapEntries.

Context (host : Host) (files : list SourceFile).

(** C1, amended: the export map of a file exists, and each of its entries
    is written by a named re-export clause that stands in the file or in a
    file reached from it through namespace re-exports only; the entry
    carries the name of that clause and the path of the target of that
    clause's statement, whatever that target does with the name. *)
Theorem getReExportMap_entry_provenance (sf : SourceFile) :
  canonical files sf →
  ∃ M, getReExportMap host files sf = Some M
       ∧ ∀ k e, M !! k = Some e → provenance host files (sf_filePath sf) k e.
Proof.
  intros Hc. destruct (getReExportMap_returns host files sf) as [M HM].
  exists M. split; [done|]. intros k e He.
  unfold getReExportMap in HM.
  destruct (getReExportMapRecursive host files (enoughFuel files) sf ∅) as [[M' S']|] eqn:E;
    [|done].
  simpl in HM. simplify_eq.
  by destruct (getReExportMapRecursive_sound _ _ _ _ _ _ _ Hc E) as [_ Hs]; apply Hs.
Qed.

End ExportMapEntries.

Lemma getReExportMap_entry_provenance_witness :
  canonical Fixture.files Fixture.modulesIndex
  ∧ ∃ M, getReExportMap Fixture.host Fixture.files Fixture.modulesIndex = Some M
         ∧ ∀ k e, M !! k = Some e → provenance Fixture.host Fixture.files "/p/modules/index.ts" k e.
Proof.
  split; [reflexivity|].
  apply (getReExportMap_entry_provenance Fixture.host Fixture.files Fixture.modulesIndex).
  reflexivity.
Defined.

(** The map of the barrel of the spec's example: the entry that comes
    through [export * from './nested'] names the target of the clause in
    the nested barrel. *)
Example fixture_map :
  getReExportMap Fixture.host Fixture.files Fixture.modulesIndex
  = Some {[ "named" := {| localName := "named";
                          resolvedPath := "/p/modules/named-export.ts" |};
            "nested" := {| localName := "actualNested";
                           resolvedPath := "/p/modules/nested/nested-export.ts" |} ]}.
Proof. vm_compute. reflexivity. Qed.

(** ** Association lists *)

Lemma alist_get_set_eq {V : Type} k (v : V) l : alist_get k (alist_set k v l) = Some v.
Proof.
  induction l as [|[k' v'] l IH]; simpl.
  - by rewrite decide_True.
  - destruct (decide (k' = k)) as [->|Hne]; simpl.
    + by rewrite decide_True.
    + by rewrite decide_False.
Qed.

Lemma alist_get_set_ne {V : Type} k k' (v : V) l :
  k ≠ k' → alist_get k' (alist_set k v l) = alist_get k' l.
Proof.
  intros Hne. induction l as [|[k0 v0] l IH]; simpl.
  - by rewrite decide_False.
  - destruct (decide (k0 = k)) as [->|Hne0]; simpl.
    + by rewrite !decide_False.
    + by rewrite IH.
Qed.

Lemma alist_get_elem_of {V : Type} k (v : V) l : alist_get k l = Some v → (k, v) ∈ l.
Proof.
  induction l as [|[k' v'] l IH]; simpl; [done|].
  destruct (decide (k' = k)) as [->|Hne].
  - intros [= ->]. by left.
  - intros H. right. by apply IH.
Qed.

Lemma forEachR_app {A S : Type} (body : S → A → Result S) l1 l2 s :
  forEachR body (l1 ++ l2) s = s' ← forEachR body l1 s; forEachR body l2 s'.
Proof.
  revert s. induction l1 as [|x l1 IH]; intros s; simpl; [done|].
  destruct (body s x) as [s'| |]; simpl; [apply IH|done|done].
Qed.

Lemma forEachR_returns {A S : Type} (body : S → A → Result S) l :
  (∀ s x, ∃ s', body s x = Return s') → ∀ s, ∃ s', forEachR body l s = Return s'.
Proof.
  intros Hb. induction l as [|x l IH]; intros s; simpl; [eauto|].
  destruct (Hb s x) as [s' ->]. simpl. apply IH.
Qed.

Lemma forEachR_invariant {A S : Type} (body : S → A → Result S) (P : S → Prop) l :
  (∀ s x s', body s x = Return s' → P s → P s') →
  ∀ s s', forEachR body l s = Return s' → P s → P s'.
Proof.
  intros Hb. induction l as [|x l IH]; intros s s' H HP; simpl in *; [by simplify_eq|].
  destruct (body s x) as [s1| |] eqn:E; simpl in H; [|done|done].
  eapply IH; [done|]. by eapply Hb.
Qed.

(** ** Processing one import declaration *)

Ltac result_inv :=
  cbv beta iota delta [mret mbind Result_ret Result_bind] in *; simplify_eq.

Section ImportFacts.

Context (host : Host) (files : list SourceFile).

Lemma resolveAlias_returns paths p :
  pathsWellFormed paths → ∃ o, resolveAlias host paths p = Return o.
Proof.
  induction 1 as [|[alias [[|b0 bs]|]] paths Hwf _ IH]; simpl in *; [eauto|done| |done].
  case_match; eauto.
Qed.

Lemma resolvedSpecifier_returns paths sf p :
  pathsWellFormed paths → ∃ s, resolvedSpecifier host paths sf p = Return s.
Proof.
  intros Hwf. unfold resolvedSpecifier.
  destruct (resolveAlias_returns paths p Hwf) as [o ->]. simpl. eauto.
Qed.

Lemma processDefaultImport_returns importDecl declarations sourceFile moduleSpecifier paths :
  pathsWellFormed paths →
  ∃ st, processDefaultImport host importDecl declarations sourceFile moduleSpecifier paths
        = Return st.
Proof.
  intros Hwf. unfold processDefaultImport.
  case_match; [|eauto]. case_match; [|eauto].
  match goal with |- context [resolvedSpecifier host paths ?sf ?p] =>
    destruct (resolvedSpecifier_returns paths sf p Hwf) as [rs ->] end.
  simpl. case_decide; eauto.
Qed.

Lemma processNamedImport_returns declarations sourceFile moduleSpecifier reExportMap paths st ni :
  pathsWellFormed paths →
  ∃ st', processNamedImport host declarations sourceFile moduleSpecifier reExportMap paths st ni
         = Return st'.
Proof.
  intros Hwf. unfold processNamedImport.
  case_match; [|eauto].
  match goal with |- context [resolvedSpecifier host paths ?sf ?p] =>
    destruct (resolvedSpecifier_returns paths sf p Hwf) as [rs ->] end.
  simpl. case_decide; eauto.
Qed.

Lemma processBindings_returns importDecl declarations sourceFile moduleSpecifier reExportMap paths :
  pathsWellFormed paths →
  ∃ st, processBindings host importDecl declarations sourceFile moduleSpecifier reExportMap paths
        = Return st.
Proof.
  intros Hwf. unfold processBindings.
  destruct (processDefaultImport_returns importDecl declarations sourceFile moduleSpecifier
              paths Hwf) as [st0 ->].
  simpl. apply forEachR_returns. intros s x. by apply processNamedImport_returns.
Qed.

(** A later binding does not take a written pair away, and does not undo
    [changed]. *)
Lemma processNamedImport_keeps declarations sourceFile moduleSpecifier reExportMap paths
    st ni st' :
  processNamedImport host declarations sourceFile moduleSpecifier reExportMap paths st ni
  = Return st' →
  (∀ s pair, written st s pair → written st' s pair)
  ∧ (ps_changed st = true → ps_changed st' = true)
  ∧ (∀ k, k ∈ ps_keptNamed st → k ∈ ps_keptNamed st').
Proof.
  unfold processNamedImport. intros H.
  case_match.
  2:{ result_inv. simpl. split; [intros ?? Hw; exact Hw|]. split; [done|].
      intros k Hk. set_solver. }
  destruct (resolvedSpecifier host paths sourceFile _) as [resolved| |]; result_inv.
  case_decide; result_inv; simpl.
  - split; [|done]. intros sp pair (e & He & Hin). unfold written. simpl.
    destruct (decide (resolved = sp)) as [->|Hne].
    + rewrite alist_get_set_eq. eexists. split; [done|]. simpl.
      rewrite He. set_solver.
    + rewrite alist_get_set_ne by done. eauto.
  - split; [intros ?? Hw; exact Hw|]. split; [done|]. intros k Hk. set_solver.
Qed.

Lemma processNamedImports_keep declarations sourceFile moduleSpecifier reExportMap paths l :
  ∀ st st',
    forEachR (processNamedImport host declarations sourceFile moduleSpecifier reExportMap paths)
             l st = Return st' →
    (∀ s pair, written st s pair → written st' s pair)
    ∧ (ps_changed st = true → ps_changed st' = true)
    ∧ (∀ k, k ∈ ps_keptNamed st → k ∈ ps_keptNamed st').
Proof.
  induction l as [|x l IH]; intros st st' H; simpl in *.
  { simplify_eq. split; [intros ?? Hw; exact Hw|]. split; intros; done. }
  destruct (processNamedImport host declarations sourceFile moduleSpecifier reExportMap paths
              st x) as [st1| |] eqn:E; simpl in H; [|done|done].
  destruct (processNamedImport_keeps _ _ _ _ _ _ _ _ E) as (H1 & H2 & H3).
  destruct (IH _ _ H) as (H4 & H5 & H6).
  split; [|split]; eauto.
Qed.

End ImportFacts.

Section AliasFidelity.

Context (host : Host) (files : list SourceFile).

Lemma processNamedImport_writes declarations sourceFile moduleSpecifier reExportMap paths
    st namedImport resolvedFile resolved reExport :
  alist_get (is_name namedImport) (sf_exportedDeclarations declarations) ≫= head
  = Some resolvedFile →
  resolvedSpecifier host paths sourceFile resolvedFile = Return resolved →
  resolved ≠ moduleSpecifier →
  reExportMap !! is_name namedImport = Some reExport →
  resolvedPath reExport = resolvedFile →
  ∃ st', processNamedImport host declarations sourceFile moduleSpecifier reExportMap paths
           st namedImport = Return st'
         ∧ ps_changed st' = true
         ∧ written st' resolved
             (localName reExport, Js.or_else (is_alias namedImport) (is_name namedImport)).
Proof.
  intros Hdecl Hres Hne Hre Hpath. unfold processNamedImport.
  rewrite Hdecl, Hres, Hre. result_inv.
  rewrite decide_True by done. rewrite decide_True by done.
  eexists. split; [done|]. split; [done|].
  unfold written. simpl. rewrite alist_get_set_eq. eexists. split; [done|].
  simpl. set_solver.
Qed.

(** X26: When the export map has an entry for the imported name of a
    named binding, that entry names the file in which the checker finds
    the declaration, and the specifier resolved for that file differs from
    the one of the import, [processImportDeclaration] returns (the alias
    table having no empty array), reports a change, and the rewritten
    import it returns for the resolved specifier carries the pair of the
    entry's [localName] and the used name: the import-side alias, or the
    imported name when there is none. *)
Theorem processImportDeclaration_alias_fidelity
    importDecl declarations sourceFile moduleSpecifier reExportMap paths stmts
    namedImport resolvedFile resolved reExport :
  pathsWellFormed paths →
  namedImport ∈ id_namedImports importDecl →
  alist_get (is_name namedImport) (sf_exportedDeclarations declarations) ≫= head
  = Some resolvedFile →
  resolvedSpecifier host paths sourceFile resolvedFile = Return resolved →
  resolved ≠ moduleSpecifier →
  reExportMap !! is_name namedImport = Some reExport →
  resolvedPath reExport = resolvedFile →
  ∃ result stmts',
    processImportDeclaration host importDecl declarations sourceFile moduleSpecifier
      reExportMap paths stmts = Return (result, stmts')
    ∧ pr_changed result = true
    ∧ ∃ r, r ∈ pr_rewrittenImports result
           ∧ ri_specifier r = resolved
           ∧ (localName reExport, Js.or_else (is_alias namedImport) (is_name namedImport))
             ∈ ri_named r.
Proof.
  intros Hwf Hin Hdecl Hres Hne Hre Hpath.
  apply list_elem_of_split in Hin as (l1 & l2 & Hl).
  unfold processImportDeclaration, processBindings. rewrite Hl.
  destruct (processDefaultImport_returns host importDecl declarations sourceFile
              moduleSpecifier paths Hwf) as [st0 ->].
  cbv beta iota delta [mbind Result_bind].
  rewrite forEachR_app.
  destruct (forEachR_returns
              (processNamedImport host declarations sourceFile moduleSpecifier reExportMap paths)
              l1 (λ s x, processNamedImport_returns host _ _ _ _ _ s x Hwf) st0) as [st1 ->].
  cbv beta iota delta [mbind Result_bind]. cbn [forEachR].
  destruct (processNamedImport_writes declarations sourceFile moduleSpecifier reExportMap
              paths st1 namedImport resolvedFile resolved reExport Hdecl Hres Hne Hre Hpath)
    as (st2 & -> & Hch & Hw).
  cbv beta iota delta [mbind Result_bind].
  destruct (forEachR_returns
              (processNamedImport host declarations sourceFile moduleSpecifier reExportMap paths)
              l2 (λ s x, processNamedImport_returns host _ _ _ _ _ s x Hwf) st2) as [st3 Hst3].
  rewrite Hst3.
  destruct (processNamedImports_keep host _ _ _ _ _ _ _ _ Hst3) as (Hk & Hc & _).
  rewrite (Hc Hch). cbv beta iota delta [mret Result_ret].
  eexists _, _. split; [done|]. split; [done|].
  destruct (Hk _ _ Hw) as (e & He & Hpair).
  exists {| ri_specifier := resolved; ri_named := rw_named e;
            ri_defaultImport := rw_defaultImport e |}.
  split; [|done]. simpl.
  apply list_elem_of_fmap. exists (resolved, e). split; [done|]. by apply alist_get_elem_of.
Qed.

End AliasFidelity.

Lemma processImportDeclaration_alias_fidelity_witness :
  pathsWellFormed []
  ∧ {| is_name := "nested"; is_alias := None |} ∈ id_namedImports Fixture.theImport
  ∧ ∃ result stmts',
      processImportDeclaration Fixture.host Fixture.theImport Fixture.modulesIndex
        Fixture.importExample "./modules" Fixture.mapOfIndex [] []
      = Return (result, stmts')
      ∧ pr_changed result = true
      ∧ ∃ r, r ∈ pr_rewrittenImports result
             ∧ ri_specifier r = "./modules/nested/nested-export"
             ∧ ("actualNested", "nested") ∈ ri_named r.
Proof.
  split; [constructor|]. split; [right; left|].
  apply (processImportDeclaration_alias_fidelity Fixture.host Fixture.theImport
           Fixture.modulesIndex Fixture.importExample "./modules" Fixture.mapOfIndex [] []
           {| is_name := "nested"; is_alias := None |}
           "/p/modules/nested/nested-export.ts" "./modules/nested/nested-export"
           {| localName := "actualNested";
              resolvedPath := "/p/modules/nested/nested-export.ts" |}).
  - constructor.
  - right; left.
  - reflexivity.
  - vm_compute; reflexivity.
  - discriminate.
  - vm_compute; reflexivity.
  - reflexivity.
Defined.

(** C2: on the chain of [Chain] the binding [x] of [U] is rewritten to
    ['./C'], the module in which the checker finds its declaration, and
    the import is written [import { x } from './C'].  In [C.ts] the symbol
    is declared as [z], and the [x] that [C] exports is the one declared
    in [D.ts]: the statement written names another symbol, where
    [import { z as x } from './C'] is due.  The entry of the export map for
    [x] has the local name [y], which is not written either. *)
Theorem processImportDeclaration_writes_imported_name_on_chain :
  getReExportMap Chain.host Chain.files Chain.A = Some Chain.mapOfA
  ∧ alist_get "x" (sf_exportedDeclarations Chain.A) ≫= head = Some "/p/C.ts"
  ∧ processImportDeclaration Chain.host Chain.theImport Chain.A Chain.U "./A" Chain.mapOfA []
      (sf_statements Chain.U)
    = Return ({| pr_changed := true;
                 pr_rewrittenImports :=
                   [{| ri_specifier := "./C"; ri_named := [("x", "x")];
                       ri_defaultImport := None |}] |},
              sf_statements Chain.U)
  ∧ rewriteImportsInFile Chain.host Chain.files Chain.U [] [] false
    = Return {| ro_sourceFile := Chain.U1; ro_changed := true; ro_saved := true |}
  ∧ sf_statements Chain.U1 = [importNamed [("x", None)] "./C"; OtherStmt "console.log(x);"]
  ∧ alist_get "z" (sf_exportedDeclarations Chain.C) ≫= head = Some "/p/C.ts"
  ∧ alist_get "x" (sf_exportedDeclarations Chain.C) ≫= head = Some "/p/D.ts"
  ∧ ¬ writesEntryLocalName Chain.host Chain.theImport Chain.A Chain.U "./A" Chain.mapOfA [].
Proof.
  do 7 (split; [vm_compute; reflexivity|]).
  intros H.
  specialize (H {| is_name := "x"; is_alias := None |}
                {| localName := "y"; resolvedPath := "/p/B.ts" |}
                {| pr_changed := true;
                   pr_rewrittenImports :=
                     [{| ri_specifier := "./C"; ri_named := [("x", "x")];
                         ri_defaultImport := None |}] |}
                [] []
                {| ri_specifier := "./C"; ri_named := [("x", "x")]; ri_defaultImport := None |}
                "x").
  assert ("x" = "y") as Heq; [|discriminate Heq].
  apply H.
  - by left.
  - vm_compute; reflexivity.
  - vm_compute; reflexivity.
  - by left.
  - by left.
Qed.

(** What the guard [reExport.resolvedPath === resolvedFile] is for: in the
    tree of [Shadow] the export map has the entry [x ↦ l] of [F.ts], which
    belongs to another symbol than the [x] the checker finds in [index.ts];
    the entry is left aside and the imported name is written. *)
Example shadowed_entry_is_left_aside :
  getReExportMap Shadow.host Shadow.files Shadow.index
  = Some {[ "x" := {| localName := "l"; resolvedPath := "/p/dir/F.ts" |} ]}
  ∧ rewriteImportsInFile Shadow.host Shadow.files Shadow.app [] [] false
    = Return {| ro_sourceFile := Shadow.app1; ro_changed := true; ro_saved := true |}.
Proof. split; vm_compute; reflexivity. Qed.

(** ** C6: bindings without declaration in the barrel *)
Section KeptBindings.

Context (host : Host) (files : list SourceFile).

Lemma processNamedImport_not_found declarations sourceFile moduleSpecifier reExportMap paths
    st namedImport :
  alist_get (is_name namedImport) (sf_exportedDeclarations declarations) ≫= head = None →
  processNamedImport host declarations sourceFile moduleSpecifier reExportMap paths st namedImport
  = Return {| ps_rewrittenBySpecifier := ps_rewrittenBySpecifier st;
              ps_keptNamed := ps_keptNamed st ++ [namedImport];
              ps_changed := ps_changed st |}.
Proof.
  intros Hnone. unfold processNamedImport. rewrite Hnone. by destruct namedImport.
Qed.

Lemma processNamedImports_kept declarations sourceFile moduleSpecifier reExportMap paths
    l st st' namedImport :
  forEachR (processNamedImport host declarations sourceFile moduleSpecifier reExportMap paths)
           l st = Return st' →
  namedImport ∈ l →
  alist_get (is_name namedImport) (sf_exportedDeclarations declarations) ≫= head = None →
  namedImport ∈ ps_keptNamed st'.
Proof.
  intros Hrun Hin Hnone.
  apply list_elem_of_split in Hin as (l1 & l2 & ->).
  rewrite forEachR_app in Hrun.
  destruct (forEachR _ l1 st) as [st1| |]; [|done|done].
  cbv beta iota delta [mbind Result_bind] in Hrun. cbn [forEachR] in Hrun.
  rewrite processNamedImport_not_found in Hrun by done.
  cbv beta iota delta [mbind Result_bind] in Hrun.
  destruct (processNamedImports_keep host _ _ _ _ _ _ _ _ Hrun) as (_ & _ & Hk).
  apply Hk. simpl. set_solver.
Qed.






End KeptBindings.



(** On the example of the spec the binding [missing] stays under
    ['./modules'], in a residual import of its own. *)
Example fixture_residual :
  processImportDeclaration Fixture.host Fixture.theImport Fixture.modulesIndex
    Fixture.importExample "./modules" Fixture.mapOfIndex []
    (sf_statements Fixture.importExample)
  = Return
      ({| pr_changed := true;
          pr_rewrittenImports :=
            [{| ri_specifier := "./modules/named-export";
                ri_named := [("named", "named")];
                ri_defaultImport := None |};
             {| ri_specifier := "./modules/nested/nested-export";
                ri_named := [("actualNested", "nested")];
                ri_defaultImport := None |}] |},
       [importNamed [("named", None); ("nested", None); ("missing", None)] "./modules";
        importNamed [("missing", None)] "./modules"]).
Proof. vm_compute. reflexivity. Qed.

(** ** C7: the alias resolver *)
Section AliasResolver.

Context (host : Host).

(** C7, amended: on a table without an empty array of base paths,
    [resolveAlias] returns the specifier of the first entry, in the order
    of the table, whose first base path (resolved, its ["/*"] removed) is a
    prefix of the path: the path with that prefix replaced by the alias
    (its ["/*"] removed), the [.ts] or [.tsx] extension stripped and the
    backslashes turned into slashes; it returns [null] when no entry
    matches in this way.  The other base paths of an entry are not
    looked at. *)
Theorem resolveAlias_first_match (paths : Paths) (resolvedPath : string) :
  pathsWellFormed paths →
  resolveAlias host paths resolvedPath = Return (firstAliasMatch host paths resolvedPath).
Proof.
  unfold firstAliasMatch.
  induction 1 as [|[alias [[|base0 bases]|]] paths Hhd _ IH]; simpl in *; [done| | |done].
  - done.
  - unfold aliasEntryMatches at 1. simpl.
    destruct (Js.startsWith resolvedPath _) eqn:E; [|done].
    by unfold aliasSpecifier.
Qed.

End AliasResolver.

Lemma resolveAlias_first_match_witness :
  pathsWellFormed componentsPaths
  ∧ resolveAlias (Posix.host []) componentsPaths "/cwd/src/components/button.ts"
    = Return (firstAliasMatch (Posix.host []) componentsPaths "/cwd/src/components/button.ts").
Proof.
  split; [repeat constructor; discriminate|].
  apply (resolveAlias_first_match (Posix.host []) componentsPaths).
  repeat constructor; discriminate.
Defined.

(** The example of the spec: [button.ts] under [./src/components]. *)
Example resolveAlias_components :
  resolveAlias (Posix.host []) componentsPaths "/cwd/src/components/button.ts"
  = Return (Some "@components/button").
Proof. vm_compute. reflexivity. Qed.

(** C7, as stated, fails when the path falls under the second base path
    of an entry: the answer is [null]. *)
Lemma resolvesUnderAnyBase_fails_on_second_base :
  ¬ resolvesUnderAnyBase (Posix.host []) twoBasesPaths "/cwd/b/x.ts".
Proof.
  intros [H _].
  destruct H as [specifier Hs].
  - exists "@c/*", ["./a/*"; "./b/*"], "./b/*".
    split; [by left|]. split; [right; by left|]. vm_compute. reflexivity.
  - vm_compute in Hs. discriminate Hs.
Qed.

(** ** C8: pure barrels *)

Lemma truthy_opt_true o : Js.truthy_opt o = true ↔ ∃ s, o = Some s ∧ s ≠ "".
Proof.
  destruct o as [[|c s]|]; simpl; split; try done.
  - intros [s [[= <-] Hs]]. done.
  - intros _. eexists. split; [done|done].
  - intros [s [? _]]. done.
Qed.

Lemma getExportDeclarations_nonempty sf d :
  ExportStmt d ∈ sf_statements sf → (0 < length (getExportDeclarations sf))%nat.
Proof.
  unfold getExportDeclarations. intros Hin.
  assert (d ∈ omap (λ st, match st with ExportStmt d => Some d | _ => None end)
                   (sf_statements sf)) as Hd.
  { apply list_elem_of_omap. exists (ExportStmt d). done. }
  destruct (omap _ _); [by apply elem_of_nil in Hd|]. simpl. lia.
Qed.

Lemma isPureBarrelFile_iff sf :
  isPureBarrelFile sf = true ↔
  (0 < length (getStatements sf))%nat ∧ Forall reExportStatement (getStatements sf).
Proof.
  unfold isPureBarrelFile. case_decide as Hlen.
  - split; [done|]. intros [? _]. lia.
  - rewrite forallb_forall, Forall_forall. split.
    + intros H. split; [lia|]. intros st Hst.
      specialize (H st (proj1 (list_elem_of_In _ _) Hst)).
      destruct st as [|d|]; try done.
      apply truthy_opt_true in H as (s & Hs & Hne). by exists d, s.
    + intros [_ H] st Hst. apply list_elem_of_In in Hst.
      destruct (H st Hst) as (d & s & -> & Hs & Hne).
      apply truthy_opt_true. eauto.
Qed.

Lemma isPureBarrelFile_has_exports sf :
  isPureBarrelFile sf = true → (0 < length (getExportDeclarations sf))%nat.
Proof.
  intros [Hlen Hall]%isPureBarrelFile_iff. unfold getStatements in *.
  destruct (sf_statements sf) as [|st sts] eqn:E; [simpl in Hlen; lia|].
  apply Forall_cons in Hall as [(d & s & -> & _) _].
  apply (getExportDeclarations_nonempty sf d). rewrite E. by left.
Qed.

Lemma purgePartition_filter sourceFiles :
  purgePartition sourceFiles
  = (filter (λ sf, isPureBarrelFile sf = true) sourceFiles,
     filter (λ sf, (0 < length (getExportDeclarations sf))%nat ∧ isPureBarrelFile sf = false)
            sourceFiles).
Proof.
  unfold purgePartition.
  enough (∀ l pure impure,
            foldl (λ '(pureBarrelFiles, impureBarrelFiles) sourceFile,
                     if decide (0 < length (getExportDeclarations sourceFile))%nat then
                       if isPureBarrelFile sourceFile
                       then ((pureBarrelFiles ++ [sourceFile])%list, impureBarrelFiles)
                       else (pureBarrelFiles, (impureBarrelFiles ++ [sourceFile])%list)
                     else (pureBarrelFiles, impureBarrelFiles))
                  (pure, impure) l
            = ((pure ++ filter (λ sf, isPureBarrelFile sf = true) l)%list,
               (impure ++ filter (λ sf, (0 < length (getExportDeclarations sf))%nat
                                        ∧ isPureBarrelFile sf = false) l)%list)) as H
    by apply (H sourceFiles [] []).
  induction l as [|sf l IH]; intros pure impure; simpl.
  - by rewrite !app_nil_r.
  - case_decide as Hex.
    + destruct (isPureBarrelFile sf) eqn:Hp; rewrite IH.
      * rewrite filter_cons_True by done.
        rewrite filter_cons_False by (intros [_ ?]; congruence).
        by rewrite <- app_assoc.
      * rewrite filter_cons_False by congruence.
        rewrite filter_cons_True by done.
        by rewrite <- app_assoc.
    + rewrite IH.
      rewrite filter_cons_False.
      2:{ intros Hp. apply isPureBarrelFile_has_exports in Hp. lia. }
      rewrite filter_cons_False by (intros [? _]; done). done.
Qed.

(** C8: [isPureBarrelFile] holds exactly when the file has a statement
    and each of its statements is an export declaration with a module
    specifier; a file without statements is not a pure barrel; and each
    scanned file is in exactly one of the three classes of [purgeBarrels]:
    listed as pure, listed as impure, or in neither list, which is the case
    of the files without export declarations. *)
Theorem isPureBarrelFile_partition (sourceFiles : list SourceFile) (sf : SourceFile) :
  sf ∈ sourceFiles →
  let pure := fst (purgePartition sourceFiles) in
  let impure := snd (purgePartition sourceFiles) in
  (isPureBarrelFile sf = true ↔
   (0 < length (getStatements sf))%nat ∧ Forall reExportStatement (getStatements sf))
  ∧ (getStatements sf = [] → isPureBarrelFile sf = false)
  ∧ (sf ∈ pure ↔ isPureBarrelFile sf = true)
  ∧ (sf ∈ impure ↔
     (0 < length (getExportDeclarations sf))%nat ∧ isPureBarrelFile sf = false)
  ∧ ((¬ sf ∈ pure ∧ ¬ sf ∈ impure) ↔ getExportDeclarations sf = [])
  ∧ ((sf ∈ pure ∧ ¬ sf ∈ impure) ∨ (¬ sf ∈ pure ∧ sf ∈ impure) ∨ (¬ sf ∈ pure ∧ ¬ sf ∈ impure)).
Proof.
  intros Hin pure impure.
  assert (sf ∈ pure ↔ isPureBarrelFile sf = true) as HP.
  { unfold pure. rewrite purgePartition_filter. simpl. rewrite list_elem_of_filter. tauto. }
  assert (sf ∈ impure ↔
          (0 < length (getExportDeclarations sf))%nat ∧ isPureBarrelFile sf = false) as HI.
  { unfold impure. rewrite purgePartition_filter. simpl. rewrite list_elem_of_filter. tauto. }
  split; [apply isPureBarrelFile_iff|].
  split.
  { intros Hnil. unfold isPureBarrelFile. by rewrite Hnil. }
  split; [exact HP|]. split; [exact HI|].
  rewrite HP, HI.
  pose proof (isPureBarrelFile_has_exports sf) as Hex.
  destruct (isPureBarrelFile sf) eqn:Hp.
  - specialize (Hex eq_refl). split.
    + split; [intros [Hn _]; by destruct Hn|].
      intros Hnil. rewrite Hnil in Hex. simpl in Hex. lia.
    + left. split; [done|]. intros [_ ?]. done.
  - clear Hex. destruct (getExportDeclarations sf) as [|d ds] eqn:Hd; simpl.
    + split.
      * split; [done|]. intros _. split; [done|]. intros [? _]. lia.
      * right; right. split; [done|]. intros [? _]. lia.
    + split.
      * split; [|done]. intros [_ Hni]. exfalso. apply Hni. split; [lia|done].
      * right; left. split; [done|]. split; [lia|done].
Qed.

Lemma isPureBarrelFile_partition_witness :
  impureBarrel ∈ [pureBarrel; impureBarrel; plainModule]
  ∧ (impureBarrel ∈ snd (purgePartition [pureBarrel; impureBarrel; plainModule]) ↔
     (0 < length (getExportDeclarations impureBarrel))%nat
     ∧ isPureBarrelFile impureBarrel = false).
Proof.
  split; [right; left|].
  apply (isPureBarrelFile_partition [pureBarrel; impureBarrel; plainModule] impureBarrel).
  right; left.
Defined.

(** The fixture of the README: the pure barrel is deleted, the impure one
    is kept with a warning, the plain module is not mentioned. *)
Example purgeBarrels_fixture :
  purgePartition [pureBarrel; impureBarrel; plainModule] = ([pureBarrel], [impureBarrel])
  ∧ purgeBarrels [pureBarrel; impureBarrel; plainModule] false
    = {| po_deleted := ["/p/modules/nested/index.ts"];
         po_warned := ["/p/modules/impure-barrel/index.ts"] |}.
Proof. split; vm_compute; reflexivity. Qed.

(** The test of the program is [!!stmt.getModuleSpecifierValue()]: the
    empty specifier of [export * from ''] counts as no specifier. *)
Example isPureBarrelFile_empty_specifier :
  isPureBarrelFile {| sf_filePath := "/p/index.ts";
                      sf_statements := [exportStarFrom ""];
                      sf_exportedDeclarations := [];
                      sf_defaultExportDeclarations := None |} = false.
Proof. reflexivity. Qed.

(** ** C9: a missing tsconfig.json *)

(** Without the file, [runBarrelBreaker] does not return: whatever the
    [Project] constructor does, [fs.readFileSync] throws. *)
Lemma runBarrelBreaker_needs_tsconfig host pf inputPath isDryRun tsconfigPath :
  textFiles pf !! tsconfigPath = None →
  ∀ outcomes, runBarrelBreaker host pf inputPath isDryRun tsconfigPath ≠ Return outcomes.
Proof.
  intros Hnone outcomes. unfold runBarrelBreaker, readFileSync. rewrite Hnone.
  by destruct (newProject pf (Some tsconfigPath)).
Qed.

(** C9 fails on [src/lib/barrelBreaker.js]: with no tsconfig.json on disk
    the run ends in the exception of [fs.readFileSync], no warning is
    printed and no file is processed. *)
Lemma runBarrelBreaker_throws_without_tsconfig :
  runBarrelBreaker Fixture.host noTsconfig "/p" false "/p/tsconfig.json"
  = Throw "ENOENT: no such file or directory".
Proof. reflexivity. Qed.

(** The later revision of the entry point checks [fs.existsSync] first:
    it warns and goes on with an empty table. *)
Lemma loadConfigurationGuarded_without_tsconfig pf tsconfigPath files :
  textFiles pf !! tsconfigPath = None →
  newProject pf None = Return files →
  loadConfigurationGuarded pf tsconfigPath
  = Return (["Warning: tsconfig.json not found"; "Warning: tsconfig.json not found"],
            [], files).
Proof.
  intros Hnone Hproject. unfold loadConfigurationGuarded. rewrite Hnone.
  cbv beta iota delta [mbind Result_bind mret Result_ret]. by rewrite Hproject.
Qed.

(** ** C5: what counts as a barrel *)

Lemma isBarrel_iff sf : isBarrel sf = true ↔ ∃ d, ExportStmt d ∈ sf_statements sf.
Proof.
  unfold isBarrel. rewrite bool_decide_eq_true. split.
  - intros Hlen. unfold getExportDeclarations in Hlen.
    destruct (omap _ (sf_statements sf)) as [|d ds] eqn:E; [simpl in Hlen; lia|].
    assert (d ∈ omap (λ st, match st with ExportStmt d => Some d | _ => None end)
                     (sf_statements sf)) as Hd by (rewrite E; by left).
    apply list_elem_of_omap in Hd as (st & Hst & Hsome).
    destruct st; simplify_eq. eauto.
  - intros [d Hd]. by eapply getExportDeclarations_nonempty.
Qed.

(** C5 fails on the tree of [PlainExport]: the target has one export
    declaration, [export { x }], which has no module specifier; it is taken
    for a barrel and the import is rewritten. *)
Lemma isBarrel_without_module_specifier :
  importTarget PlainExport.host PlainExport.files PlainExport.app "./modules"
  = Some PlainExport.modulesIndex
  ∧ Forall (λ d, ed_moduleSpecifierValue d = None)
           (getExportDeclarations PlainExport.modulesIndex)
  ∧ isBarrel PlainExport.modulesIndex = true
  ∧ rewriteImportsInFile PlainExport.host PlainExport.files PlainExport.app [] [] false
    = Return {| ro_sourceFile := PlainExport.app1; ro_changed := true; ro_saved := true |}.
Proof.
  split; [vm_compute; reflexivity|]. split; [repeat constructor|].
  split; vm_compute; reflexivity.
Qed.

(** ** C4: running the rewrite twice *)

(** C4 fails on the chain of [Chain]: the first run turns the import of
    [U] into [import { x } from './C'], and the second run, on that output,
    turns it into [import { x } from './D']. *)
Lemma rewriteImportsInFile_second_run_changes :
  rewriteImportsInFile Chain.host Chain.files Chain.U [] [] false
  = Return {| ro_sourceFile := Chain.U1; ro_changed := true; ro_saved := true |}
  ∧ rewriteImportsInFile Chain.host1 Chain.files1 Chain.U1 [] [] false
    = Return {| ro_sourceFile := Chain.U2; ro_changed := true; ro_saved := true |}.
Proof. split; vm_compute; reflexivity. Qed.

(** On the example of the spec the second run changes nothing. *)
Example fixture_second_run :
  rewriteImportsInFile Fixture.host Fixture.files Fixture.importExample [] [] false
  = Return {| ro_sourceFile := Fixture.importExample1; ro_changed := true; ro_saved := true |}
  ∧ rewriteImportsInFile Fixture.host1 Fixture.files1 Fixture.importExample1 [] [] false
    = Return {| ro_sourceFile := Fixture.importExample1;
                ro_changed := false; ro_saved := false |}.
Proof. split; vm_compute; reflexivity. Qed.

(** ** The plain object [importGroups] *)

Lemma Object_entries_nil {V : Type} : Object_entries (@nil (string * V)) = [].
Proof. reflexivity. Qed.

Lemma Object_entries_Permutation {V : Type} (object : list (string * V)) :
  Object_entries object ≡ₚ object.
Proof.
  unfold Object_entries. rewrite merge_sort_Permutation.
  assert (filter (λ entry : string * V, arrayIndex entry.1 = None) object
          = filter (λ entry : string * V, ¬ is_Some (arrayIndex entry.1)) object) as ->.
  { apply list_filter_iff. intros entry.
    destruct (arrayIndex entry.1) as [n|]; split; intros H; try done.
    all: try (destruct H; by eauto); try (by intros [? ?]). }
  apply filter_app_complement.
Qed.

Lemma elem_of_Object_entries {V : Type} (object : list (string * V)) entry :
  entry ∈ Object_entries object ↔ entry ∈ object.
Proof. by rewrite Object_entries_Permutation. Qed.

Lemma Object_entries_no_index {V : Type} (object : list (string * V)) :
  Forall (λ entry, arrayIndex entry.1 = None) object → Object_entries object = object.
Proof.
  intros Hall. unfold Object_entries.
  assert (filter (λ entry : string * V, is_Some (arrayIndex entry.1)) object = []) as ->.
  { induction Hall as [|entry object He _ IH]; [done|].
    rewrite filter_cons_False; [done|]. rewrite He. by intros [? ?]. }
  assert (filter (λ entry : string * V, arrayIndex entry.1 = None) object = object) as ->.
  { induction Hall as [|entry object He _ IH]; [done|].
    rewrite filter_cons_True by done. by rewrite IH. }
  reflexivity.
Qed.

Lemma Object_entries_singleton {V : Type} (k : string) (v : V) :
  Object_entries [(k, v)] = [(k, v)].
Proof.
  unfold Object_entries. destruct (arrayIndex k) as [n|] eqn:E.
  - rewrite filter_cons_True by (simpl; rewrite E; eauto).
    rewrite filter_cons_False by (simpl; rewrite E; done). reflexivity.
  - rewrite filter_cons_False by (simpl; rewrite E; by intros [? ?]).
    rewrite filter_cons_True by done. reflexivity.
Qed.

(** [Object.entries] lists the keys that are array indices first, in
    ascending order, then the others in the order of their creation. *)
Example Object_entries_index_keys :
  Object_entries [("./b", 1); ("10", 2); ("9", 3); ("01", 4); ("./a", 5)]
  = [("9", 3); ("10", 2); ("./b", 1); ("01", 4); ("./a", 5)].
Proof. vm_compute. reflexivity. Qed.

(** A default import under [__proto__] is stored on [Object.prototype]:
    no group is created, and a later rewritten import under the specifier
    [default] finds the string there. *)
Example mergeRewrittenImport_on_prototype :
  forEachR mergeRewrittenImport
    [ {| ri_specifier := "__proto__"; ri_named := []; ri_defaultImport := Some "d" |} ]
    (None, [])
  = Return (Some "d", [])
  ∧ forEachR mergeRewrittenImport
      [ {| ri_specifier := "__proto__"; ri_named := []; ri_defaultImport := Some "d" |};
        {| ri_specifier := "default"; ri_named := [("a", "a")]; ri_defaultImport := None |} ]
      (None, [])
    = Throw "TypeError: Cannot read properties of undefined (reading 'set')"
  ∧ forEachR mergeRewrittenImport
      [ {| ri_specifier := "default"; ri_named := [("a", "a")]; ri_defaultImport := None |} ]
      (None, [])
    = Return (None, [("default", {| ig_named := [("a", "a")]; ig_default := None |})]).
Proof. repeat split; vm_compute; reflexivity. Qed.

(** Under a key that [Object.prototype] does not hand down the object
    behaves as a map. *)
Lemma mergeGroup_own specifier named defaultImport prototypeDefault importGroups :
  specifier ∉ objectPrototypeKeys →
  prototypeDefault = None ∨ specifier ≠ "default" →
  mergeGroup specifier named defaultImport (prototypeDefault, importGroups)
  = Return (prototypeDefault, mergeOwn specifier named defaultImport importGroups).
Proof.
  intros Hk Hd. unfold mergeGroup, getMember.
  destruct (alist_get specifier importGroups); [done|].
  rewrite decide_False by done. case_decide; [|done].
  destruct Hd as [->|?]; done.
Qed.

(** Whatever the key, a call that returns has left the groups as they
    were or has merged into a group of the object's own. *)
Lemma mergeGroup_returns specifier named defaultImport st prototypeDefault' importGroups' :
  mergeGroup specifier named defaultImport st = Return (prototypeDefault', importGroups') →
  importGroups' = st.2 ∨ importGroups' = mergeOwn specifier named defaultImport st.2.
Proof.
  destruct st as [prototypeDefault importGroups]. unfold mergeGroup. intros H.
  destruct (getMember prototypeDefault importGroups specifier) as [g| |value|];
    simplify_eq; [by right| | |by right].
  - case_decide; simplify_eq. by left.
  - destruct (Js.truthy value); simplify_eq; [|by right].
    destruct (Js.truthy_opt defaultImport); [done|]. case_decide; simplify_eq. by left.
Qed.

Lemma mergeRewrittenImport_own r importGroups :
  ri_specifier r ∉ objectPrototypeKeys →
  mergeRewrittenImport (None, importGroups) r = Return (None, mergeIntoMap importGroups r).
Proof. intros Hr. unfold mergeRewrittenImport. rewrite mergeGroup_own; [done|done|by left]. Qed.

Lemma mergeRewrittenImports_own (rs : list RewrittenImport) :
  ∀ importGroups,
    (∀ r, r ∈ rs → ri_specifier r ∉ objectPrototypeKeys) →
    forEachR mergeRewrittenImport rs (None, importGroups)
    = Return (None, foldl mergeIntoMap importGroups rs).
Proof.
  induction rs as [|r rs IH]; intros importGroups Hrs; [done|].
  cbn [forEachR foldl]. rewrite mergeRewrittenImport_own by (apply Hrs; by left).
  cbv beta iota delta [mbind Result_bind]. apply IH. intros r' Hr'. apply Hrs. by right.
Qed.

(** ** When a run changes nothing *)
Section Settled.

Context (host : Host) (files : list SourceFile).

Lemma removeStatements_nil stmts : removeStatements [] stmts = stmts.
Proof.
  unfold removeStatements.
  enough (∀ (f : nat → nat),
            omap (λ '(i, st), if decide (i ∈ []) then None else Some st)
                 (imap (λ i, pair (f i)) stmts) = stmts) as H by apply (H id).
  induction stmts as [|st stmts IH]; intros f; [done|].
  simpl. destruct (decide (f 0 ∈ [])) as [Hin|_]; [by apply elem_of_nil in Hin|].
  f_equal. apply (IH (f ∘ S)).
Qed.

Lemma processNamedImports_settled declarations sourceFile moduleSpecifier reExportMap paths l :
  (∀ namedImport resolvedFile,
     namedImport ∈ l →
     alist_get (is_name namedImport) (sf_exportedDeclarations declarations) ≫= head
     = Some resolvedFile →
     resolvedSpecifier host paths sourceFile resolvedFile = Return moduleSpecifier) →
  ∀ st, ps_changed st = false →
    ∃ st', forEachR (processNamedImport host declarations sourceFile moduleSpecifier
                       reExportMap paths) l st = Return st'
           ∧ ps_changed st' = false.
Proof.
  induction l as [|ni l IH]; intros Hl st Hst; simpl; [eauto|].
  assert (∃ st1, processNamedImport host declarations sourceFile moduleSpecifier reExportMap
                   paths st ni = Return st1 ∧ ps_changed st1 = false) as (st1 & -> & Hst1).
  { unfold processNamedImport.
    destruct (alist_get (is_name ni) (sf_exportedDeclarations declarations) ≫= head)
      as [resolvedFile|] eqn:E; [|eauto].
    rewrite (Hl ni resolvedFile) by (done || by left).
    cbv beta iota delta [mbind Result_bind mret Result_ret].
    rewrite decide_False by (intros Hne; by apply Hne). eauto. }
  cbv beta iota delta [mbind Result_bind].
  apply IH; [|done]. intros ni' f Hin. apply Hl. by right.
Qed.

Lemma rewriteImport_settled sourceFile aliasPrefixes paths st imp :
  settledImport host files sourceFile aliasPrefixes paths imp.2 →
  rewriteImport host files sourceFile aliasPrefixes paths st imp = Return st.
Proof.
  unfold settledImport, rewriteImport. intros [Hloc|[Htarget|(declarations & Htarget & H)]].
  - by rewrite Hloc.
  - destruct (negb _); [done|]. by rewrite Htarget.
  - destruct (negb (isLocalImport _ _)); [done|]. rewrite Htarget.
    destruct H as [Hb|[Hdefault Hnamed]]; [by rewrite Hb|].
    destruct (negb (isBarrel declarations)); [done|].
    destruct (getReExportMap_returns host files declarations) as [reExportMap ->].
    unfold processImportDeclaration, processBindings.
    assert (∃ st0, processDefaultImport host imp.2 declarations sourceFile
                     (id_moduleSpecifierValue imp.2) paths = Return st0
                   ∧ ps_changed st0 = false) as (st0 & -> & Hst0).
    { unfold processDefaultImport.
      destruct (Js.truthy_opt (id_defaultImport imp.2)) eqn:Ht; [|eauto].
      destruct (sf_defaultExportDeclarations declarations ≫= head) as [f|] eqn:Ef; [|eauto].
      rewrite (Hdefault eq_refl f eq_refl).
      cbv beta iota delta [mbind Result_bind mret Result_ret].
      rewrite decide_False by (intros Hne; by apply Hne). eauto. }
    cbv beta iota delta [mbind Result_bind].
    destruct (processNamedImports_settled declarations sourceFile
                (id_moduleSpecifierValue imp.2) reExportMap paths (id_namedImports imp.2)
                Hnamed st0 Hst0) as (st1 & -> & Hst1).
    cbv beta iota delta [mbind Result_bind mret Result_ret]. rewrite Hst1.
    simpl. by destruct st.
Qed.

(** A file all of whose import declarations are settled is left as it is,
    and is not saved. *)
Lemma rewriteImportsInFileFrom_returned
    prototypeDefault sourceFile aliasPrefixes paths isDryRun outcome prototypeDefault' :
  rewriteImportsInFileFrom host files prototypeDefault sourceFile aliasPrefixes paths isDryRun
  = Return (outcome, prototypeDefault') →
  ∃ st,
    forEachR (rewriteImport host files sourceFile aliasPrefixes paths)
             (getImportDeclarations sourceFile)
             {| fs_statements := sf_statements sourceFile;
                fs_importGroups := [];
                fs_importsToRemove := [];
                fs_changed := false;
                fs_prototypeDefault := prototypeDefault |} = Return st
    ∧ outcome
      = {| ro_sourceFile :=
             {| sf_filePath := sf_filePath sourceFile;
                sf_statements :=
                  foldl (λ acc entry, addImportDeclaration (groupImport entry) acc)
                        (removeStatements (fs_importsToRemove st) (fs_statements st))
                        (Object_entries (fs_importGroups st));
                sf_exportedDeclarations := sf_exportedDeclarations sourceFile;
                sf_defaultExportDeclarations := sf_defaultExportDeclarations sourceFile |};
           ro_changed := fs_changed st;
           ro_saved := fs_changed st && negb isDryRun |}
    ∧ prototypeDefault' = fs_prototypeDefault st.
Proof.
  unfold rewriteImportsInFileFrom. intros H.
  destruct (forEachR _ (getImportDeclarations sourceFile) _) as [st| |]; result_inv.
  by exists st.
Qed.

Lemma rewriteImportsInFile_returned sourceFile aliasPrefixes paths isDryRun outcome :
  rewriteImportsInFile host files sourceFile aliasPrefixes paths isDryRun = Return outcome →
  ∃ st,
    forEachR (rewriteImport host files sourceFile aliasPrefixes paths)
             (getImportDeclarations sourceFile)
             {| fs_statements := sf_statements sourceFile;
                fs_importGroups := [];
                fs_importsToRemove := [];
                fs_changed := false;
                fs_prototypeDefault := None |} = Return st
    ∧ outcome
      = {| ro_sourceFile :=
             {| sf_filePath := sf_filePath sourceFile;
                sf_statements :=
                  foldl (λ acc entry, addImportDeclaration (groupImport entry) acc)
                        (removeStatements (fs_importsToRemove st) (fs_statements st))
                        (Object_entries (fs_importGroups st));
                sf_exportedDeclarations := sf_exportedDeclarations sourceFile;
                sf_defaultExportDeclarations := sf_defaultExportDeclarations sourceFile |};
           ro_changed := fs_changed st;
           ro_saved := fs_changed st && negb isDryRun |}.
Proof.
  unfold rewriteImportsInFile. intros H.
  destruct (rewriteImportsInFileFrom host files None sourceFile aliasPrefixes paths isDryRun)
    as [[outcome' prototypeDefault']| |] eqn:E; result_inv.
  destruct (rewriteImportsInFileFrom_returned _ _ _ _ _ _ _ E) as (st & Hloop & -> & _).
  by exists st.
Qed.

Lemma rewriteImportsInFileFrom_settled prototypeDefault sourceFile aliasPrefixes paths isDryRun :
  (∀ imp, imp ∈ getImportDeclarations sourceFile →
          settledImport host files sourceFile aliasPrefixes paths imp.2) →
  rewriteImportsInFileFrom host files prototypeDefault sourceFile aliasPrefixes paths isDryRun
  = Return ({| ro_sourceFile := sourceFile; ro_changed := false; ro_saved := false |},
            prototypeDefault).
Proof.
  intros Hall. unfold rewriteImportsInFileFrom.
  assert (∀ l st, (∀ imp, imp ∈ l →
                          settledImport host files sourceFile aliasPrefixes paths imp.2) →
                  forEachR (rewriteImport host files sourceFile aliasPrefixes paths) l st
                  = Return st) as Hloop.
  { induction l as [|imp l IH]; intros st Hl; simpl; [done|].
    rewrite rewriteImport_settled by (apply Hl; by left).
    cbv beta iota delta [mbind Result_bind]. apply IH. intros imp' Hin. apply Hl. by right. }
  rewrite Hloop by done.
  cbv beta iota delta [mbind Result_bind mret Result_ret]. simpl.
  rewrite removeStatements_nil. by destruct sourceFile.
Qed.

Lemma rewriteImportsInFile_settled sourceFile aliasPrefixes paths isDryRun :
  (∀ imp, imp ∈ getImportDeclarations sourceFile →
          settledImport host files sourceFile aliasPrefixes paths imp.2) →
  rewriteImportsInFile host files sourceFile aliasPrefixes paths isDryRun
  = Return {| ro_sourceFile := sourceFile; ro_changed := false; ro_saved := false |}.
Proof.
  intros Hall. unfold rewriteImportsInFile.
  by rewrite rewriteImportsInFileFrom_settled.
Qed.

End Settled.

(** ** The rewrite of one declaration returns *)
Section Returns.

Context (host : Host) (files : list SourceFile).

Lemma processImportDeclaration_returns
    importDecl declarations sourceFile moduleSpecifier reExportMap paths stmts :
  pathsWellFormed paths →
  ∃ r, processImportDeclaration host importDecl declarations sourceFile moduleSpecifier
         reExportMap paths stmts = Return r.
Proof.
  intros Hwf. unfold processImportDeclaration.
  destruct (processBindings_returns host importDecl declarations sourceFile moduleSpecifier
              reExportMap paths Hwf) as [st ->].
  cbv beta iota delta [mbind Result_bind mret Result_ret].
  destruct (ps_changed st); eauto.
Qed.

End Returns.

(** ** The merge per target specifier *)

Lemma alist_get_None {V : Type} k (l : list (string * V)) : alist_get k l = None ↔ k ∉ l.*1.
Proof.
  induction l as [|[k' v'] l IH]; simpl.
  - split; [intros _; apply not_elem_of_nil|done].
  - destruct (decide (k' = k)) as [->|Hne].
    + split; [done|]. intros Hk. exfalso. apply Hk. by left.
    + rewrite IH. rewrite not_elem_of_cons. naive_solver.
Qed.

Lemma alist_get_Some_key {V : Type} k (v : V) l : alist_get k l = Some v → k ∈ l.*1.
Proof.
  intros H%alist_get_elem_of. apply list_elem_of_fmap. by exists (k, v).
Qed.

Lemma alist_get_of_elem {V : Type} k (v : V) l : NoDup l.*1 → (k, v) ∈ l → alist_get k l = Some v.
Proof.
  induction l as [|[k' v'] l IH]; simpl; intros Hnd Hin; [by apply elem_of_nil in Hin|].
  apply NoDup_cons in Hnd as [Hk' Hnd].
  apply elem_of_cons in Hin as [[= -> ->]|Hin].
  - by rewrite decide_True.
  - rewrite decide_False; [by apply IH|].
    intros ->. apply Hk'. apply list_elem_of_fmap. by exists (k, v).
Qed.

Lemma alist_set_keys {V : Type} k (v : V) l :
  (alist_set k v l).*1 = if decide (k ∈ l.*1) then l.*1 else (l.*1 ++ [k])%list.
Proof.
  induction l as [|[k' v'] l IH].
  - cbn [alist_set fmap list_fmap fst]. case_decide as H; [by apply elem_of_nil in H|done].
  - cbn [alist_set]. destruct (decide (k' = k)) as [->|Hne].
    + cbn [fmap list_fmap fst]. rewrite decide_True; [done|by left].
    + rewrite fmap_cons, IH, fmap_cons. cbn [fst].
      destruct (decide (k ∈ l.*1)) as [Hin|Hnin].
      * rewrite decide_True; [done|by right].
      * rewrite decide_False; [done|]. rewrite not_elem_of_cons. naive_solver.
Qed.

Lemma alist_set_NoDup {V : Type} k (v : V) l : NoDup l.*1 → NoDup (alist_set k v l).*1.
Proof.
  intros Hnd. rewrite alist_set_keys. case_decide as Hk; [done|].
  apply NoDup_app. split; [done|]. split; [|apply NoDup_singleton].
  intros x Hx Hx'%list_elem_of_singleton. by subst.
Qed.

Lemma alist_set_key_iff {V : Type} k (v : V) l k' :
  k' ∈ (alist_set k v l).*1 ↔ k' = k ∨ k' ∈ l.*1.
Proof.
  rewrite alist_set_keys. case_decide as Hk.
  - naive_solver.
  - rewrite elem_of_app, list_elem_of_singleton. naive_solver.
Qed.

Lemma omap_all_None {A B : Type} (f : A → option B) l :
  (∀ x, x ∈ l → f x = None) → omap f l = [].
Proof.
  induction l as [|x l IH]; intros H; simpl; [done|].
  rewrite (H x) by (by left). apply IH. intros y Hy. apply H. by right.
Qed.

(** The [named] map after the writes of one rewritten import. *)
Lemma foldl_alist_set_NoDup (entries : list (string * string)) :
  ∀ m, NoDup m.*1 → NoDup (foldl (λ m entry, alist_set entry.1 entry.2 m) m entries).*1.
Proof.
  induction entries as [|e es IH]; intros m Hnd; simpl; [done|].
  by apply IH, alist_set_NoDup.
Qed.

Lemma foldl_alist_set_lookup (entries : list (string * string)) name :
  ∀ m, alist_get name (foldl (λ m entry, alist_set entry.1 entry.2 m) m entries)
       = match last (omap (λ entry : string * string,
                             if decide (entry.1 = name) then Some entry.2 else None)
                          entries) with
         | Some alias => Some alias
         | None => alist_get name m
         end.
Proof.
  induction entries as [|[n a] es IH]; intros m; simpl; [done|].
  rewrite IH. destruct (decide (n = name)) as [->|Hne]; simpl.
  - rewrite last_cons, alist_get_set_eq. by destruct (last _).
  - by rewrite alist_get_set_ne.
Qed.

Lemma namedWrites_snoc rs r :
  namedWrites (rs ++ [r])
  = (namedWrites rs
     ++ ((λ entry : string * string, (ri_specifier r, entry.1, entry.2)) <$> ri_named r))%list.
Proof.
  unfold namedWrites. rewrite bind_app. f_equal. simpl. by rewrite app_nil_r.
Qed.

Lemma omap_writes_of specifier name (es : list (string * string)) :
  omap (λ w : string * string * string,
          if decide (w.1.1 = specifier ∧ w.1.2 = name) then Some w.2 else None)
       ((λ entry : string * string, (specifier, entry.1, entry.2)) <$> es)
  = omap (λ entry : string * string, if decide (entry.1 = name) then Some entry.2 else None)
         es.
Proof.
  induction es as [|[n a] es IH]; [done|].
  simpl. destruct (decide (n = name)) as [->|Hne].
  - rewrite decide_True by done. f_equal. exact IH.
  - rewrite decide_False by naive_solver. exact IH.
Qed.

Lemma lastAlias_snoc specifier name rs r :
  lastAlias specifier name (rs ++ [r])
  = if decide (ri_specifier r = specifier) then
      match last (omap (λ entry : string * string,
                          if decide (entry.1 = name) then Some entry.2 else None)
                       (ri_named r)) with
      | Some alias => Some alias
      | None => lastAlias specifier name rs
      end
    else lastAlias specifier name rs.
Proof.
  unfold lastAlias. rewrite namedWrites_snoc, omap_app, last_app.
  case_decide as Hs.
  - by rewrite Hs, omap_writes_of.
  - rewrite omap_all_None; [done|].
    intros w (entry & -> & _)%list_elem_of_fmap. simpl.
    rewrite decide_False; [done|]. naive_solver.
Qed.

Lemma lastDefault_snoc specifier rs r :
  lastDefault specifier (rs ++ [r])
  = if decide (ri_specifier r = specifier) then
      if Js.truthy_opt (ri_defaultImport r) then ri_defaultImport r
      else lastDefault specifier rs
    else lastDefault specifier rs.
Proof.
  unfold lastDefault. rewrite omap_app, last_app. simpl.
  case_decide as Hs; [|done].
  destruct (ri_defaultImport r) as [d|] eqn:Hd; simpl; [|done].
  by destruct (Js.truthy d).
Qed.

Lemma lastAlias_no_write specifier name rs :
  (∀ r, r ∈ rs → ri_specifier r ≠ specifier) → lastAlias specifier name rs = None.
Proof.
  intros H. unfold lastAlias. rewrite omap_all_None; [done|].
  intros w Hw. unfold namedWrites in Hw.
  apply list_elem_of_bind in Hw as (r & Hw & Hr).
  apply list_elem_of_fmap in Hw as (entry & -> & _). simpl.
  rewrite decide_False; [done|]. intros [? _]. by eapply H.
Qed.

Lemma lastDefault_no_write specifier rs :
  (∀ r, r ∈ rs → ri_specifier r ≠ specifier) → lastDefault specifier rs = None.
Proof.
  intros H. unfold lastDefault. rewrite omap_all_None; [done|].
  intros r Hr. rewrite decide_False; [done|]. by apply H.
Qed.

(** The groups after the merge of a list of rewritten imports: one group
    per specifier, in which each written name has the alias of its last
    write and the default slot holds the last default import. *)
Lemma mergeIntoMap_groups (rs : list RewrittenImport) :
  NoDup (foldl mergeIntoMap [] rs).*1
  ∧ (∀ specifier, specifier ∈ (foldl mergeIntoMap [] rs).*1 ↔
                  ∃ r, r ∈ rs ∧ ri_specifier r = specifier)
  ∧ ∀ specifier group,
      alist_get specifier (foldl mergeIntoMap [] rs) = Some group →
      NoDup (ig_named group).*1
      ∧ (∀ name, alist_get name (ig_named group) = lastAlias specifier name rs)
      ∧ ig_default group = lastDefault specifier rs.
Proof.
  induction rs as [|r rs (IHnd & IHkeys & IHget)] using rev_ind.
  - simpl. split; [apply NoDup_nil_2|]. split; [|done].
    intros s. split; [by intros ?%elem_of_nil|]. by intros (r & ?%elem_of_nil & _).
  - rewrite foldl_app. simpl. set (G := foldl mergeIntoMap [] rs) in *.
    unfold mergeIntoMap, mergeOwn. split; [by apply alist_set_NoDup|]. split.
    + intros s. rewrite alist_set_key_iff, IHkeys. split.
      * intros [ -> | (r' & Hr' & Hs) ]; [exists r|exists r']; split; try done; set_solver.
      * intros (r' & [Hr' | ->%list_elem_of_singleton]%elem_of_app & Hs); [right|left]; eauto.
    + intros s g Hg. destruct (decide (ri_specifier r = s)) as [<-|Hne].
      * rewrite alist_get_set_eq in Hg. simplify_eq. simpl.
        rewrite lastDefault_snoc, decide_True by done.
        split; [|split].
        -- apply foldl_alist_set_NoDup. destruct (alist_get (ri_specifier r) G) as [g0|] eqn:E.
           ++ by apply (IHget _ _ E).
           ++ apply NoDup_nil_2.
        -- intros name. rewrite foldl_alist_set_lookup, lastAlias_snoc, decide_True by done.
           destruct (last _); [done|].
           destruct (alist_get (ri_specifier r) G) as [g0|] eqn:E.
           ++ by apply (IHget _ _ E).
           ++ simpl. symmetry. apply lastAlias_no_write. intros r' Hr' Hs.
              apply alist_get_None in E. apply E, IHkeys. eauto.
        -- destruct (Js.truthy_opt (ri_defaultImport r)); [done|].
           destruct (alist_get (ri_specifier r) G) as [g0|] eqn:E.
           ++ by apply (IHget _ _ E).
           ++ simpl. symmetry. apply lastDefault_no_write. intros r' Hr' Hs.
              apply alist_get_None in E. apply E, IHkeys. eauto.
      * rewrite alist_get_set_ne in Hg by done.
        destruct (IHget _ _ Hg) as (H1 & H2 & H3).
        split; [done|]. split.
        -- intros name. by rewrite lastAlias_snoc, decide_False.
        -- by rewrite lastDefault_snoc, decide_False.
Qed.

Lemma insertAfterLastImport_Permutation d stmts stmts' :
  insertAfterLastImport d stmts = Some stmts' → stmts' ≡ₚ ImportStmt d :: stmts.
Proof.
  revert stmts'. induction stmts as [|st rest IH]; intros stmts' H; simpl in H; [done|].
  destruct (insertAfterLastImport d rest) as [rest'|].
  - simplify_eq. rewrite (IH rest' eq_refl). apply Permutation_swap.
  - destruct st; simplify_eq. apply Permutation_swap.
Qed.

(** [addImportDeclaration] adds the declaration and nothing else. *)
Lemma addImportDeclaration_Permutation d stmts :
  addImportDeclaration d stmts ≡ₚ ImportStmt d :: stmts.
Proof.
  unfold addImportDeclaration.
  destruct (insertAfterLastImport d stmts) as [stmts'|] eqn:E; [|done].
  by apply insertAfterLastImport_Permutation.
Qed.

Lemma addGroupImports_Permutation (groups : list (string * ImportGroup)) :
  ∀ stmts,
    foldl (λ acc entry, addImportDeclaration (groupImport entry) acc) stmts groups
    ≡ₚ ((λ entry, ImportStmt (groupImport entry)) <$> groups) ++ stmts.
Proof.
  induction groups as [|g groups IH]; intros stmts; simpl; [done|].
  rewrite IH, addImportDeclaration_Permutation. symmetry. apply Permutation_middle.
Qed.

Section MergePerSpecifier.

Context (host : Host) (files : list SourceFile).

Lemma rewriteImport_groups sourceFile aliasPrefixes paths st imp st1 :
  rewriteImport host files sourceFile aliasPrefixes paths st imp = Return st1 →
  ∃ rs, rewrittenImportsOf host files sourceFile aliasPrefixes paths imp = Return rs
        ∧ forEachR mergeRewrittenImport rs (fs_prototypeDefault st, fs_importGroups st)
          = Return (fs_prototypeDefault st1, fs_importGroups st1).
Proof.
  unfold rewriteImport, rewrittenImportsOf. intros H.
  destruct (negb (isLocalImport aliasPrefixes _)); [result_inv; by exists []|].
  destruct (importTarget host files sourceFile _) as [declarations|]; [|result_inv; by exists []].
  destruct (negb (isBarrel declarations)); [result_inv; by exists []|].
  destruct (getReExportMap host files declarations) as [reExportMap|]; [|done].
  unfold processImportDeclaration in *.
  destruct (processBindings host imp.2 declarations sourceFile _ reExportMap paths)
    as [sb| |]; [|done|done].
  cbv beta iota delta [mbind Result_bind mret Result_ret] in *.
  destruct (ps_changed sb); simpl in H; [|simplify_eq; by exists []].
  destruct (forEachR mergeRewrittenImport _ _) as [[pd groups]| |] eqn:Hmerge; simplify_eq.
  eexists. split; [done|]. exact Hmerge.
Qed.

Lemma rewriteImports_groups sourceFile aliasPrefixes paths imps :
  ∀ st st' acc,
    forEachR (rewriteImport host files sourceFile aliasPrefixes paths) imps st = Return st' →
    ∃ rs,
      forEachR (λ acc imp,
                  rs ← rewrittenImportsOf host files sourceFile aliasPrefixes paths imp;
                  mret (acc ++ rs)%list)
               imps acc = Return (acc ++ rs)%list
      ∧ forEachR mergeRewrittenImport rs (fs_prototypeDefault st, fs_importGroups st)
        = Return (fs_prototypeDefault st', fs_importGroups st').
Proof.
  induction imps as [|imp imps IH]; intros st st' acc H; simpl in *.
  - simplify_eq. exists []. by rewrite app_nil_r.
  - destruct (rewriteImport host files sourceFile aliasPrefixes paths st imp)
      as [st1| |] eqn:E; [|done|done].
    destruct (rewriteImport_groups _ _ _ _ _ _ E) as (rs1 & -> & Hg1).
    cbv beta iota delta [mbind Result_bind mret Result_ret] in *.
    destruct (IH st1 st' (acc ++ rs1)%list H) as (rs2 & -> & Hg2).
    exists (rs1 ++ rs2)%list. rewrite app_assoc. split; [done|].
    rewrite forEachR_app, Hg1. exact Hg2.
Qed.

(** The groups of a run whose specifiers are none of them handed down by
    [Object.prototype]: the merge of the rewritten imports of the file
    into a map. *)
Lemma rewriteImports_own_groups sourceFile aliasPrefixes paths st rs :
  forEachR (rewriteImport host files sourceFile aliasPrefixes paths)
           (getImportDeclarations sourceFile)
           {| fs_statements := sf_statements sourceFile;
              fs_importGroups := [];
              fs_importsToRemove := [];
              fs_changed := false;
              fs_prototypeDefault := None |} = Return st →
  allRewrittenImports host files sourceFile aliasPrefixes paths = Return rs →
  (∀ r, r ∈ rs → ri_specifier r ∉ objectPrototypeKeys) →
  fs_importGroups st = foldl mergeIntoMap [] rs ∧ fs_prototypeDefault st = None.
Proof.
  intros Hloop Hrs Hown.
  destruct (rewriteImports_groups _ _ _ _ _ _ [] Hloop) as (rs' & Hrs' & Hmerge).
  assert (rs' = rs) as ->.
  { unfold allRewrittenImports in Hrs. simpl in Hrs'. congruence. }
  cbn [fs_prototypeDefault fs_importGroups] in Hmerge.
  rewrite mergeRewrittenImports_own in Hmerge by done. by simplify_eq.
Qed.

(** X25: When [rewriteImportsInFile] returns and no specifier of a
    rewritten import is the name of a member of [Object.prototype], the
    groups it emits are the merge of the rewritten imports of all the import
    statements of the file, taken in order, and the file ends up with one
    added import statement per group beside the statements that were not
    removed.  There is one group per resolved specifier; in a group each
    written name occurs once, with the alias of the last write of that name
    to that specifier; the default import of the added statement is the
    last default import seen for the specifier, so the statement has at
    most one. *)
Theorem rewriteImportsInFile_merges_per_specifier
    sourceFile aliasPrefixes paths isDryRun outcome rs :
  rewriteImportsInFile host files sourceFile aliasPrefixes paths isDryRun = Return outcome →
  allRewrittenImports host files sourceFile aliasPrefixes paths = Return rs →
  (∀ r, r ∈ rs → ri_specifier r ∉ objectPrototypeKeys) →
  ∃ st,
    forEachR (rewriteImport host files sourceFile aliasPrefixes paths)
             (getImportDeclarations sourceFile)
             {| fs_statements := sf_statements sourceFile;
                fs_importGroups := [];
                fs_importsToRemove := [];
                fs_changed := false;
                fs_prototypeDefault := None |} = Return st
    ∧ fs_importGroups st = foldl mergeIntoMap [] rs
    ∧ sf_statements (ro_sourceFile outcome)
      ≡ₚ ((λ entry, ImportStmt (groupImport entry)) <$> fs_importGroups st)
          ++ removeStatements (fs_importsToRemove st) (fs_statements st)
    ∧ NoDup (fs_importGroups st).*1
    ∧ (∀ specifier, specifier ∈ (fs_importGroups st).*1 ↔
                    ∃ r, r ∈ rs ∧ ri_specifier r = specifier)
    ∧ ∀ specifier group,
        (specifier, group) ∈ fs_importGroups st →
        NoDup (ig_named group).*1
        ∧ (∀ name, alist_get name (ig_named group) = lastAlias specifier name rs)
        ∧ id_moduleSpecifierValue (groupImport (specifier, group)) = specifier
        ∧ id_defaultImport (groupImport (specifier, group)) = lastDefault specifier rs
        ∧ id_namedImports (groupImport (specifier, group))
          = (λ entry, {| is_name := entry.1;
                         is_alias := if decide (entry.1 = entry.2) then None
                                     else Some entry.2 |})
              <$> ig_named group.
Proof.
  intros H Hrs Hown.
  apply rewriteImportsInFile_returned in H as (st & Hloop & ->).
  destruct (rewriteImports_own_groups _ _ _ _ _ Hloop Hrs Hown) as [Hgroups _].
  destruct (mergeIntoMap_groups rs) as (Hnd & Hkeys & Hget).
  rewrite <- Hgroups in Hnd, Hkeys, Hget.
  exists st. split; [done|]. split; [done|]. split.
  { cbn [ro_sourceFile sf_statements].
    by rewrite addGroupImports_Permutation, Object_entries_Permutation. }
  split; [done|]. split; [done|].
  intros specifier group Hin.
  destruct (Hget specifier group (alist_get_of_elem _ _ _ Hnd Hin)) as (H1 & H2 & H3).
  split; [done|]. split; [done|]. split; [done|]. split; [exact H3|done].
Qed.

End MergePerSpecifier.

Lemma rewriteImportsInFile_merges_per_specifier_witness :
  ∃ st,
    forEachR (rewriteImport Fixture.host Fixture.files Fixture.importExample [] [])
             (getImportDeclarations Fixture.importExample)
             {| fs_statements := sf_statements Fixture.importExample;
                fs_importGroups := [];
                fs_importsToRemove := [];
                fs_changed := false;
                fs_prototypeDefault := None |} = Return st
    ∧ fs_importGroups st = foldl mergeIntoMap [] (pr_rewrittenImports rewrittenOfFixture)
    ∧ sf_statements Fixture.importExample1
      ≡ₚ ((λ entry, ImportStmt (groupImport entry)) <$> fs_importGroups st)
          ++ removeStatements (fs_importsToRemove st) (fs_statements st)
    ∧ NoDup (fs_importGroups st).*1
    ∧ (∀ specifier, specifier ∈ (fs_importGroups st).*1 ↔
                    ∃ r, r ∈ pr_rewrittenImports rewrittenOfFixture
                         ∧ ri_specifier r = specifier)
    ∧ ∀ specifier group,
        (specifier, group) ∈ fs_importGroups st →
        NoDup (ig_named group).*1
        ∧ (∀ name, alist_get name (ig_named group)
                   = lastAlias specifier name (pr_rewrittenImports rewrittenOfFixture))
        ∧ id_moduleSpecifierValue (groupImport (specifier, group)) = specifier
        ∧ id_defaultImport (groupImport (specifier, group))
          = lastDefault specifier (pr_rewrittenImports rewrittenOfFixture)
        ∧ id_namedImports (groupImport (specifier, group))
          = (λ entry, {| is_name := entry.1;
                         is_alias := if decide (entry.1 = entry.2) then None
                                     else Some entry.2 |})
              <$> ig_named group.
Proof.
  apply (rewriteImportsInFile_merges_per_specifier Fixture.host Fixture.files
           Fixture.importExample [] [] false
           {| ro_sourceFile := Fixture.importExample1;
              ro_changed := true; ro_saved := true |}
           (pr_rewrittenImports rewrittenOfFixture)).
  - vm_compute; reflexivity.
  - vm_compute; reflexivity.
  - intros r Hr. apply elem_of_cons in Hr as [->|Hr].
    { vm_compute. intros H. repeat (apply elem_of_cons in H as [H|H]; [discriminate H|]).
      by apply elem_of_nil in H. }
    apply list_elem_of_singleton in Hr as ->.
    vm_compute. intros H. repeat (apply elem_of_cons in H as [H|H]; [discriminate H|]).
    by apply elem_of_nil in H.
Defined.

(** Two import statements that reach the same module: the second alias of
    [x] wins, and the default import is kept beside it. *)
Example merge_last_writer_wins :
  forEachR mergeRewrittenImport
    [ {| ri_specifier := "./m"; ri_named := [("x", "a")]; ri_defaultImport := Some "d" |};
      {| ri_specifier := "./n"; ri_named := [("y", "y")]; ri_defaultImport := None |};
      {| ri_specifier := "./m"; ri_named := [("x", "b"); ("z", "z")];
         ri_defaultImport := None |} ]
    (None, [])
  = Return (None,
            [ ("./m", {| ig_named := [("x", "b"); ("z", "z")]; ig_default := Some "d" |});
              ("./n", {| ig_named := [("y", "y")]; ig_default := None |}) ]).
Proof. vm_compute. reflexivity. Qed.

(** ** C10: a specifier that names a member of [Object.prototype] *)

(** C10 fails on the tree of [Inherited]: the default import of [app.ts]
    is rewritten under the specifier [constructor], under which the plain
    object finds [Object]; no group is created, the import declaration is
    removed and no import statement is emitted for the binding, the run
    returning as if the file were rewritten.  The named binding of
    [named.ts], rewritten under the same specifier, makes the run throw. *)
Theorem rewriteImportsInFile_loses_import_under_inherited_key :
  allRewrittenImports Inherited.host Inherited.files Inherited.app
    (aliasPrefixesOf Inherited.paths) Inherited.paths
  = Return [{| ri_specifier := "constructor"; ri_named := [];
               ri_defaultImport := Some "lib" |}]
  ∧ rewriteImportsInFile Inherited.host Inherited.files Inherited.app
      (aliasPrefixesOf Inherited.paths) Inherited.paths false
    = Return {| ro_sourceFile := Inherited.app1; ro_changed := true; ro_saved := true |}
  ∧ getImportDeclarations Inherited.app1 = []
  ∧ allRewrittenImports Inherited.host Inherited.files Inherited.named
      (aliasPrefixesOf Inherited.paths) Inherited.paths
    = Return [{| ri_specifier := "constructor"; ri_named := [("helper", "helper")];
                 ri_defaultImport := None |}]
  ∧ rewriteImportsInFile Inherited.host Inherited.files Inherited.named
      (aliasPrefixesOf Inherited.paths) Inherited.paths false
    = Throw "TypeError: Cannot read properties of undefined (reading 'set')".
Proof. repeat split; vm_compute; reflexivity. Qed.

(** ** The cache of the later revision on a cycle *)

(** With the cache, the map of a module that is first visited inside a
    cycle is the partial one computed there: once the map of [A] is built,
    [B] answers with [b] alone, where the function without cache gives both
    names to each side. *)
Example cached_cycle_keeps_partial_map :
  ∃ seen cache,
    getReExportMapRecursiveCached Cycle.host Cycle.files (enoughFuel Cycle.files) Cycle.A ∅ ∅
    = Some ({[ "a" := {| localName := "a"; resolvedPath := "/p/A1.ts" |};
               "b" := {| localName := "b"; resolvedPath := "/p/B1.ts" |} ]}, seen, cache)
    ∧ getReExportMapRecursiveCached Cycle.host Cycle.files (enoughFuel Cycle.files)
        Cycle.B ∅ cache
      = Some ({[ "b" := {| localName := "b"; resolvedPath := "/p/B1.ts" |} ]}, ∅, cache).
Proof.
  eexists _, _. split; vm_compute; reflexivity.
Qed.

(** ** The order of the writes into the export map *)

Section ExportMapOrder.

Context (host : Host) (files : list SourceFile).

Lemma forEachM_app {A S : Type} (body : S → A → option S) l1 l2 s :
  forEachM body (l1 ++ l2) s
  = match forEachM body l1 s with Some s' => forEachM body l2 s' | None => None end.
Proof.
  revert s. induction l1 as [|x l1 IH]; intros s; simpl; [done|].
  destruct (body s x) as [s'|]; [apply IH|done].
Qed.

Lemma setNamedExports_last p specs1 spec specs2 (M : gmap string ReExport) :
  (∀ s, s ∈ specs2 → exportedNameOf s ≠ exportedNameOf spec) →
  setNamedExports p (specs1 ++ spec :: specs2) M !! exportedNameOf spec
  = Some {| localName := es_name spec; resolvedPath := p |}.
Proof.
  unfold setNamedExports. rewrite foldl_app. cbn [foldl].
  generalize (foldl (λ m s, <[exportedNameOf s := {| localName := es_name s; resolvedPath := p |}]> m)
                M specs1).
  intros M1 Hlater.
  assert (∀ (M2 : gmap string ReExport) e,
            M2 !! exportedNameOf spec = Some e →
            foldl (λ m s, <[exportedNameOf s := {| localName := es_name s; resolvedPath := p |}]> m)
              M2 specs2 !! exportedNameOf spec = Some e) as Hkeep.
  { induction specs2 as [|s specs2 IH]; intros M2 e He; simpl; [done|].
    apply IH.
    - intros s' Hs'. apply Hlater. by right.
    - rewrite lookup_insert_ne; [done|]. apply Hlater. by left. }
  apply Hkeep. by rewrite lookup_insert_eq.
Qed.

Lemma setNamedExports_other p specs (M : gmap string ReExport) k :
  (∀ s, s ∈ specs → exportedNameOf s ≠ k) →
  setNamedExports p specs M !! k = M !! k.
Proof.
  unfold setNamedExports. revert M.
  induction specs as [|s specs IH]; intros M Hs; simpl; [done|].
  rewrite IH by (intros s' Hs'; apply Hs; by right).
  rewrite lookup_insert_ne; [done|]. apply Hs. by left.
Qed.

(** X1: From a file of the project and an empty [seen], [getReExportMapRecursive]
    returns, and the paths it leaves in [seen] are the files reached from
    the start file through namespace re-exports ([export * from]), the
    start file included: no other file is visited. *)
Theorem getReExportMapRecursive_visits_reachable (sf : SourceFile) :
  canonical files sf →
  ∃ M seen',
    getReExportMapRecursive host files (enoughFuel files) sf ∅ = Some (M, seen')
    ∧ ∀ q, q ∈ seen' ↔ rtc (starEdge host files) (sf_filePath sf) q.
Proof.
  intros Hc.
  destruct (getReExportMapRecursive_returns host files (enoughFuel files) sf ∅
              (enoughFuel_enough files ∅)) as [[M S'] E].
  exists M, S'. split; [done|]. intros q. split.
  - intros Hq. destruct (getReExportMapRecursive_sound _ _ _ _ _ _ _ Hc E) as [Hs _].
    destruct (Hs q Hq) as [Hin|Hr]; [set_solver|done].
  - intros Hr. destruct (getReExportMapRecursive_complete _ _ _ _ _ _ _ Hc E) as (_ & Hp & Hex).
    by eapply rtc_starEdge_seen.
Qed.

Lemma exportStep_loop_keeps n sf k e ds :
  (∀ d' t', d' ∈ ds → exportTarget host files sf d' = Some t' →
     if ed_isNamespaceExport d'
     then ∀ e', ¬ provenance host files (sf_filePath t') k e'
     else ∀ s, s ∈ ed_namedExports d' → exportedNameOf s ≠ k) →
  ∀ (st r : gmap string ReExport * gset string),
    forEachM (exportStep host files (getReExportMapRecursive host files n) sf) ds st = Some r →
    st.1 !! k = Some e → r.1 !! k = Some e.
Proof.
  induction ds as [|d ds IH]; intros Hds [M S] r Hrun Hk; simpl in *; [by simplify_eq|].
  assert (∀ d' t', d' ∈ ds → exportTarget host files sf d' = Some t' →
     if ed_isNamespaceExport d'
     then ∀ e', ¬ provenance host files (sf_filePath t') k e'
     else ∀ s, s ∈ ed_namedExports d' → exportedNameOf s ≠ k) as Hds'.
  { intros d' t' Hd'. apply Hds. by right. }
  unfold exportStep at 1 in Hrun.
  destruct (exportTarget host files sf d) as [t|] eqn:Et; simpl in Hrun;
    [|by eapply (IH Hds' (M, S))].
  pose proof (Hds d t ltac:(by left) Et) as Hd.
  destruct (ed_isNamespaceExport d).
  - destruct (getReExportMapRecursive host files n t S) as [[M1 S1]|] eqn:Erec; [|done].
    eapply (IH Hds' (_, S1)); [exact Hrun|]. simpl.
    rewrite mergeEntries_lookup, lookup_union.
    destruct (M1 !! k) as [e1|] eqn:E1.
    + exfalso. apply (Hd e1).
      destruct (getReExportMapRecursive_sound host files n t S M1 S1
                  (exportTarget_canonical _ _ _ _ _ Et) Erec) as [_ Hs].
      by apply Hs.
    + by rewrite Hk.
  - eapply (IH Hds' (_, S)); [exact Hrun|]. simpl.
    by rewrite setNamedExports_other.
Qed.

(** X2: A name that a named re-export clause of the file exports gets the
    entry of that clause (the name before [as], the path of the target of
    its statement) when no later specifier of the statement, no later named
    re-export and nothing behind a later namespace re-export writes the
    same name: later writes replace earlier ones, earlier ones never win. *)
Theorem getReExportMap_last_clause_wins sf ds1 d ds2 t specs1 spec specs2 :
  getExportDeclarations sf = (ds1 ++ d :: ds2)%list →
  ed_isNamespaceExport d = false →
  exportTarget host files sf d = Some t →
  ed_namedExports d = (specs1 ++ spec :: specs2)%list →
  (∀ s, s ∈ specs2 → exportedNameOf s ≠ exportedNameOf spec) →
  (∀ d' t', d' ∈ ds2 → exportTarget host files sf d' = Some t' →
     if ed_isNamespaceExport d'
     then ∀ e, ¬ provenance host files (sf_filePath t') (exportedNameOf spec) e
     else ∀ s, s ∈ ed_namedExports d' → exportedNameOf s ≠ exportedNameOf spec) →
  ∃ M, getReExportMap host files sf = Some M
       ∧ M !! exportedNameOf spec
         = Some {| localName := es_name spec; resolvedPath := sf_filePath t |}.
Proof.
  intros Hds Hns Et Hspecs Hlater Hds2.
  destruct (getReExportMap_returns host files sf) as [M HM].
  exists M. split; [done|].
  unfold getReExportMap, enoughFuel in HM.
  remember (S (length files)) as n eqn:Hn. clear Hn.
  destruct (getReExportMapRecursive host files (S n) sf ∅) as [[M' S']|] eqn:E;
    [|done].
  simpl in HM. simplify_eq.
  cbn [getReExportMapRecursive] in E.
  rewrite decide_False in E by set_solver.
  rewrite Hds, forEachM_app in E.
  destruct (forEachM _ ds1 _) as [[M1 S1]|]; [|done].
  cbn [forEachM] in E. unfold exportStep at 1 in E. rewrite Et, Hns in E.
  eapply (exportStep_loop_keeps _ sf _ _ ds2 Hds2 _ (M, S') E).
  simpl. rewrite Hspecs. by apply setNamedExports_last.
Qed.

End ExportMapOrder.

Lemma getReExportMapRecursive_visits_reachable_witness :
  canonical Cycle.files Cycle.A
  ∧ ∃ M seen',
      getReExportMapRecursive Cycle.host Cycle.files (enoughFuel Cycle.files) Cycle.A ∅
      = Some (M, seen')
      ∧ ∀ q, q ∈ seen' ↔ rtc (starEdge Cycle.host Cycle.files) "/p/A.ts" q.
Proof.
  split; [reflexivity|].
  apply (getReExportMapRecursive_visits_reachable Cycle.host Cycle.files Cycle.A). reflexivity.
Defined.

Lemma getReExportMap_last_clause_wins_witness :
  ∃ M, getReExportMap Fixture.host Fixture.files Fixture.modulesIndex = Some M
       ∧ M !! "named"
         = Some {| localName := "named"; resolvedPath := "/p/modules/named-export.ts" |}.
Proof.
  apply (getReExportMap_last_clause_wins Fixture.host Fixture.files Fixture.modulesIndex
           []
           {| ed_moduleSpecifierValue := Some "./named-export"; ed_isNamespaceExport := false;
              ed_namedExports := [{| es_name := "named"; es_alias := None |}] |}
           [{| ed_moduleSpecifierValue := Some "./nested"; ed_isNamespaceExport := true;
               ed_namedExports := [] |}]
           Fixture.namedExport [] {| es_name := "named"; es_alias := None |} []).
  - reflexivity.
  - reflexivity.
  - vm_compute; reflexivity.
  - reflexivity.
  - intros s Hs. by apply elem_of_nil in Hs.
  - intros d' t' Hd' Ht'. apply list_elem_of_singleton in Hd' as ->.
    vm_compute in Ht'. injection Ht' as <-. cbn [ed_isNamespaceExport].
    intros e (q & m & Hrtc & Hfind & Hclause).
    assert (q = "/p/modules/nested/index.ts") as ->.
    { inversion Hrtc as [|? y ? Hedge _]; [done|].
      destruct Hedge as (m' & d & t & Hm' & Hd & Hns & _).
      vm_compute in Hm'. injection Hm' as <-.
      apply list_elem_of_singleton in Hd as ->. done. }
    vm_compute in Hfind. injection Hfind as <-.
    destruct Hclause as (d & t & spec & Hd & _ & _ & Hspec & Hname & _).
    apply list_elem_of_singleton in Hd as ->.
    apply list_elem_of_singleton in Hspec as ->. done.
Defined.

Example override_map :
  getReExportMap Override.host Override.files Override.index
  = Some {[ "x" := {| localName := "own"; resolvedPath := "/p/dir/F.ts" |} ]}
  ∧ rewriteImportsInFile Override.host Override.files Override.app [] [] false
    = Return {| ro_sourceFile :=
                  {| sf_filePath := "/p/app.ts";
                     sf_statements := [importNamed [("own", Some "x")] "./dir/F"];
                     sf_exportedDeclarations := [];
                     sf_defaultExportDeclarations := None |};
                ro_changed := true; ro_saved := true |}.
Proof. split; vm_compute; reflexivity. Qed.

(** ** The specifiers the rewrite computes *)

(** ** Strings *)

Lemma append_cons (a : ascii) (p r : string) : String a p ++ r = String a (p ++ r).
Proof. reflexivity. Qed.

Lemma append_nil (r : string) : "" ++ r = r.
Proof. reflexivity. Qed.

Lemma prefix_app_iff (p s : string) : String.prefix p s = true ↔ ∃ r, s = p ++ r.
Proof.
  revert s. induction p as [|a p IH]; intros s.
  - destruct s; simpl; split; eauto.
  - destruct s as [|b s].
    + split; [done|]. by intros [r ?].
    + cbn [String.prefix]. destruct (ascii_dec a b) as [->|Hne].
      * rewrite IH. split; intros [r Hr]; exists r; rewrite append_cons in *; congruence.
      * split; [done|]. intros [r Hr]. rewrite append_cons in Hr. congruence.
Qed.

Lemma index_prefix (p r : string) : String.index 0 p (p ++ r) = Some 0.
Proof.
  destruct (p ++ r) as [|b s] eqn:E.
  - destruct p; [done|discriminate E].
  - simpl. assert (String.prefix p (String b s) = true) as H.
    { apply prefix_app_iff. eauto. }
    simpl in H. by rewrite H.
Qed.

Lemma substring_all (s : string) : String.substring 0 (String.length s) s = s.
Proof. induction s as [|c s IH]; simpl; [done|]. by rewrite IH. Qed.

Lemma substring_drop (p r : string) :
  String.substring (String.length p) (String.length (p ++ r) - String.length p) (p ++ r) = r.
Proof.
  induction p as [|c p IH]; simpl.
  - rewrite Nat.sub_0_r. apply substring_all.
  - exact IH.
Qed.

Lemma getSubstitution_literal matched before after rep :
  ¬ "$"%char ∈ list_ascii_of_string rep →
  Js.getSubstitution matched before after rep = rep.
Proof.
  induction rep as [|c rep IH]; intros Hno; [done|].
  cbn [list_ascii_of_string] in Hno. apply not_elem_of_cons in Hno as [Hc Hno].
  cbn [Js.getSubstitution].
  destruct (Ascii.eqb c "$") eqn:E.
  - apply Ascii.eqb_eq in E. by subst.
  - by rewrite IH.
Qed.

(** [replace] on a prefix of the string. *)
Lemma replace_prefix (p r rep : string) :
  ¬ "$"%char ∈ list_ascii_of_string rep →
  Js.replace (p ++ r) p rep = rep ++ r.
Proof.
  intros Hno. unfold Js.replace. rewrite index_prefix.
  cbn [Nat.add]. rewrite substring_drop.
  rewrite getSubstitution_literal by done.
  by destruct (p ++ r).
Qed.

Lemma backslashesToSlashes_no_backslash (s : string) :
  ¬ "\"%char ∈ list_ascii_of_string (Js.backslashesToSlashes s).
Proof.
  induction s as [|c s IH]; simpl.
  - apply not_elem_of_nil.
  - apply not_elem_of_cons. split; [|done].
    destruct (Ascii.eqb c "\") eqn:E; [discriminate|].
    apply Ascii.eqb_neq in E. congruence.
Qed.

Lemma backslashesToSlashes_dot (s : string) :
  Js.startsWith s "." = true → Js.startsWith (Js.backslashesToSlashes s) "." = true.
Proof.
  unfold Js.startsWith. destruct s as [|c s]; [done|].
  cbn [String.prefix Js.backslashesToSlashes].
  destruct (ascii_dec "." c) as [<-|]; [|discriminate]. intros _.
  change (Ascii.eqb "." "\") with false. cbn iota.
  destruct (ascii_dec "." ".") as [_|Hne]; [|by destruct Hne].
  by destruct (Js.backslashesToSlashes s).
Qed.

Lemma length_append (p r : string) :
  String.length (p ++ r) = (String.length p + String.length r)%nat.
Proof. induction p as [|c p IH]; [done|]. rewrite append_cons. simpl. by rewrite IH. Qed.

Lemma substring_prefix_app (p r : string) m :
  String.substring 0 (String.length p + m) (p ++ r) = p ++ String.substring 0 m r.
Proof.
  induction p as [|c p IH]; [done|].
  rewrite !append_cons. simpl. by rewrite IH.
Qed.

(** [stripTsExtension] takes at most four characters away. *)
Lemma stripTsExtension_app (p rest : string) :
  (4 ≤ String.length rest)%nat → ∃ rest', Js.stripTsExtension (p ++ rest) = p ++ rest'.
Proof.
  intros Hlen. unfold Js.stripTsExtension.
  destruct (Js.endsWith (p ++ rest) ".tsx").
  { exists (String.substring 0 (String.length rest - 4) rest).
    rewrite <- substring_prefix_app. f_equal. rewrite length_append. lia. }
  destruct (Js.endsWith (p ++ rest) ".ts"); [|eauto].
  exists (String.substring 0 (String.length rest - 3) rest).
  rewrite <- substring_prefix_app. f_equal. rewrite length_append. lia.
Qed.

Lemma backslashesToSlashes_app (p r : string) :
  Js.backslashesToSlashes (p ++ r) = Js.backslashesToSlashes p ++ Js.backslashesToSlashes r.
Proof.
  induction p as [|c p IH]; [done|].
  rewrite append_cons. cbn [Js.backslashesToSlashes]. by rewrite IH.
Qed.

Lemma backslashesToSlashes_id (p : string) :
  ¬ "\"%char ∈ list_ascii_of_string p → Js.backslashesToSlashes p = p.
Proof.
  induction p as [|c p IH]; intros Hno; [done|].
  cbn [list_ascii_of_string] in Hno. apply not_elem_of_cons in Hno as [Hc Hno].
  cbn [Js.backslashesToSlashes]. rewrite IH by done.
  destruct (Ascii.eqb c "\") eqn:E; [|done].
  apply Ascii.eqb_eq in E. by subst.
Qed.

Section Specifiers.

Context (host : Host).

(** X3: The specifier that [getRelativePath] returns starts with a dot and
    holds no backslash, so that [rewriteImportsInFile] takes an import with
    this specifier for a local one, whatever the alias prefixes are. *)
Theorem getRelativePath_is_relative (from to : string) (aliasPrefixes : list string) :
  Js.startsWith (getRelativePath host from to) "." = true
  ∧ ¬ "\"%char ∈ list_ascii_of_string (getRelativePath host from to)
  ∧ isLocalImport aliasPrefixes (getRelativePath host from to) = true.
Proof.
  assert (Js.startsWith (getRelativePath host from to) "." = true) as Hdot.
  { unfold getRelativePath. apply backslashesToSlashes_dot.
    destruct (Js.startsWith (Js.stripTsExtension _) ".") eqn:E; [done|].
    unfold Js.startsWith. rewrite append_cons. cbn [String.prefix].
    destruct (ascii_dec "." ".") as [_|Hne]; [|by destruct Hne].
    by destruct ("/" ++ _). }
  split; [done|]. split.
  - apply backslashesToSlashes_no_backslash.
  - unfold isLocalImport. by rewrite Hdot.
Qed.

Lemma resolveAlias_no_backslash paths resolvedPath specifier :
  resolveAlias host paths resolvedPath = Return (Some specifier) →
  ¬ "\"%char ∈ list_ascii_of_string specifier.
Proof.
  induction paths as [|[alias [[|base0 bases]|]] paths IH]; simpl; [done| | |done].
  - done.
  - destruct (Js.startsWith resolvedPath _); [|done].
    intros [= <-]. apply backslashesToSlashes_no_backslash.
Qed.

(** X4: Every specifier that [processImportDeclaration] computes for a
    binding, by [resolveAlias] or by [getRelativePath], is free of
    backslashes. *)
Theorem resolvedSpecifier_no_backslash paths sourceFile resolvedFile specifier :
  resolvedSpecifier host paths sourceFile resolvedFile = Return specifier →
  ¬ "\"%char ∈ list_ascii_of_string specifier.
Proof.
  unfold resolvedSpecifier. intros H.
  destruct (resolveAlias host paths resolvedFile) as [[aliased|]| |] eqn:E; result_inv.
  - simpl. destruct (Js.truthy aliased).
    + by eapply resolveAlias_no_backslash.
    + apply backslashesToSlashes_no_backslash.
  - apply backslashesToSlashes_no_backslash.
Qed.

(** X5: [resolveAlias] throws exactly when the table has an alias with an
    empty array of base paths and no alias before it matches the path: an
    alias without an array is skipped, an earlier match returns first. *)
Theorem resolveAlias_throws_iff (paths : Paths) (resolvedPath : string) :
  (∃ error, resolveAlias host paths resolvedPath = Throw error) ↔
  ∃ before alias after,
    paths = (before ++ (alias, Some []) :: after)%list
    ∧ Forall (λ entry : string * option (list string),
                entry.2 ≠ Some [] ∧ aliasEntryMatches host resolvedPath entry = false)
             before.
Proof.
  induction paths as [|[alias [[|base0 bases]|]] paths IH]; simpl.
  - split; [by intros [? ?]|]. intros (before & alias & after & H & _).
    by destruct before.
  - split; [|eauto]. intros _. exists [], alias, paths. split; [done|constructor].
  - destruct (Js.startsWith resolvedPath _) eqn:E.
    + split; [by intros [? ?]|]. intros (before & alias' & after & H & Hall).
      destruct before as [|b before]; cbn [app] in H; simplify_eq.
      apply Forall_cons in Hall as [[_ Hm] _].
      unfold aliasEntryMatches in Hm. cbn [snd] in Hm. congruence.
    + rewrite IH. split.
      * intros (before & alias' & after & -> & Hall).
        exists ((alias, Some (base0 :: bases)) :: before), alias', after.
        split; [done|]. constructor; [|done]. split; [done|].
        unfold aliasEntryMatches. by cbn [snd].
      * intros (before & alias' & after & H & Hall).
        destruct before as [|b before]; cbn [app] in H; simplify_eq.
        apply Forall_cons in Hall as [_ Hall]. eauto.
  - rewrite IH. split.
    + intros (before & alias' & after & -> & Hall).
      exists ((alias, None) :: before), alias', after.
      split; [done|]. constructor; [|done]. split; [done|]. done.
    + intros (before & alias' & after & H & Hall).
      destruct before as [|b before]; cbn [app] in H; simplify_eq.
      apply Forall_cons in Hall as [_ Hall]. eauto.
Qed.

(** X6: For a path that is the resolved first base path of an alias followed
    by [rest], and that no earlier alias matches, [resolveAlias] returns the
    alias without [/*] followed by [rest], without the extension [.ts] or
    [.tsx] and with slashes for backslashes (the alias holding no [$]); the
    base paths after the first are not looked at.  The result starts with
    the alias prefix, so the rewrite takes it for a local import again. *)
Theorem resolveAlias_replaces_base before alias base0 bases after rest :
  Forall (λ entry : string * option (list string),
            entry.2 ≠ Some [] ∧ aliasEntryMatches host
              (path_resolve host [Js.replace base0 "/*" ""] ++ rest) entry = false)
         before →
  ¬ "$"%char ∈ list_ascii_of_string (Js.replace alias "/*" "") →
  resolveAlias host (before ++ (alias, Some (base0 :: bases)) :: after)%list
    (path_resolve host [Js.replace base0 "/*" ""] ++ rest)
  = Return (Some (Js.backslashesToSlashes
                    (Js.stripTsExtension (Js.replace alias "/*" "" ++ rest))))
  ∧ (¬ "\"%char ∈ list_ascii_of_string (Js.replace alias "/*" "") →
     (4 ≤ String.length rest)%nat →
     isLocalImport (aliasPrefixesOf (before ++ (alias, Some (base0 :: bases)) :: after)%list)
       (Js.backslashesToSlashes (Js.stripTsExtension (Js.replace alias "/*" "" ++ rest)))
     = true).
Proof.
  intros Hbefore Hno. split.
  - induction Hbefore as [|[alias' [[|b0 bs]|]] before [Hne Hm] _ IH]; simpl in *.
    + assert (Js.startsWith (path_resolve host [Js.replace base0 "/*" ""] ++ rest)
                (path_resolve host [Js.replace base0 "/*" ""]) = true) as ->.
      { apply prefix_app_iff. eauto. }
      by rewrite replace_prefix.
    + done.
    + unfold aliasEntryMatches in Hm. cbn [snd] in Hm. by rewrite Hm.
    + done.
  - intros Hnb Hlen. unfold isLocalImport. apply orb_true_iff. right.
    apply existsb_exists. exists (Js.replace alias "/*" ""). split.
    + apply list_elem_of_In. unfold aliasPrefixesOf. apply list_elem_of_fmap.
      exists (alias, Some (base0 :: bases)). split; [done|]. set_solver.
    + destruct (stripTsExtension_app (Js.replace alias "/*" "") rest Hlen) as [rest' ->].
      rewrite backslashesToSlashes_app, backslashesToSlashes_id by done.
      apply prefix_app_iff. eauto.
Qed.

End Specifiers.

Lemma resolvedSpecifier_no_backslash_witness :
  resolvedSpecifier (Posix.host []) componentsPaths Fixture.importExample
    "/cwd/src/components/button.tsx" = Return "@components/button"
  ∧ ¬ "\"%char ∈ list_ascii_of_string "@components/button".
Proof.
  split; [vm_compute; reflexivity|].
  apply (resolvedSpecifier_no_backslash (Posix.host []) componentsPaths Fixture.importExample
           "/cwd/src/components/button.tsx").
  vm_compute; reflexivity.
Defined.

Lemma resolveAlias_replaces_base_witness :
  resolveAlias (Posix.host []) [("@lib/*", None); ("@components/*", Some ["./src/components/*"])]
    "/cwd/src/components/forms/input.tsx"
  = Return (Some "@components/forms/input")
  ∧ isLocalImport ["@lib"; "@components"] "@components/forms/input" = true.
Proof.
  destruct (resolveAlias_replaces_base (Posix.host []) [("@lib/*", None)] "@components/*"
              "./src/components/*" [] [] "/forms/input.tsx") as [Hr Hl].
  - repeat constructor; discriminate.
  - vm_compute. intros H. repeat (apply elem_of_cons in H as [H|H]; [discriminate H|]).
    by apply elem_of_nil in H.
  - split; [exact Hr|]. apply Hl.
    + vm_compute. intros H. repeat (apply elem_of_cons in H as [H|H]; [discriminate H|]).
      by apply elem_of_nil in H.
    + vm_compute. lia.
Defined.

(** The base path is compared as a string: a file in a directory whose
    name begins with that of the base directory gets the alias too. *)
Example resolveAlias_sibling_directory :
  resolveAlias (Posix.host []) componentsPaths "/cwd/src/components-legacy/card.ts"
  = Return (Some "@components-legacy/card").
Proof. vm_compute. reflexivity. Qed.

Example resolveAlias_empty_bases :
  resolveAlias (Posix.host []) [("@lib/*", Some []); ("@components/*", Some ["./src/components/*"])]
    "/cwd/src/components/button.ts"
  = Throw "TypeError: Cannot read properties of undefined (reading 'replace')".
Proof. reflexivity. Qed.

(** ** The bindings of one import declaration *)

Lemma alist_set_present {V : Type} k (v e : V) l :
  alist_get k l = Some e →
  ∃ l1 l2, l = (l1 ++ (k, e) :: l2)%list ∧ alist_set k v l = (l1 ++ (k, v) :: l2)%list.
Proof.
  induction l as [|[k' v'] l IH]; simpl; [done|].
  destruct (decide (k' = k)) as [->|Hne].
  - intros [= ->]. by exists [], l.
  - intros H. destruct (IH H) as (l1 & l2 & -> & ->).
    by exists ((k', v') :: l1), l2.
Qed.

Lemma alist_set_absent {V : Type} k (v : V) l :
  alist_get k l = None → alist_set k v l = (l ++ [(k, v)])%list.
Proof.
  induction l as [|[k' v'] l IH]; simpl; [done|].
  destruct (decide (k' = k)) as [->|Hne]; [done|].
  intros H. by rewrite IH.
Qed.

Section Bindings.

Context (host : Host) (files : list SourceFile).

Lemma processNamedImport_binds declarations sourceFile moduleSpecifier reExportMap paths
    st namedImport st' :
  processNamedImport host declarations sourceFile moduleSpecifier reExportMap paths st namedImport
  = Return st' →
  (usedName <$> ps_keptNamed st') ++ rewrittenNames (ps_rewrittenBySpecifier st')
  ≡ₚ ((usedName <$> ps_keptNamed st) ++ rewrittenNames (ps_rewrittenBySpecifier st))
      ++ [usedName namedImport].
Proof.
  unfold processNamedImport. intros H.
  assert ({| is_name := is_name namedImport; is_alias := is_alias namedImport |} = namedImport)
    as Heta by (by destruct namedImport).
  assert (∀ (a b : list string) x, ((a ++ [x]) ++ b)%list ≡ₚ ((a ++ b) ++ [x])%list) as Hperm.
  { intros a b x. rewrite <- !app_assoc. apply Permutation_app_head, Permutation_app_comm. }
  case_match.
  2:{ result_inv. simpl. rewrite Heta, fmap_app. apply Hperm. }
  destruct (resolvedSpecifier host paths sourceFile _) as [resolved| |]; result_inv.
  case_decide; result_inv; simpl.
  2:{ rewrite Heta, fmap_app. apply Hperm. }
  rewrite <- app_assoc. apply Permutation_app_head.
  unfold rewrittenNames.
  destruct (alist_get resolved (ps_rewrittenBySpecifier st)) as [e|] eqn:E.
  - destruct (alist_set_present resolved
                {| rw_named := rw_named e ++ [(match reExportMap !! is_name namedImport with
                                               | Some reExport =>
                                                   if decide (resolvedPath reExport = s)
                                                   then localName reExport
                                                   else is_name namedImport
                                               | None => is_name namedImport
                                               end, usedName namedImport)];
                   rw_defaultImport := rw_defaultImport e |} e _ E) as (l1 & l2 & Hl & Hset).
    unfold usedName in Hset. rewrite Hset, Hl.
    rewrite !bind_app, !bind_cons. simpl. rewrite fmap_app. simpl.
    rewrite <- !app_assoc. apply Permutation_app_head. apply Permutation_app_head.
    simpl. unfold usedName. apply Permutation_cons_append.
  - rewrite alist_set_absent by done.
    rewrite bind_app. simpl. done.
Qed.

Lemma processNamedImports_bind declarations sourceFile moduleSpecifier reExportMap paths l :
  ∀ st st',
    forEachR (processNamedImport host declarations sourceFile moduleSpecifier reExportMap paths)
             l st = Return st' →
    (usedName <$> ps_keptNamed st') ++ rewrittenNames (ps_rewrittenBySpecifier st')
    ≡ₚ ((usedName <$> ps_keptNamed st) ++ rewrittenNames (ps_rewrittenBySpecifier st))
        ++ (usedName <$> l).
Proof.
  induction l as [|x l IH]; intros st st' H; simpl in *.
  { simplify_eq. by rewrite app_nil_r. }
  destruct (processNamedImport host declarations sourceFile moduleSpecifier reExportMap paths
              st x) as [st1| |] eqn:E; simpl in H; [|done|done].
  rewrite (IH _ _ H), (processNamedImport_binds _ _ _ _ _ _ _ _ E).
  by rewrite <- app_assoc.
Qed.

Lemma processDefaultImport_start importDecl declarations sourceFile moduleSpecifier paths st :
  processDefaultImport host importDecl declarations sourceFile moduleSpecifier paths = Return st →
  ps_keptNamed st = []
  ∧ ((ps_rewrittenBySpecifier st = [] ∧ ps_changed st = false)
     ∨ ∃ resolvedFile resolved,
         Js.truthy_opt (id_defaultImport importDecl) = true
         ∧ sf_defaultExportDeclarations declarations ≫= head = Some resolvedFile
         ∧ resolvedSpecifier host paths sourceFile resolvedFile = Return resolved
         ∧ resolved ≠ moduleSpecifier
         ∧ ps_rewrittenBySpecifier st
           = [(resolved, {| rw_named := []; rw_defaultImport := id_defaultImport importDecl |})]
         ∧ ps_changed st = true).
Proof.
  unfold processDefaultImport. intros H.
  destruct (Js.truthy_opt (id_defaultImport importDecl)) eqn:Ht; [|result_inv; simpl; eauto].
  destruct (sf_defaultExportDeclarations declarations ≫= head) as [resolvedFile|] eqn:Ef;
    [|result_inv; simpl; eauto].
  destruct (resolvedSpecifier host paths sourceFile resolvedFile) as [resolved| |] eqn:Er;
    result_inv.
  case_decide; result_inv; simpl; [|eauto].
  split; [done|]. right. exists resolvedFile, resolved. done.
Qed.

(** X7: When [processImportDeclaration] reports a change, the local names of
    the named bindings of the declaration are, up to order, those of the
    residual import added for the kept bindings (none is added when nothing
    is kept) together with those of the rewritten imports: no named binding
    is lost and none is doubled. *)
Theorem processImportDeclaration_conserves_named_bindings
    importDecl declarations sourceFile moduleSpecifier reExportMap paths stmts result stmts' :
  processImportDeclaration host importDecl declarations sourceFile moduleSpecifier
    reExportMap paths stmts = Return (result, stmts') →
  pr_changed result = true →
  ∃ keptNamed,
    stmts' = (if decide (keptNamed = []) then stmts
              else addImportDeclaration (residualImport moduleSpecifier keptNamed) stmts)
    ∧ (usedName <$> id_namedImports (residualImport moduleSpecifier keptNamed))
      ++ (pr_rewrittenImports result ≫= λ r, (ri_named r).*2)
      ≡ₚ usedName <$> id_namedImports importDecl.
Proof.
  unfold processImportDeclaration. intros H Hch.
  destruct (processBindings host importDecl declarations sourceFile moduleSpecifier
              reExportMap paths) as [st| |] eqn:Hst; result_inv.
  destruct (ps_changed st) eqn:Hc; simplify_eq.
  exists (ps_keptNamed st). split.
  { destruct (ps_keptNamed st) as [|k ks] eqn:Hk; repeat case_decide; simpl in *;
      try done; lia. }
  unfold processBindings in Hst.
  destruct (processDefaultImport host importDecl declarations sourceFile moduleSpecifier paths)
    as [st0| |] eqn:Hst0; result_inv.
  pose proof (processNamedImports_bind _ _ _ _ _ _ _ _ Hst) as Hb.
  destruct (processDefaultImport_start _ _ _ _ _ _ Hst0) as [Hk0 Hr0].
  assert (rewrittenNames (ps_rewrittenBySpecifier st0) = []) as Hn0.
  { destruct Hr0 as [[-> _]|(f & r & _ & _ & _ & _ & -> & _)]; done. }
  rewrite Hk0, Hn0 in Hb. simpl in Hb. rewrite <- Hb.
  assert (usedName <$> id_namedImports (residualImport moduleSpecifier (ps_keptNamed st))
          = usedName <$> ps_keptNamed st) as ->.
  { unfold residualImport. simpl. rewrite <- list_fmap_compose.
    apply list_fmap_ext. intros i k _. unfold usedName. simpl.
    destruct (is_alias k) as [al|]; simpl; [|done].
    destruct (Js.truthy al) eqn:Et; simpl; [by rewrite Et|done]. }
  cbn [pr_rewrittenImports].
  assert (∀ l : list (string * Rewritten),
            ((λ '(specifier, e), {| ri_specifier := specifier; ri_named := rw_named e;
                                    ri_defaultImport := rw_defaultImport e |}) <$> l)
              ≫= (λ r, (ri_named r).*2)
            = rewrittenNames l) as ->; [|done].
  intros l. unfold rewrittenNames. induction l as [|[s e] l IH]; [done|].
  rewrite fmap_cons, !bind_cons, IH. done.
Qed.

End Bindings.

Lemma alist_set_elem {V : Type} k (v : V) l x :
  x ∈ alist_set k v l → x = (k, v) ∨ x ∈ l.
Proof.
  induction l as [|[k' v'] l IH]; simpl.
  - intros ->%list_elem_of_singleton. by left.
  - destruct (decide (k' = k)) as [->|Hne].
    + intros [->|H]%elem_of_cons; [by left|]. right. by right.
    + intros [->|H]%elem_of_cons; [right; by left|].
      destruct (IH H) as [->|H']; [by left|]. right. by right.
Qed.

Lemma alist_set_not_nil {V : Type} k (v : V) l : alist_set k v l ≠ [].
Proof. destruct l as [|[k' v'] l]; simpl; [done|]. by case_decide. Qed.

Section Rewritten.

Context (host : Host) (files : list SourceFile).

Lemma processNamedImport_invariant declarations sourceFile moduleSpecifier reExportMap paths
    st namedImport st' :
  processNamedImport host declarations sourceFile moduleSpecifier reExportMap paths st namedImport
  = Return st' →
  rewrittenInvariant moduleSpecifier st → rewrittenInvariant moduleSpecifier st'.
Proof.
  unfold processNamedImport. intros H (Hnd & Hch & Hall).
  case_match; [|by result_inv].
  destruct (resolvedSpecifier host paths sourceFile _) as [resolved| |]; result_inv.
  case_decide as Hne; result_inv; [|done].
  split; [|split]; simpl.
  - by apply alist_set_NoDup.
  - split; [intros _; apply alist_set_not_nil|done].
  - intros specifier e [[= -> ->]|Hin]%alist_set_elem; [|by apply Hall].
    split; [done|]. right. simpl. by destruct (rw_named _).
Qed.

Lemma processBindings_invariant importDecl declarations sourceFile moduleSpecifier reExportMap
    paths st :
  processBindings host importDecl declarations sourceFile moduleSpecifier reExportMap paths
  = Return st →
  rewrittenInvariant moduleSpecifier st.
Proof.
  unfold processBindings. intros H.
  destruct (processDefaultImport host importDecl declarations sourceFile moduleSpecifier paths)
    as [st0| |] eqn:Hst0; result_inv.
  eapply (forEachR_invariant _ (rewrittenInvariant moduleSpecifier)); [|exact H|].
  - intros s x s'. apply processNamedImport_invariant.
  - destruct (processDefaultImport_start _ _ _ _ _ _ _ Hst0)
      as [_ [[Hr Hc]|(f & r & Ht & _ & _ & Hne & Hr & Hc)]];
      unfold rewrittenInvariant; rewrite Hr, Hc.
    + split; [constructor|]. split; [done|]. by intros ?? ?%elem_of_nil.
    + split; [repeat constructor; set_solver|]. split; [done|].
      intros specifier e [= -> ->]%list_elem_of_singleton. split; [done|]. by left.
Qed.

(** X8: The rewritten imports that [processImportDeclaration] returns have
    pairwise distinct specifiers, none of them the specifier of the
    declaration, and each carries a default import or a named binding; the
    change flag is set exactly when there is a rewritten import, and
    without a change the statements of the file are untouched. *)
Theorem processImportDeclaration_rewritten_imports
    importDecl declarations sourceFile moduleSpecifier reExportMap paths stmts result stmts' :
  processImportDeclaration host importDecl declarations sourceFile moduleSpecifier
    reExportMap paths stmts = Return (result, stmts') →
  NoDup (ri_specifier <$> pr_rewrittenImports result)
  ∧ (pr_changed result = true ↔ pr_rewrittenImports result ≠ [])
  ∧ (pr_changed result = false → stmts' = stmts)
  ∧ ∀ r, r ∈ pr_rewrittenImports result →
      ri_specifier r ≠ moduleSpecifier
      ∧ (Js.truthy_opt (ri_defaultImport r) = true ∨ ri_named r ≠ []).
Proof.
  unfold processImportDeclaration. intros H.
  destruct (processBindings host importDecl declarations sourceFile moduleSpecifier
              reExportMap paths) as [st| |] eqn:Hst; result_inv.
  destruct (processBindings_invariant _ _ _ _ _ _ _ Hst) as (Hnd & Hch & Hall).
  destruct (ps_changed st) eqn:Hc; simplify_eq; simpl.
  - split; [|split; [|split]].
    + rewrite <- list_fmap_compose.
      erewrite list_fmap_ext; [exact Hnd|]. by intros i [s e] _.
    + split; [|done]. intros _ Hnil. apply fmap_nil_inv in Hnil. by apply Hch.
    + done.
    + intros r ([s e] & -> & Hin)%list_elem_of_fmap. simpl. by apply Hall.
  - split; [constructor|]. split; [done|]. split; [done|]. by intros r ?%elem_of_nil.
Qed.

Lemma processNamedImport_no_default declarations sourceFile moduleSpecifier reExportMap paths
    st namedImport st' :
  processNamedImport host declarations sourceFile moduleSpecifier reExportMap paths st namedImport
  = Return st' →
  (∀ specifier e, (specifier, e) ∈ ps_rewrittenBySpecifier st → rw_defaultImport e = None) →
  ∀ specifier e, (specifier, e) ∈ ps_rewrittenBySpecifier st' → rw_defaultImport e = None.
Proof.
  unfold processNamedImport. intros H Hall.
  case_match; [|by result_inv].
  destruct (resolvedSpecifier host paths sourceFile _) as [resolved| |]; result_inv.
  case_decide as Hne; result_inv; [|done].
  simpl. intros specifier e [[= -> ->]|Hin]%alist_set_elem; [|by eapply Hall].
  simpl. destruct (alist_get resolved (ps_rewrittenBySpecifier st)) as [e0|] eqn:E; [|done].
  eapply Hall. by apply alist_get_elem_of.
Qed.

(** X9: When the default import of a declaration is not rewritten (the target
    has no default export, or it resolves to the specifier of the
    declaration) and a named binding is, no rewritten import carries a
    default import and the residual import has none: the default import is
    in none of the imports that replace the declaration. *)
Theorem processImportDeclaration_drops_unmoved_default
    importDecl declarations sourceFile moduleSpecifier reExportMap paths stmts result stmts' :
  (∀ resolvedFile,
     sf_defaultExportDeclarations declarations ≫= head = Some resolvedFile →
     resolvedSpecifier host paths sourceFile resolvedFile = Return moduleSpecifier) →
  processImportDeclaration host importDecl declarations sourceFile moduleSpecifier
    reExportMap paths stmts = Return (result, stmts') →
  pr_changed result = true →
  (∀ r, r ∈ pr_rewrittenImports result → ri_defaultImport r = None)
  ∧ (stmts' = stmts
     ∨ ∃ residual, stmts' = addImportDeclaration residual stmts
                   ∧ id_moduleSpecifierValue residual = moduleSpecifier
                   ∧ id_defaultImport residual = None).
Proof.
  unfold processImportDeclaration. intros Hdefault H Hch.
  destruct (processBindings host importDecl declarations sourceFile moduleSpecifier
              reExportMap paths) as [st| |] eqn:Hst; result_inv.
  destruct (ps_changed st) eqn:Hc; simplify_eq; simpl. split.
  - unfold processBindings in Hst.
    destruct (processDefaultImport host importDecl declarations sourceFile moduleSpecifier paths)
      as [st0| |] eqn:Hst0; result_inv.
    assert (∀ specifier e, (specifier, e) ∈ ps_rewrittenBySpecifier st → rw_defaultImport e = None)
      as Hall.
    { eapply (forEachR_invariant _
                (λ st, ∀ specifier e, (specifier, e) ∈ ps_rewrittenBySpecifier st →
                                      rw_defaultImport e = None)); [|exact Hst|].
      - intros s x s'. apply processNamedImport_no_default.
      - destruct (processDefaultImport_start _ _ _ _ _ _ _ Hst0)
          as [_ [[Hr _]|(f & r & _ & Hf & Hr & Hne & _)]].
        + rewrite Hr. by intros ?? ?%elem_of_nil.
        + rewrite (Hdefault f Hf) in Hr. by simplify_eq. }
    intros r ([s e] & -> & Hin)%list_elem_of_fmap. simpl. by eapply Hall.
  - case_decide; [|by left]. right. eexists. split; [done|]. done.
Qed.

End Rewritten.

Lemma processImportDeclaration_conserves_named_bindings_witness :
  ∃ keptNamed,
    [importNamed [("named", None); ("nested", None); ("missing", None)] "./modules";
     importNamed [("missing", None)] "./modules"]
    = (if decide (keptNamed = []) then sf_statements Fixture.importExample
       else addImportDeclaration (residualImport "./modules" keptNamed)
              (sf_statements Fixture.importExample))
    ∧ (usedName <$> id_namedImports (residualImport "./modules" keptNamed))
      ++ ["named"; "nested"]
      ≡ₚ ["named"; "nested"; "missing"].
Proof.
  apply (processImportDeclaration_conserves_named_bindings Fixture.host Fixture.theImport
           Fixture.modulesIndex Fixture.importExample "./modules" Fixture.mapOfIndex []
           (sf_statements Fixture.importExample)
           {| pr_changed := true;
              pr_rewrittenImports :=
                [{| ri_specifier := "./modules/named-export";
                    ri_named := [("named", "named")];
                    ri_defaultImport := None |};
                 {| ri_specifier := "./modules/nested/nested-export";
                    ri_named := [("actualNested", "nested")];
                    ri_defaultImport := None |}] |}).
  - vm_compute; reflexivity.
  - reflexivity.
Defined.

Lemma processImportDeclaration_rewritten_imports_witness :
  NoDup (ri_specifier <$> pr_rewrittenImports rewrittenOfFixture)
  ∧ (pr_changed rewrittenOfFixture = true ↔ pr_rewrittenImports rewrittenOfFixture ≠ [])
  ∧ (pr_changed rewrittenOfFixture = false →
     [importNamed [("named", None); ("nested", None); ("missing", None)] "./modules";
      importNamed [("missing", None)] "./modules"]
     = sf_statements Fixture.importExample)
  ∧ ∀ r, r ∈ pr_rewrittenImports rewrittenOfFixture →
      ri_specifier r ≠ "./modules"
      ∧ (Js.truthy_opt (ri_defaultImport r) = true ∨ ri_named r ≠ []).
Proof.
  apply (processImportDeclaration_rewritten_imports Fixture.host Fixture.theImport
           Fixture.modulesIndex Fixture.importExample "./modules" Fixture.mapOfIndex []
           (sf_statements Fixture.importExample) rewrittenOfFixture
           [importNamed [("named", None); ("nested", None); ("missing", None)] "./modules";
            importNamed [("missing", None)] "./modules"]).
  vm_compute; reflexivity.
Defined.

Lemma processImportDeclaration_drops_unmoved_default_witness :
  (∀ r, r ∈ [{| ri_specifier := "./modules/a"; ri_named := [("a", "a")];
                ri_defaultImport := None |}] → ri_defaultImport r = None)
  ∧ (sf_statements DefaultStays.app = sf_statements DefaultStays.app
     ∨ ∃ residual,
         sf_statements DefaultStays.app
         = addImportDeclaration residual (sf_statements DefaultStays.app)
         ∧ id_moduleSpecifierValue residual = "./modules/index"
         ∧ id_defaultImport residual = None).
Proof.
  apply (processImportDeclaration_drops_unmoved_default DefaultStays.host DefaultStays.theImport
           DefaultStays.modulesIndex DefaultStays.app "./modules/index"
           {[ "a" := {| localName := "a"; resolvedPath := "/p/modules/a.ts" |} ]} []
           (sf_statements DefaultStays.app)
           {| pr_changed := true;
              pr_rewrittenImports :=
                [{| ri_specifier := "./modules/a"; ri_named := [("a", "a")];
                    ri_defaultImport := None |}] |}).
  - intros resolvedFile [= <-]. vm_compute; reflexivity.
  - vm_compute; reflexivity.
  - reflexivity.
Defined.

(** On the tree of [DefaultStays] the run leaves the file without its
    default import. *)
Example default_import_is_lost :
  getReExportMap DefaultStays.host DefaultStays.files DefaultStays.modulesIndex
  = Some {[ "a" := {| localName := "a"; resolvedPath := "/p/modules/a.ts" |} ]}
  ∧ rewriteImportsInFile DefaultStays.host DefaultStays.files DefaultStays.app [] [] false
    = Return {| ro_sourceFile := DefaultStays.app1; ro_changed := true; ro_saved := true |}.
Proof. split; vm_compute; reflexivity. Qed.

(** ** What a run keeps of a file *)

Lemma insertAfterLastImport_None d stmts :
  insertAfterLastImport d stmts = None →
  ∀ i d0, stmts !! i ≠ Some (ImportStmt d0).
Proof.
  induction stmts as [|st rest IH]; simpl; [done|].
  destruct (insertAfterLastImport d rest) as [rest'|]; [done|].
  destruct st as [imp|ex|text]; [done| |]; intros _ [|i] d1; simpl; try done; by apply IH.
Qed.

Lemma otherStatements_insert d stmts :
  ∀ stmts', insertAfterLastImport d stmts = Some stmts' →
            otherStatements stmts' = otherStatements stmts.
Proof.
  induction stmts as [|st rest IH]; intros stmts' H; simpl in H; [done|].
  destruct (insertAfterLastImport d rest) as [rest'|].
  - simplify_eq. unfold otherStatements in *. simpl. by rewrite (IH rest' eq_refl).
  - destruct st; simplify_eq. done.
Qed.

Lemma otherStatements_add d stmts :
  otherStatements (addImportDeclaration d stmts) = otherStatements stmts.
Proof.
  unfold addImportDeclaration.
  destruct (insertAfterLastImport d stmts) as [stmts'|] eqn:E; [|done].
  by eapply otherStatements_insert.
Qed.

Lemma insertAfterLastImport_lookup d stmts :
  ∀ stmts' i d0, insertAfterLastImport d stmts = Some stmts' →
                 stmts !! i = Some (ImportStmt d0) → stmts' !! i = Some (ImportStmt d0).
Proof.
  induction stmts as [|st rest IH]; intros stmts' i d0 H Hi; simpl in H; [done|].
  destruct (insertAfterLastImport d rest) as [rest'|] eqn:E.
  - simplify_eq. destruct i as [|i]; simpl in *; [done|]. by eapply IH.
  - destruct st; simplify_eq. destruct i as [|i]; simpl in *; [done|].
    by destruct (insertAfterLastImport_None _ _ E i d0).
Qed.

Lemma addImportDeclaration_lookup d stmts i d0 :
  stmts !! i = Some (ImportStmt d0) → addImportDeclaration d stmts !! i = Some (ImportStmt d0).
Proof.
  intros Hi. unfold addImportDeclaration.
  destruct (insertAfterLastImport d stmts) as [stmts'|] eqn:E.
  - by eapply insertAfterLastImport_lookup.
  - by destruct (insertAfterLastImport_None _ _ E i d0).
Qed.

Lemma addImportDeclaration_elem d stmts stmt :
  stmt ∈ addImportDeclaration d stmts ↔ stmt = ImportStmt d ∨ stmt ∈ stmts.
Proof. by rewrite addImportDeclaration_Permutation, elem_of_cons. Qed.

Lemma removeStatements_elem positions stmts stmt :
  stmt ∈ removeStatements positions stmts ↔
  ∃ i, stmts !! i = Some stmt ∧ i ∉ positions.
Proof.
  unfold removeStatements. rewrite list_elem_of_omap. split.
  - intros ([i st] & Hin & Hsome).
    apply elem_of_lookup_imap in Hin as (i' & st' & [= -> ->] & Hl).
    case_decide; simplify_eq. eauto.
  - intros (i & Hl & Hi). exists (i, stmt). split.
    + apply elem_of_lookup_imap. eauto.
    + by rewrite decide_False.
Qed.

Lemma otherStatements_remove positions stmts :
  (∀ i, i ∈ positions → ∃ d, stmts !! i = Some (ImportStmt d)) →
  otherStatements (removeStatements positions stmts) = otherStatements stmts.
Proof.
  unfold removeStatements.
  enough (∀ (f : nat → nat),
            (∀ i st, stmts !! i = Some st → f i ∈ positions → isImportStatement st = true) →
            otherStatements
              (omap (λ '(i, st), if decide (i ∈ positions) then None else Some st)
                    (imap (λ i, pair (f i)) stmts))
            = otherStatements stmts) as H.
  { intros Hp. apply (H id). intros i st Hl Hi. destruct (Hp i Hi) as [d Hd].
    rewrite Hl in Hd. by simplify_eq. }
  induction stmts as [|st stmts IH]; intros f Hf; [done|].
  cbn [imap omap list_omap]. unfold otherStatements in *.
  assert (∀ i st', stmts !! i = Some st' → (f ∘ S) i ∈ positions →
                    isImportStatement st' = true) as Hf'.
  { intros i st' Hl. apply (Hf (S i) st' Hl). }
  destruct (decide (f 0 ∈ positions)) as [Hin|Hnin].
  - cbn [List.filter]. rewrite (Hf 0 st eq_refl Hin). cbn [negb].
    exact (IH (f ∘ S) Hf').
  - cbn [List.filter]. destruct (negb (isImportStatement st)); [f_equal|];
      exact (IH (f ∘ S) Hf').
Qed.

Lemma getImportDeclarations_elem sf i d :
  (i, d) ∈ getImportDeclarations sf ↔ sf_statements sf !! i = Some (ImportStmt d).
Proof.
  unfold getImportDeclarations. rewrite list_elem_of_omap. split.
  - intros ([i' st] & Hin & Hsome).
    apply elem_of_lookup_imap in Hin as (i'' & st' & [= -> ->] & Hl).
    destruct st'; by simplify_eq.
  - intros Hl. exists (i, ImportStmt d). split; [|done].
    apply elem_of_lookup_imap. eauto.
Qed.

Lemma forEachR_invariant_in {A S : Type} (body : S → A → Result S) (P : S → Prop) l :
  (∀ s x s', x ∈ l → body s x = Return s' → P s → P s') →
  ∀ s s', forEachR body l s = Return s' → P s → P s'.
Proof.
  induction l as [|x l IH]; intros Hb s s' H HP; simpl in *; [by simplify_eq|].
  destruct (body s x) as [s1| |] eqn:E; simpl in H; [|done|done].
  eapply IH; [|done|].
  - intros s2 y s3 Hy. apply Hb. by right.
  - eapply Hb; [by left|done|done].
Qed.

Lemma foldl_alist_set_not_nil (entries : list (string * string)) :
  ∀ m, m ≠ [] ∨ entries ≠ [] → foldl (λ m entry, alist_set entry.1 entry.2 m) m entries ≠ [].
Proof.
  induction entries as [|e es IH]; intros m H; simpl.
  - by destruct H.
  - apply IH. left. apply alist_set_not_nil.
Qed.

Section RewriteLoop.

Context (host : Host) (files : list SourceFile).

Lemma processImportDeclaration_outcome
    importDecl declarations sourceFile moduleSpecifier reExportMap paths stmts result stmts' :
  processImportDeclaration host importDecl declarations sourceFile moduleSpecifier
    reExportMap paths stmts = Return (result, stmts') →
  (pr_changed result = false ∧ stmts' = stmts ∧ pr_rewrittenImports result = [])
  ∨ (pr_changed result = true
     ∧ (stmts' = stmts
        ∨ ∃ keptNamed, keptNamed ≠ []
            ∧ stmts' = addImportDeclaration (residualImport moduleSpecifier keptNamed) stmts)
     ∧ ∀ r, r ∈ pr_rewrittenImports result →
            Js.truthy_opt (ri_defaultImport r) = true ∨ ri_named r ≠ []).
Proof.
  unfold processImportDeclaration. intros H.
  destruct (processBindings host importDecl declarations sourceFile moduleSpecifier
              reExportMap paths) as [st| |] eqn:Hst; result_inv.
  destruct (processBindings_invariant _ _ _ _ _ _ _ _ Hst) as (_ & _ & Hall).
  destruct (ps_changed st) eqn:Hc; simplify_eq; simpl; [right|left; done].
  split; [done|]. split.
  - case_decide as Hlen; [|by left]. right. exists (ps_keptNamed st). split; [|done].
    intros Hnil. rewrite Hnil in Hlen. simpl in Hlen. lia.
  - intros r ([s e] & -> & Hin)%list_elem_of_fmap. simpl. by apply (Hall s e).
Qed.

Lemma mergeOwn_binds specifier named defaultImport (groups : list (string * ImportGroup)) :
  (∀ specifier group, (specifier, group) ∈ groups →
     Js.truthy_opt (ig_default group) = true ∨ ig_named group ≠ []) →
  Js.truthy_opt defaultImport = true ∨ named ≠ [] →
  ∀ specifier' group, (specifier', group) ∈ mergeOwn specifier named defaultImport groups →
    Js.truthy_opt (ig_default group) = true ∨ ig_named group ≠ [].
Proof.
  intros Hall Hr specifier' group Hin. unfold mergeOwn in Hin.
  apply alist_set_elem in Hin as [[= -> ->]|Hin]; [|by eapply Hall]. simpl.
  destruct (Js.truthy_opt defaultImport) eqn:Ht; [by left|].
  right. apply foldl_alist_set_not_nil. right. by destruct Hr.
Qed.

Lemma mergeRewrittenImport_binds st r st' :
  (∀ specifier group, (specifier, group) ∈ st.2 →
     Js.truthy_opt (ig_default group) = true ∨ ig_named group ≠ []) →
  Js.truthy_opt (ri_defaultImport r) = true ∨ ri_named r ≠ [] →
  mergeRewrittenImport st r = Return st' →
  ∀ specifier group, (specifier, group) ∈ st'.2 →
    Js.truthy_opt (ig_default group) = true ∨ ig_named group ≠ [].
Proof.
  intros Hall Hr Hrun. destruct st' as [prototypeDefault' importGroups'].
  apply mergeGroup_returns in Hrun as [->| ->]; [done|]. by apply mergeOwn_binds.
Qed.

Lemma mergeRewrittenImports_bind rs :
  ∀ st st',
    (∀ specifier group, (specifier, group) ∈ st.2 →
       Js.truthy_opt (ig_default group) = true ∨ ig_named group ≠ []) →
    (∀ r, r ∈ rs → Js.truthy_opt (ri_defaultImport r) = true ∨ ri_named r ≠ []) →
    forEachR mergeRewrittenImport rs st = Return st' →
    ∀ specifier group, (specifier, group) ∈ st'.2 →
      Js.truthy_opt (ig_default group) = true ∨ ig_named group ≠ [].
Proof.
  induction rs as [|r rs IH]; intros st st' Hg Hrs Hrun; simpl in Hrun; [by simplify_eq|].
  destruct (mergeRewrittenImport st r) as [st1| |] eqn:E; simpl in Hrun; [|done|done].
  eapply (IH st1 st'); [|by intros r' Hr'; apply Hrs; right|done].
  eapply mergeRewrittenImport_binds; [done| |done]. apply Hrs. by left.
Qed.

Lemma residualImport_binds moduleSpecifier keptNamed :
  keptNamed ≠ [] → bindsSomething (residualImport moduleSpecifier keptNamed).
Proof. intros Hne. right. unfold residualImport. simpl. by destruct keptNamed. Qed.

Lemma rewriteImport_invariant sourceFile aliasPrefixes paths st imp st' :
  imp ∈ getImportDeclarations sourceFile →
  rewriteImport host files sourceFile aliasPrefixes paths st imp = Return st' →
  loopInvariant host files sourceFile aliasPrefixes paths st →
  loopInvariant host files sourceFile aliasPrefixes paths st'.
Proof.
  intros Himp Hrun Hinv.
  assert (¬ (settledImport host files sourceFile aliasPrefixes paths imp.2
             ∧ fs_importsToRemove st' ≠ fs_importsToRemove st)) as Hsettled.
  { intros [Hs Hne]. rewrite (rewriteImport_settled host files _ _ _ st imp Hs) in Hrun.
    by simplify_eq. }
  destruct Hinv as (H1 & H2 & H3 & H4 & H5 & H6).
  unfold rewriteImport in Hrun.
  destruct (negb (isLocalImport aliasPrefixes _)); [by result_inv|].
  destruct (importTarget host files sourceFile _) as [declarations|]; [|by result_inv].
  destruct (negb (isBarrel declarations)); [by result_inv|].
  destruct (getReExportMap host files declarations) as [reExportMap|]; [|done].
  destruct (processImportDeclaration host imp.2 declarations sourceFile _ reExportMap paths
              (fs_statements st)) as [[result stmts]| |] eqn:Hp; result_inv.
  destruct (processImportDeclaration_outcome _ _ _ _ _ _ _ _ _ Hp)
    as [(Hc & -> & _)|(Hc & Hstmts & Hrs)]; rewrite Hc in *; simplify_eq.
  { by destruct st. }
  destruct (forEachR mergeRewrittenImport (pr_rewrittenImports result) _)
    as [[prototypeDefault importGroups]| |] eqn:Hmerge; simplify_eq.
  simpl in *.
  assert ((∀ i d, sf_statements sourceFile !! i = Some (ImportStmt d) →
                  stmts !! i = Some (ImportStmt d))
          ∧ otherStatements stmts = otherStatements (sf_statements sourceFile)
          ∧ (∀ stmt, stmt ∈ stmts →
               stmt ∈ sf_statements sourceFile ∨ ∃ d, stmt = ImportStmt d ∧ bindsSomething d))
    as (H1' & H2' & H6').
  { destruct Hstmts as [->|(keptNamed & Hne & ->)]; [done|].
    split; [|split].
    - intros i d Hi. by apply addImportDeclaration_lookup, H1.
    - by rewrite otherStatements_add.
    - intros stmt [->|Hin]%addImportDeclaration_elem; [|by apply H6].
      right. eexists. split; [done|]. by apply residualImport_binds. }
  split; [done|]. split; [done|]. split; [|split; [done|split; [|done]]].
  - intros j [Hj | ->%list_elem_of_singleton]%elem_of_app; [by apply H3|].
    destruct imp as [i d]. apply getImportDeclarations_elem in Himp.
    exists d. split; [done|]. intros Hs. apply Hsettled. split; [done|]. simpl.
    intros Heq. apply (f_equal length) in Heq. rewrite length_app in Heq. simpl in Heq. lia.
  - by apply (mergeRewrittenImports_bind _ (fs_prototypeDefault st, fs_importGroups st) _
                H5 Hrs Hmerge).
Qed.

Lemma rewriteImports_invariant prototypeDefault sourceFile aliasPrefixes paths st :
  forEachR (rewriteImport host files sourceFile aliasPrefixes paths)
           (getImportDeclarations sourceFile)
           {| fs_statements := sf_statements sourceFile;
              fs_importGroups := [];
              fs_importsToRemove := [];
              fs_changed := false;
              fs_prototypeDefault := prototypeDefault |} = Return st →
  loopInvariant host files sourceFile aliasPrefixes paths st.
Proof.
  intros H.
  eapply (forEachR_invariant_in _ (loopInvariant host files sourceFile aliasPrefixes paths));
    [|exact H|].
  - intros s x s' Hx. by apply rewriteImport_invariant.
  - unfold loopInvariant. simpl. split; [done|]. split; [done|].
    split; [by intros j ?%elem_of_nil|]. split; [done|].
    split; [by intros ?? ?%elem_of_nil|]. intros stmt Hin. by left.
Qed.

Lemma otherStatements_addGroups (groups : list (string * ImportGroup)) :
  ∀ stmts,
    otherStatements (foldl (λ acc entry, addImportDeclaration (groupImport entry) acc)
                           stmts groups)
    = otherStatements stmts.
Proof.
  induction groups as [|g groups IH]; intros stmts; simpl; [done|].
  by rewrite IH, otherStatements_add.
Qed.

(** X10: [rewriteImportsInFile] leaves the statements that are no import
    declarations as they are, in their order, and the path of the file. *)
Theorem rewriteImportsInFile_keeps_other_statements
    sourceFile aliasPrefixes paths isDryRun outcome :
  rewriteImportsInFile host files sourceFile aliasPrefixes paths isDryRun = Return outcome →
  otherStatements (sf_statements (ro_sourceFile outcome))
  = otherStatements (sf_statements sourceFile)
  ∧ sf_filePath (ro_sourceFile outcome) = sf_filePath sourceFile.
Proof.
  intros H. apply rewriteImportsInFile_returned in H as (st & Hloop & ->).
  simpl. split; [|done].
  destruct (rewriteImports_invariant _ _ _ _ _ Hloop) as (H1 & H2 & H3 & _).
  rewrite otherStatements_addGroups, otherStatements_remove; [done|].
  intros i Hi. destruct (H3 i Hi) as (d & Hd & _). eauto.
Qed.

(** X11: An import declaration that is settled (not local, or with a target
    that is not found or is no barrel, or with bindings that all resolve to
    its own specifier or have no declaration in the target) is still a
    statement of the file after the run. *)
Theorem rewriteImportsInFile_keeps_settled_imports
    sourceFile aliasPrefixes paths isDryRun outcome i importDecl :
  rewriteImportsInFile host files sourceFile aliasPrefixes paths isDryRun = Return outcome →
  sf_statements sourceFile !! i = Some (ImportStmt importDecl) →
  settledImport host files sourceFile aliasPrefixes paths importDecl →
  ImportStmt importDecl ∈ sf_statements (ro_sourceFile outcome).
Proof.
  intros H Hi Hs. apply rewriteImportsInFile_returned in H as (st & Hloop & ->).
  simpl.
  destruct (rewriteImports_invariant _ _ _ _ _ Hloop) as (H1 & _ & H3 & _).
  rewrite addGroupImports_Permutation. apply elem_of_app. right.
  apply removeStatements_elem. exists i. split; [by apply H1|].
  intros Hin. destruct (H3 i Hin) as (d & Hd & Hns). rewrite Hi in Hd. by simplify_eq.
Qed.

(** X12: Every statement of the file after the run is a statement of the file
    before it or an import declaration with a default import or a named
    binding: the run adds no import without bindings and no other
    statement. *)
Theorem rewriteImportsInFile_adds_binding_imports
    sourceFile aliasPrefixes paths isDryRun outcome :
  rewriteImportsInFile host files sourceFile aliasPrefixes paths isDryRun = Return outcome →
  ∀ stmt, stmt ∈ sf_statements (ro_sourceFile outcome) →
          stmt ∈ sf_statements sourceFile ∨ ∃ d, stmt = ImportStmt d ∧ bindsSomething d.
Proof.
  intros H. apply rewriteImportsInFile_returned in H as (st & Hloop & ->).
  simpl.
  destruct (rewriteImports_invariant _ _ _ _ _ Hloop) as (_ & _ & _ & _ & H5 & H6).
  intros stmt Hin. rewrite addGroupImports_Permutation in Hin.
  apply elem_of_app in Hin as [Hin|Hin].
  - apply list_elem_of_fmap in Hin as (entry & -> & Hentry).
    apply (proj1 (elem_of_Object_entries _ _)) in Hentry.
    right. eexists. split; [done|]. destruct entry as [specifier group].
    destruct (H5 _ _ Hentry) as [Hd|Hn]; [by left|].
    right. unfold groupImport. simpl. by destruct (ig_named group).
  - apply removeStatements_elem in Hin as (i & Hi & _).
    apply H6. by eapply list_elem_of_lookup_2.
Qed.

End RewriteLoop.

Lemma rewriteImportsInFile_keeps_other_statements_witness :
  rewriteImportsInFile Fixture.host Fixture.files mixed [] [] false
  = Return {| ro_sourceFile := mixed1; ro_changed := true; ro_saved := true |}
  ∧ otherStatements (sf_statements mixed1) = otherStatements (sf_statements mixed)
  ∧ sf_filePath mixed1 = sf_filePath mixed.
Proof.
  split; [vm_compute; reflexivity|].
  apply (rewriteImportsInFile_keeps_other_statements Fixture.host Fixture.files mixed [] [] false
           {| ro_sourceFile := mixed1; ro_changed := true; ro_saved := true |}).
  vm_compute; reflexivity.
Defined.

Lemma rewriteImportsInFile_keeps_settled_imports_witness :
  settledImport Fixture.host Fixture.files mixed [] [] reactImport
  ∧ ImportStmt reactImport ∈ sf_statements mixed1.
Proof.
  split; [by left|].
  apply (rewriteImportsInFile_keeps_settled_imports Fixture.host Fixture.files mixed [] [] false
           {| ro_sourceFile := mixed1; ro_changed := true; ro_saved := true |} 0 reactImport).
  - vm_compute; reflexivity.
  - reflexivity.
  - by left.
Defined.

Lemma rewriteImportsInFile_adds_binding_imports_witness :
  ImportStmt (residualImport "./modules" [{| is_name := "missing"; is_alias := None |}])
    ∈ sf_statements Fixture.importExample
  ∨ ∃ d, ImportStmt (residualImport "./modules" [{| is_name := "missing"; is_alias := None |}])
         = ImportStmt d ∧ bindsSomething d.
Proof.
  apply (rewriteImportsInFile_adds_binding_imports Fixture.host Fixture.files
           Fixture.importExample [] [] false
           {| ro_sourceFile := Fixture.importExample1; ro_changed := true; ro_saved := true |}).
  - vm_compute; reflexivity.
  - vm_compute. set_solver.
Defined.

(** ** The whole run

    With plain aliases every specifier the program computes begins with
    [.], with [/] or with the first character of an alias, so that the
    plain object [importGroups] is read as a map and the run returns. *)

Lemma plainHead_not_member s : plainHead s = true → s ∉ objectPrototypeKeys.
Proof.
  intros H Hin. unfold objectPrototypeKeys in Hin.
  repeat (apply elem_of_cons in Hin as [->|Hin]); try (by vm_compute in H).
  by apply elem_of_nil in Hin.
Qed.

Lemma plainHead_backslashesToSlashes s :
  plainHead s = true → plainHead (Js.backslashesToSlashes s) = true.
Proof.
  destruct s as [|c s]; [done|]. simpl. by destruct (Ascii.eqb c "\").
Qed.

Lemma stripTsExtension_head s :
  Js.stripTsExtension s = "" ∨ plainHead (Js.stripTsExtension s) = plainHead s.
Proof.
  assert (∀ n, substring 0 n s = "" ∨ plainHead (substring 0 n s) = plainHead s) as H.
  { intros [|n]; destruct s; simpl; auto. }
  unfold Js.stripTsExtension. repeat case_match; auto.
Qed.

Lemma index_of_prefix pat s : String.prefix pat s = true → String.index 0 pat s = Some 0.
Proof.
  intros H. destruct s as [|c s].
  - by destruct pat.
  - cbn [String.index]. by rewrite H.
Qed.

Lemma replace_prefix_head s pat c rep :
  Js.startsWith s pat = true → Ascii.eqb c "$" = false →
  ∃ rest, Js.replace s pat (String c rep) = String c rest.
Proof.
  intros Hp Hc. unfold Js.replace. rewrite (index_of_prefix _ _ Hp).
  assert (substring 0 0 s = "") as -> by (by destruct s).
  cbn [Js.getSubstitution append]. rewrite Hc. eauto.
Qed.

Section PlainSpecifiers.

Context (host : Host) (files : list SourceFile).

Lemma resolveAlias_plain paths p s :
  aliasesPlain paths →
  resolveAlias host paths p = Return (Some s) → s = "" ∨ plainHead s = true.
Proof.
  induction 1 as [|[alias basePaths] paths Ha _ IH]; simpl; [done|].
  destruct basePaths as [[|base0 bs]|]; [done| |done].
  destruct (Js.startsWith p _) eqn:Hp; [|done]. intros [= <-].
  unfold plainAlias in Ha. simpl in Ha.
  destruct (Js.replace alias "/*" "") as [|c rep]; [done|].
  apply andb_true_iff in Ha as [Hc Hd]. apply negb_true_iff in Hd.
  destruct (replace_prefix_head p _ c rep Hp Hd) as [rest ->].
  destruct (stripTsExtension_head (String c rest)) as [->|Hh]; [by left|].
  right. apply plainHead_backslashesToSlashes. by rewrite Hh.
Qed.

Lemma getRelativePath_plain from to : plainHead (getRelativePath host from to) = true.
Proof.
  unfold getRelativePath. apply plainHead_backslashesToSlashes.
  destruct (Js.startsWith _ ".") eqn:Hp; [|done].
  unfold Js.startsWith in Hp.
  destruct (Js.stripTsExtension _) as [|c rest]; [done|]. cbn [String.prefix] in Hp.
  destruct (ascii_dec "." c) as [<-|]; [by vm_compute|done].
Qed.

(** With plain aliases no specifier the program computes is a member name
    of [Object.prototype]. *)
Lemma resolvedSpecifier_plain paths sf p s :
  aliasesPlain paths →
  resolvedSpecifier host paths sf p = Return s → s ∉ objectPrototypeKeys.
Proof.
  intros Ha H. apply plainHead_not_member. unfold resolvedSpecifier in H.
  destruct (resolveAlias host paths p) as [[a|]| |] eqn:E; result_inv; simpl.
  - destruct (resolveAlias_plain _ _ _ Ha E) as [->|Hh]; simpl; [apply getRelativePath_plain|].
    by destruct a.
  - apply getRelativePath_plain.
Qed.

Lemma processNamedImport_plain declarations sourceFile moduleSpecifier reExportMap paths
    st ni st' :
  aliasesPlain paths →
  processNamedImport host declarations sourceFile moduleSpecifier reExportMap paths st ni
  = Return st' →
  (∀ entry, entry ∈ ps_rewrittenBySpecifier st → entry.1 ∉ objectPrototypeKeys) →
  ∀ entry, entry ∈ ps_rewrittenBySpecifier st' → entry.1 ∉ objectPrototypeKeys.
Proof.
  intros Ha H Hst. unfold processNamedImport in H.
  destruct (alist_get (is_name ni) (sf_exportedDeclarations declarations) ≫= head)
    as [resolvedFile|]; [|by result_inv].
  destruct (resolvedSpecifier host paths sourceFile resolvedFile) as [resolved| |] eqn:E;
    result_inv.
  case_decide; simplify_eq; [|done]. simpl.
  intros entry [->|Hin]%alist_set_elem; [|by apply Hst].
  simpl. by eapply resolvedSpecifier_plain.
Qed.

Lemma processImportDeclaration_plain
    importDecl declarations sourceFile moduleSpecifier reExportMap paths stmts result stmts' :
  aliasesPlain paths →
  processImportDeclaration host importDecl declarations sourceFile moduleSpecifier
    reExportMap paths stmts = Return (result, stmts') →
  ∀ r, r ∈ pr_rewrittenImports result → ri_specifier r ∉ objectPrototypeKeys.
Proof.
  intros Ha H. unfold processImportDeclaration in H.
  destruct (processBindings host importDecl declarations sourceFile moduleSpecifier
              reExportMap paths) as [st| |] eqn:Hst; result_inv.
  assert (∀ entry, entry ∈ ps_rewrittenBySpecifier st → entry.1 ∉ objectPrototypeKeys)
    as Hplain.
  { unfold processBindings in Hst.
    destruct (processDefaultImport host importDecl declarations sourceFile moduleSpecifier
                paths) as [st0| |] eqn:Hd; result_inv.
    eapply (forEachR_invariant _
              (λ st, ∀ entry, entry ∈ ps_rewrittenBySpecifier st
                              → entry.1 ∉ objectPrototypeKeys)); [|exact Hst|].
    - intros s x s' Hx. by eapply processNamedImport_plain.
    - unfold processDefaultImport in Hd. cbv zeta in Hd.
      destruct (Js.truthy_opt (id_defaultImport importDecl));
        [|by result_inv; simpl; intros ? ?%elem_of_nil].
      destruct (sf_defaultExportDeclarations declarations ≫= head) as [resolvedFile|];
        [|by result_inv; simpl; intros ? ?%elem_of_nil].
      destruct (resolvedSpecifier host paths sourceFile resolvedFile) as [resolved| |] eqn:E;
        result_inv.
      destruct (decide (resolved ≠ moduleSpecifier)); result_inv; simpl;
        [|by intros ? ?%elem_of_nil].
      intros entry ->%list_elem_of_singleton. simpl. by eapply resolvedSpecifier_plain. }
  destruct (ps_changed st); simplify_eq; simpl; [|by intros ? ?%elem_of_nil].
  intros r ([specifier e] & -> & Hin)%list_elem_of_fmap. simpl. by apply (Hplain _ Hin).
Qed.

Lemma rewriteImport_returns sourceFile aliasPrefixes paths st imp :
  pathsWellFormed paths → aliasesPlain paths → fs_prototypeDefault st = None →
  ∃ st', rewriteImport host files sourceFile aliasPrefixes paths st imp = Return st'
         ∧ fs_prototypeDefault st' = None.
Proof.
  intros Hwf Ha Hnone. unfold rewriteImport.
  destruct (negb (isLocalImport _ _)); [by eauto|].
  destruct (importTarget host files sourceFile _) as [declarations|]; [|by eauto].
  destruct (negb (isBarrel declarations)); [by eauto|].
  destruct (getReExportMap_returns host files declarations) as [reExportMap ->].
  destruct (processImportDeclaration_returns host imp.2 declarations sourceFile
              (id_moduleSpecifierValue imp.2) reExportMap paths (fs_statements st) Hwf)
    as [[result stmts] Hp].
  rewrite Hp. cbv beta iota delta [mbind Result_bind mret Result_ret].
  destruct (pr_changed result); [|by eauto].
  rewrite Hnone, mergeRewrittenImports_own
    by (by eapply processImportDeclaration_plain).
  by eauto.
Qed.

(** On an alias table without an empty array of base paths and with
    plain aliases, the rewrite of a file returns: no exception, and every
    export map is built. *)
Lemma rewriteImportsInFileFrom_returns sourceFile aliasPrefixes paths isDryRun :
  pathsWellFormed paths → aliasesPlain paths →
  ∃ outcome,
    rewriteImportsInFileFrom host files None sourceFile aliasPrefixes paths isDryRun
    = Return (outcome, None).
Proof.
  intros Hwf Ha. unfold rewriteImportsInFileFrom.
  assert (∀ l st, fs_prototypeDefault st = None →
                  ∃ st', forEachR (rewriteImport host files sourceFile aliasPrefixes paths) l st
                         = Return st' ∧ fs_prototypeDefault st' = None) as Hloop.
  { induction l as [|imp l IH]; intros st Hst; simpl; [by eauto|].
    destruct (rewriteImport_returns sourceFile aliasPrefixes paths st imp Hwf Ha Hst)
      as (st1 & -> & Hst1).
    cbv beta iota delta [mbind Result_bind]. by apply IH. }
  edestruct (Hloop (getImportDeclarations sourceFile)) as (st & -> & Hst); [done|].
  cbv beta iota delta [mbind Result_bind mret Result_ret]. rewrite Hst. eauto.
Qed.

End PlainSpecifiers.

Lemma runBarrelBreaker_loop host pf aliasPrefixes paths isDryRun sourceFiles :
  pathsWellFormed paths → aliasesPlain paths →
  ∀ files done,
    ∃ files' outcomes,
      forEachR (rewriteNext host pf aliasPrefixes paths isDryRun)
               sourceFiles (files, None, done)
      = Return (files', None, (done ++ outcomes)%list)
      ∧ outcomesInTurn host pf aliasPrefixes paths isDryRun files sourceFiles outcomes.
Proof.
  intros Hwf Ha. induction sourceFiles as [|collected sourceFiles IH]; intros files acc.
  - exists files, []. by rewrite app_nil_r.
  - cbn [forEachR]. unfold rewriteNext at 2.
    set (sourceFile := default collected (findSourceFile files (sf_filePath collected))).
    destruct (rewriteImportsInFileFrom_returns host files sourceFile aliasPrefixes paths
                isDryRun Hwf Ha) as [outcome Ho].
    rewrite Ho. cbv beta iota delta [mbind Result_bind mret Result_ret].
    destruct (IH (if ro_changed outcome then projectAfter pf (ro_sourceFile outcome) files
                  else files) (acc ++ [outcome])%list) as (files' & outcomes & Hrun & Hturn).
    exists files', (outcome :: outcomes). split; [by rewrite Hrun, <- app_assoc|].
    assert (rewriteImportsInFile host files sourceFile aliasPrefixes paths isDryRun
            = Return outcome) as Hfile by (unfold rewriteImportsInFile; by rewrite Ho).
    assert (sf_filePath (ro_sourceFile outcome) = sf_filePath collected) as Hpath.
    { destruct (rewriteImportsInFile_returned host files _ _ _ _ _ Hfile) as (st & _ & ->).
      cbn [ro_sourceFile sf_filePath]. unfold sourceFile.
      destruct (findSourceFile files (sf_filePath collected)) as [sf|] eqn:E; [|done].
      simpl. by apply findSourceFile_Some in E as [? _]. }
    cbn [outcomesInTurn]. fold sourceFile.
    split; [done|]. split; [done|]. split.
    { by destruct (rewriteImportsInFile_returned host files _ _ _ _ _ Hfile) as (st & _ & ->). }
    unfold projectAfter, replaceFile in Hturn. by rewrite Hpath in Hturn.
Qed.

(** X13: When the project loads, tsconfig.json is read and parsed, the paths
    table has no alias with an empty array, every alias in it, the [/*]
    taken off, is not empty and begins neither with a first character of a
    member name of [Object.prototype] nor with [$], and the source files are
    collected, [runBarrelBreaker] returns.  There is one outcome per
    collected file, in order: that of [rewriteImportsInFile] on the file of
    that path in the project (to which the collected files have been
    added) as the calls before it left it, a changed file standing in the
    project as rewritten (also in a dry run) and the checker being asked
    anew.  The outcome keeps the path of the file, and
    the file is saved exactly when it changed and the run is no dry run. *)
Theorem runBarrelBreaker_returns
    host pf inputPath isDryRun tsconfigPath files text tsconfig sourceFiles :
  newProject pf (Some tsconfigPath) = Return files →
  textFiles pf !! tsconfigPath = Some text →
  JSON_parse pf text = Return tsconfig →
  pathsWellFormed (pathsOf tsconfig) →
  aliasesPlain (pathsOf tsconfig) →
  collectSourceFiles pf inputPath = Return sourceFiles →
  ∃ outcomes,
    runBarrelBreaker host pf inputPath isDryRun tsconfigPath = Return outcomes
    ∧ outcomesInTurn host pf (aliasPrefixesOf (pathsOf tsconfig)) (pathsOf tsconfig) isDryRun
        (foldl (λ project sourceFile,
                  if decide (is_Some (findSourceFile project (sf_filePath sourceFile)))
                  then project else (project ++ [sourceFile])%list)
               files sourceFiles)
        sourceFiles outcomes.
Proof.
  intros Hproject Htext Hparse Hwf Ha Hcollect.
  unfold runBarrelBreaker, readFileSync. rewrite Hproject, Htext.
  cbv beta iota delta [mbind Result_bind]. rewrite Hparse, Hcollect.
  cbv beta iota delta [mbind Result_bind].
  destruct (runBarrelBreaker_loop host pf (aliasPrefixesOf (pathsOf tsconfig))
              (pathsOf tsconfig) isDryRun sourceFiles Hwf Ha
              (addSourceFiles sourceFiles files) [])
    as (files' & outcomes & Hrun & Hturn).
  exists outcomes. split; [|done]. by rewrite Hrun.
Qed.

Lemma runBarrelBreaker_returns_witness :
  ∃ outcomes,
    runBarrelBreaker InPlace.host InPlace.platform "/p" true "/p/tsconfig.json" = Return outcomes
    ∧ outcomesInTurn InPlace.host InPlace.platform ["@app"] InPlace.paths true
        InPlace.files [InPlace.U; InPlace.V] outcomes.
Proof.
  apply (runBarrelBreaker_returns InPlace.host InPlace.platform "/p" true "/p/tsconfig.json"
           InPlace.files InPlace.tsconfigText
           {| tc_compilerOptions := Some {| co_paths := Some InPlace.paths |} |}
           [InPlace.U; InPlace.V]).
  - reflexivity.
  - vm_compute; reflexivity.
  - reflexivity.
  - repeat constructor; done.
  - repeat constructor; vm_compute; reflexivity.
  - reflexivity.
Defined.

Example runBarrelBreaker_fixture :
  runBarrelBreaker Fixture.host plainTsconfig "/p" true "/p/tsconfig.json"
  = Return [{| ro_sourceFile := Fixture.importExample1; ro_changed := true; ro_saved := false |};
            {| ro_sourceFile := mixed1; ro_changed := true; ro_saved := false |}].
Proof. vm_compute. reflexivity. Qed.

(** A file rewritten earlier in the run is read as rewritten by the calls
    after it, also in a dry run: [V] is written against [U] as the run
    left it, not against [U] as loaded. *)
Example runBarrelBreaker_sees_earlier_rewrites :
  runBarrelBreaker InPlace.host InPlace.platform "/p" true "/p/tsconfig.json"
  = Return [{| ro_sourceFile := InPlace.U1; ro_changed := true; ro_saved := false |};
            {| ro_sourceFile := InPlace.V1; ro_changed := true; ro_saved := false |}]
  ∧ projectAfter InPlace.platform InPlace.U1 InPlace.files
    = [InPlace.U1'; InPlace.V; Chain.A; Chain.B; Chain.C; Chain.D]
  ∧ rewriteImportsInFile InPlace.host InPlace.files InPlace.V ["@app"] InPlace.paths true
    = Return {| ro_sourceFile := InPlace.V1alone; ro_changed := true; ro_saved := false |}.
Proof. repeat split; vm_compute; reflexivity. Qed.

(** ** Purging twice *)

Lemma filter_ext_in {A : Type} (P1 P2 : A → Prop)
    `{!∀ x, Decision (P1 x), !∀ x, Decision (P2 x)} (l : list A) :
  (∀ x, x ∈ l → (P1 x ↔ P2 x)) → filter P1 l = filter P2 l.
Proof.
  induction l as [|a l IH]; intros Hext; [done|].
  assert (filter P1 l = filter P2 l) as IH'
    by (apply IH; intros x Hx; apply Hext; by right).
  assert (P1 a ↔ P2 a) as Ha by (apply Hext; by left).
  destruct (decide (P1 a)) as [H1|H1].
  - rewrite !filter_cons_True by tauto. by rewrite IH'.
  - rewrite !filter_cons_False by tauto. done.
Qed.

Lemma NoDup_fmap_eq {A B : Type} (f : A → B) (l : list A) x y :
  NoDup (f <$> l) → x ∈ l → y ∈ l → f x = f y → x = y.
Proof.
  induction l as [|a l IH]; intros Hnd Hx Hy Hf; [by apply elem_of_nil in Hx|].
  rewrite fmap_cons in Hnd. apply NoDup_cons in Hnd as [Ha Hnd].
  apply elem_of_cons in Hx as [->|Hx]; apply elem_of_cons in Hy as [->|Hy]; [done| | |by apply IH].
  - exfalso. apply Ha. rewrite Hf. apply list_elem_of_fmap. eauto.
  - exfalso. apply Ha. rewrite <- Hf. apply list_elem_of_fmap. eauto.
Qed.

(** X14: After a purge that is no dry run, a second purge of the files that are
    left deletes nothing and warns about the same files as the first (the
    paths of the files being pairwise distinct). *)
Theorem purgeBarrels_twice (sourceFiles : list SourceFile) :
  NoDup (sf_filePath <$> sourceFiles) →
  purgeBarrels
    (filter (λ sf, sf_filePath sf ∉ po_deleted (purgeBarrels sourceFiles false)) sourceFiles)
    false
  = {| po_deleted := []; po_warned := po_warned (purgeBarrels sourceFiles false) |}.
Proof.
  intros Hnd.
  assert (∀ l, purgeBarrels l false
               = {| po_deleted := sf_filePath <$> filter (λ sf, isPureBarrelFile sf = true) l;
                    po_warned :=
                      sf_filePath <$>
                        filter (λ sf, (0 < length (getExportDeclarations sf))%nat
                                      ∧ isPureBarrelFile sf = false) l |}) as Hpurge.
  { intros l. unfold purgeBarrels. by rewrite (purgePartition_filter l). }
  rewrite (Hpurge sourceFiles). cbn [po_deleted po_warned].
  assert (filter (λ sf, sf_filePath sf
                        ∉ sf_filePath <$> filter (λ sf, isPureBarrelFile sf = true) sourceFiles)
                 sourceFiles
          = filter (λ sf, isPureBarrelFile sf = false) sourceFiles) as ->.
  { apply filter_ext_in. intros sf Hsf. split.
    - intros Hnot. destruct (isPureBarrelFile sf) eqn:Hp; [|done].
      exfalso. apply Hnot. apply list_elem_of_fmap. exists sf. split; [done|].
      by apply list_elem_of_filter.
    - intros Hp (sf' & Heq & [Hp' Hsf']%list_elem_of_filter)%list_elem_of_fmap.
      assert (sf = sf') as <- by (by eapply (NoDup_fmap_eq sf_filePath sourceFiles)).
      congruence. }
  rewrite Hpurge.
  rewrite !list_filter_filter.
  assert (filter (λ sf, isPureBarrelFile sf = true ∧ isPureBarrelFile sf = false) sourceFiles
          = []) as ->.
  { induction sourceFiles as [|sf sfs IH]; [done|].
    rewrite filter_cons_False; [|intros [? ?]; congruence].
    apply IH. rewrite fmap_cons in Hnd. by apply NoDup_cons in Hnd as [_ ?]. }
  simpl. do 2 f_equal. apply list_filter_iff. intros sf. naive_solver.
Qed.

Lemma purgeBarrels_twice_witness :
  purgeBarrels
    (filter (λ sf, sf_filePath sf
                   ∉ po_deleted (purgeBarrels [pureBarrel; impureBarrel; plainModule] false))
            [pureBarrel; impureBarrel; plainModule])
    false
  = {| po_deleted := [];
       po_warned := po_warned (purgeBarrels [pureBarrel; impureBarrel; plainModule] false) |}.
Proof.
  apply (purgeBarrels_twice [pureBarrel; impureBarrel; plainModule]).
  vm_compute. repeat constructor; set_solver.
Defined.

(** ** The imports a run leaves alone *)

Section Fixpoints.

Context (host : Host) (files : list SourceFile).

Lemma processNamedImport_kept_binding declarations sourceFile moduleSpecifier reExportMap paths
    st namedImport st' :
  processNamedImport host declarations sourceFile moduleSpecifier reExportMap paths st namedImport
  = Return st' →
  (ps_changed st' = false →
   ps_changed st = false
   ∧ keptBinding host declarations sourceFile moduleSpecifier paths namedImport)
  ∧ (Forall (keptBinding host declarations sourceFile moduleSpecifier paths) (ps_keptNamed st) →
     Forall (keptBinding host declarations sourceFile moduleSpecifier paths) (ps_keptNamed st')).
Proof.
  unfold processNamedImport, keptBinding. intros H.
  assert ({| is_name := is_name namedImport; is_alias := is_alias namedImport |} = namedImport)
    as Heta by (by destruct namedImport).
  destruct (alist_get (is_name namedImport) (sf_exportedDeclarations declarations) ≫= head)
    as [resolvedFile|] eqn:Ed.
  2:{ result_inv. simpl. split; [done|]. intros Hk. apply Forall_app. split; [done|].
      constructor; [|done]. simpl. by rewrite Ed. }
  destruct (resolvedSpecifier host paths sourceFile resolvedFile) as [resolved| |] eqn:Er;
    result_inv.
  case_decide as Hne; result_inv; simpl.
  - split; [done|done].
  - split.
    + intros Hc. split; [done|]. by intros f [= <-].
    + intros Hk. apply Forall_app. split; [done|]. constructor; [|done].
      simpl. rewrite Ed. by intros f [= <-].
Qed.

Lemma processNamedImports_kept_bindings declarations sourceFile moduleSpecifier reExportMap
    paths l :
  ∀ st st',
    forEachR (processNamedImport host declarations sourceFile moduleSpecifier reExportMap paths)
             l st = Return st' →
    (ps_changed st' = false →
     ps_changed st = false
     ∧ Forall (keptBinding host declarations sourceFile moduleSpecifier paths) l)
    ∧ (Forall (keptBinding host declarations sourceFile moduleSpecifier paths) (ps_keptNamed st) →
       Forall (keptBinding host declarations sourceFile moduleSpecifier paths)
              (ps_keptNamed st')).
Proof.
  induction l as [|x l IH]; intros st st' H; simpl in *.
  { simplify_eq. split; [|done]. intros ?. split; [done|constructor]. }
  destruct (processNamedImport host declarations sourceFile moduleSpecifier reExportMap paths
              st x) as [st1| |] eqn:E; simpl in H; [|done|done].
  destruct (processNamedImport_kept_binding _ _ _ _ _ _ _ _ E) as [H1 H2].
  destruct (IH _ _ H) as [H3 H4].
  split; [|by auto].
  intros Hc. destruct (H3 Hc) as [Hc1 Hl]. destruct (H1 Hc1) as [Hc0 Hx].
  split; [done|]. by constructor.
Qed.

Lemma processNamedImports_all_kept declarations sourceFile moduleSpecifier reExportMap paths l :
  Forall (keptBinding host declarations sourceFile moduleSpecifier paths) l →
  ∀ st, ∃ st',
    forEachR (processNamedImport host declarations sourceFile moduleSpecifier reExportMap paths)
             l st = Return st'
    ∧ ps_changed st' = ps_changed st
    ∧ ps_rewrittenBySpecifier st' = ps_rewrittenBySpecifier st.
Proof.
  induction 1 as [|ni l Hni _ IH]; intros st; simpl; [eauto|].
  assert (∃ st1, processNamedImport host declarations sourceFile moduleSpecifier reExportMap
                   paths st ni = Return st1
                 ∧ ps_changed st1 = ps_changed st
                 ∧ ps_rewrittenBySpecifier st1 = ps_rewrittenBySpecifier st)
    as (st1 & -> & Hc1 & Hr1).
  { unfold processNamedImport.
    destruct (alist_get (is_name ni) (sf_exportedDeclarations declarations) ≫= head)
      as [resolvedFile|] eqn:E; [|eauto].
    rewrite (Hni resolvedFile E).
    cbv beta iota delta [mbind Result_bind mret Result_ret].
    rewrite decide_False by (intros Hne; by apply Hne). eauto. }
  cbv beta iota delta [mbind Result_bind].
  destruct (IH st1) as (st' & -> & Hc & Hr). exists st'. split; [done|]. split; congruence.
Qed.

Lemma residualImport_unchanged
    importDecl declarations sourceFile moduleSpecifier reExportMap paths st stmts :
  processBindings host importDecl declarations sourceFile moduleSpecifier reExportMap paths
  = Return st →
  processImportDeclaration host (residualImport moduleSpecifier (ps_keptNamed st))
    declarations sourceFile moduleSpecifier reExportMap paths stmts
  = Return ({| pr_changed := false; pr_rewrittenImports := [] |}, stmts).
Proof.
  intros Hst. unfold processBindings in Hst.
  destruct (processDefaultImport host importDecl declarations sourceFile moduleSpecifier paths)
    as [st0| |] eqn:Hst0; result_inv.
  destruct (processDefaultImport_start _ _ _ _ _ _ _ Hst0) as [Hk0 _].
  destruct (processNamedImports_kept_bindings _ _ _ _ _ _ _ _ Hst) as [_ Hkept].
  rewrite Hk0 in Hkept. specialize (Hkept (Forall_nil_2 _)).
  unfold processImportDeclaration, processBindings, processDefaultImport.
  cbn [residualImport id_defaultImport id_namedImports Js.truthy_opt].
  cbv beta iota delta [mbind Result_bind mret Result_ret].
  destruct (processNamedImports_all_kept declarations sourceFile moduleSpecifier reExportMap paths
              ((λ k, {| is_name := is_name k;
                        is_alias := if Js.truthy_opt (is_alias k) then is_alias k else None |})
                 <$> ps_keptNamed st))
    with {| ps_rewrittenBySpecifier := []; ps_keptNamed := []; ps_changed := false |}
    as (st' & -> & Hc & _).
  { apply Forall_fmap. eapply Forall_impl; [exact Hkept|]. intros k Hk. exact Hk. }
  simpl in Hc. by rewrite Hc.
Qed.

(** X15: When [processImportDeclaration] reports a change, the residual import
    it adds for the kept bindings is one that [processImportDeclaration]
    itself, against the same barrel, leaves unchanged. *)
Theorem residualImport_is_settled
    importDecl declarations sourceFile moduleSpecifier reExportMap paths stmts result stmts' :
  processImportDeclaration host importDecl declarations sourceFile moduleSpecifier
    reExportMap paths stmts = Return (result, stmts') →
  pr_changed result = true →
  ∃ keptNamed,
    stmts' = (if decide (keptNamed = []) then stmts
              else addImportDeclaration (residualImport moduleSpecifier keptNamed) stmts)
    ∧ ∀ stmts2,
        processImportDeclaration host (residualImport moduleSpecifier keptNamed)
          declarations sourceFile moduleSpecifier reExportMap paths stmts2
        = Return ({| pr_changed := false; pr_rewrittenImports := [] |}, stmts2).
Proof.
  unfold processImportDeclaration at 1. intros H Hch.
  destruct (processBindings host importDecl declarations sourceFile moduleSpecifier
              reExportMap paths) as [st| |] eqn:Hst; result_inv.
  destruct (ps_changed st) eqn:Hc; simplify_eq.
  exists (ps_keptNamed st). split.
  - destruct (ps_keptNamed st) as [|k ks] eqn:Hk; repeat case_decide; simpl in *;
      try done; lia.
  - intros stmts2. by eapply residualImport_unchanged.
Qed.

Lemma processBindings_unchanged importDecl declarations sourceFile moduleSpecifier reExportMap
    paths st :
  processBindings host importDecl declarations sourceFile moduleSpecifier reExportMap paths
  = Return st →
  ps_changed st = false →
  (Js.truthy_opt (id_defaultImport importDecl) = true →
   ∀ resolvedFile,
     sf_defaultExportDeclarations declarations ≫= head = Some resolvedFile →
     resolvedSpecifier host paths sourceFile resolvedFile = Return moduleSpecifier)
  ∧ Forall (keptBinding host declarations sourceFile moduleSpecifier paths)
           (id_namedImports importDecl).
Proof.
  intros Hst Hc. unfold processBindings in Hst.
  destruct (processDefaultImport host importDecl declarations sourceFile moduleSpecifier paths)
    as [st0| |] eqn:Hst0; result_inv.
  destruct (processNamedImports_kept_bindings _ _ _ _ _ _ _ _ Hst) as [Hall _].
  destruct (Hall Hc) as [Hc0 Hl]. split; [|done].
  intros Ht f Hf. unfold processDefaultImport in Hst0.
  cbv beta iota delta [mbind] in Hst0. rewrite Ht, Hf in Hst0.
  destruct (resolvedSpecifier host paths sourceFile f) as [resolved| |]; result_inv.
  case_decide as Hne; result_inv; done.
Qed.

Lemma rewriteImport_unchanged_settled sourceFile aliasPrefixes paths st imp st' :
  rewriteImport host files sourceFile aliasPrefixes paths st imp = Return st' →
  fs_changed st' = false →
  fs_changed st = false ∧ settledImport host files sourceFile aliasPrefixes paths imp.2.
Proof.
  unfold rewriteImport, settledImport. intros H Hc.
  destruct (isLocalImport aliasPrefixes _) eqn:Hloc; simpl in H; [|result_inv; by eauto].
  destruct (importTarget host files sourceFile _) as [declarations|] eqn:Ht;
    [|result_inv; by eauto].
  destruct (isBarrel declarations) eqn:Hb; simpl in H; [|result_inv; by eauto 10].
  destruct (getReExportMap host files declarations) as [reExportMap|]; [|done].
  unfold processImportDeclaration in H.
  destruct (processBindings host imp.2 declarations sourceFile _ reExportMap paths)
    as [sb| |] eqn:Hsb; result_inv.
  destruct (ps_changed sb) eqn:Hcb; simpl in *.
  { destruct (forEachR mergeRewrittenImport _ _) as [[prototypeDefault importGroups]| |];
      result_inv; done. }
  result_inv; simpl in *.
  split; [done|]. right; right. exists declarations. split; [done|]. right.
  destruct (processBindings_unchanged _ _ _ _ _ _ _ Hsb Hcb) as [Hd Hn].
  split; [done|]. intros ni f Hin. rewrite Forall_forall in Hn. by apply Hn.
Qed.

Lemma rewriteImports_unchanged_settled sourceFile aliasPrefixes paths l :
  ∀ st st',
    forEachR (rewriteImport host files sourceFile aliasPrefixes paths) l st = Return st' →
    fs_changed st' = false →
    fs_changed st = false
    ∧ ∀ imp, imp ∈ l → settledImport host files sourceFile aliasPrefixes paths imp.2.
Proof.
  induction l as [|x l IH]; intros st st' H Hc; simpl in *.
  { simplify_eq. split; [done|]. by intros imp ?%elem_of_nil. }
  destruct (rewriteImport host files sourceFile aliasPrefixes paths st x) as [st1| |] eqn:E;
    simpl in H; [|done|done].
  destruct (IH _ _ H Hc) as [Hc1 Hl].
  destruct (rewriteImport_unchanged_settled _ _ _ _ _ _ E Hc1) as [Hc0 Hx].
  split; [done|]. intros imp [->|Hin]%elem_of_cons; [done|by apply Hl].
Qed.

(** X16: [rewriteImportsInFile] reports no change exactly when every import
    declaration of the file is settled; the file is then returned as it
    was and is not saved. *)
Theorem rewriteImportsInFile_unchanged_iff sourceFile aliasPrefixes paths isDryRun outcome :
  rewriteImportsInFile host files sourceFile aliasPrefixes paths isDryRun = Return outcome →
  (ro_changed outcome = false ↔
   ∀ imp, imp ∈ getImportDeclarations sourceFile →
          settledImport host files sourceFile aliasPrefixes paths imp.2)
  ∧ (ro_changed outcome = false → ro_sourceFile outcome = sourceFile ∧ ro_saved outcome = false).
Proof.
  intros H. split; [split|].
  - intros Hc. apply rewriteImportsInFile_returned in H as (st & Hloop & ->).
    simpl in Hc. by destruct (rewriteImports_unchanged_settled _ _ _ _ _ _ Hloop Hc).
  - intros Hall.
    rewrite (rewriteImportsInFile_settled host files _ _ _ isDryRun Hall) in H.
    by simplify_eq.
  - intros Hch. apply rewriteImportsInFile_returned in H as (st & Hloop & ->).
    simpl in *.
    destruct (rewriteImports_invariant _ _ _ _ _ _ _ Hloop) as (_ & _ & _ & H4 & _).
    destruct (H4 Hch) as (-> & -> & ->). rewrite Hch. simpl.
    rewrite removeStatements_nil. by destruct sourceFile.
Qed.

End Fixpoints.

Lemma residualImport_is_settled_witness :
  ∃ keptNamed,
    [importNamed [("named", None); ("nested", None); ("missing", None)] "./modules";
     importNamed [("missing", None)] "./modules"]
    = (if decide (keptNamed = []) then sf_statements Fixture.importExample
       else addImportDeclaration (residualImport "./modules" keptNamed)
              (sf_statements Fixture.importExample))
    ∧ ∀ stmts2,
        processImportDeclaration Fixture.host (residualImport "./modules" keptNamed)
          Fixture.modulesIndex Fixture.importExample "./modules" Fixture.mapOfIndex [] stmts2
        = Return ({| pr_changed := false; pr_rewrittenImports := [] |}, stmts2).
Proof.
  apply (residualImport_is_settled Fixture.host Fixture.theImport Fixture.modulesIndex
           Fixture.importExample "./modules" Fixture.mapOfIndex []
           (sf_statements Fixture.importExample) rewrittenOfFixture).
  - vm_compute; reflexivity.
  - reflexivity.
Defined.

Lemma rewriteImportsInFile_unchanged_iff_witness :
  (false = false ↔
   ∀ imp, imp ∈ getImportDeclarations Fixture.importExample1 →
          settledImport Fixture.host1 Fixture.files1 Fixture.importExample1 [] [] imp.2)
  ∧ (false = false → Fixture.importExample1 = Fixture.importExample1 ∧ false = false).
Proof.
  apply (rewriteImportsInFile_unchanged_iff Fixture.host1 Fixture.files1 Fixture.importExample1
           [] [] false
           {| ro_sourceFile := Fixture.importExample1; ro_changed := false; ro_saved := false |}).
  vm_compute; reflexivity.
Defined.

(** ** A second run *)

Lemma insertAfterLastImport_lookup_inv d stmts :
  ∀ stmts' j d0, insertAfterLastImport d stmts = Some stmts' →
                 stmts' !! j = Some (ImportStmt d0) →
                 d0 = d ∨ stmts !! j = Some (ImportStmt d0).
Proof.
  induction stmts as [|st rest IH]; intros stmts' j d0 H Hj; simpl in H; [done|].
  destruct (insertAfterLastImport d rest) as [rest'|] eqn:E.
  - simplify_eq. destruct j as [|j]; simpl in *; [by right|]. by eapply IH.
  - destruct st as [imp|ex|text]; simplify_eq.
    destruct j as [|[|j]]; simpl in *; [by right|left; congruence|].
    by destruct (insertAfterLastImport_None _ _ E j d0).
Qed.

Lemma addImportDeclaration_lookup_inv d stmts j d0 :
  addImportDeclaration d stmts !! j = Some (ImportStmt d0) →
  d0 = d ∨ stmts !! j = Some (ImportStmt d0).
Proof.
  unfold addImportDeclaration.
  destruct (insertAfterLastImport d stmts) as [stmts'|] eqn:E.
  - by apply insertAfterLastImport_lookup_inv.
  - destruct j as [|j]; simpl; [left; congruence|].
    intros Hj. by destruct (insertAfterLastImport_None _ _ E j d0).
Qed.

Lemma mergeRewrittenImports_keys rs :
  ∀ st st',
    forEachR mergeRewrittenImport rs st = Return st' →
    ∀ k, k ∈ st'.2.*1 → k ∈ st.2.*1 ∨ ∃ r, r ∈ rs ∧ ri_specifier r = k.
Proof.
  induction rs as [|r rs IH]; intros st st' H k Hk; simpl in H; [simplify_eq; by left|].
  destruct (mergeRewrittenImport st r) as [[prototypeDefault importGroups]| |] eqn:E;
    simpl in H; [|done|done].
  destruct (IH _ _ H k Hk) as [Hin|(r' & Hr' & <-)].
  - apply mergeGroup_returns in E as [->| ->]; [by left|].
    unfold mergeOwn in Hin. apply alist_set_key_iff in Hin as [->|Hin]; [|by left].
    right. exists r. split; [by left|done].
  - right. exists r'. split; [by right|done].
Qed.

Section SecondRun.

Context (host : Host) (files : list SourceFile).

Lemma settledImport_path sourceFile sourceFile' aliasPrefixes paths importDecl :
  sf_filePath sourceFile = sf_filePath sourceFile' →
  settledImport host files sourceFile aliasPrefixes paths importDecl →
  settledImport host files sourceFile' aliasPrefixes paths importDecl.
Proof.
  unfold settledImport, importTarget, resolvedSpecifier. intros Hp. by rewrite Hp.
Qed.

Lemma residualImport_settled importDecl declarations sourceFile aliasPrefixes reExportMap
    paths st :
  isLocalImport aliasPrefixes (id_moduleSpecifierValue importDecl) = true →
  importTarget host files sourceFile (id_moduleSpecifierValue importDecl) = Some declarations →
  processBindings host importDecl declarations sourceFile (id_moduleSpecifierValue importDecl)
    reExportMap paths = Return st →
  settledImport host files sourceFile aliasPrefixes paths
    (residualImport (id_moduleSpecifierValue importDecl) (ps_keptNamed st)).
Proof.
  intros Hloc Ht Hst. unfold settledImport. cbn [residualImport id_moduleSpecifierValue].
  right; right. exists declarations. split; [done|]. right.
  cbn [id_defaultImport id_namedImports Js.truthy_opt]. split; [done|].
  unfold processBindings in Hst.
  destruct (processDefaultImport host importDecl declarations sourceFile _ paths)
    as [st0| |] eqn:Hst0; result_inv.
  destruct (processDefaultImport_start _ _ _ _ _ _ _ Hst0) as [Hk0 _].
  destruct (processNamedImports_kept_bindings _ _ _ _ _ _ _ _ _ Hst) as [_ Hkept].
  rewrite Hk0 in Hkept. specialize (Hkept (Forall_nil_2 _)).
  intros ni f (k & -> & Hk)%list_elem_of_fmap. simpl.
  rewrite Forall_forall in Hkept. by apply Hkept.
Qed.

Lemma rewriteImport_imports sourceFile aliasPrefixes paths handled st imp st' :
  rewriteImport host files sourceFile aliasPrefixes paths st imp = Return st' →
  importsInvariant host files sourceFile aliasPrefixes paths handled st →
  importsInvariant host files sourceFile aliasPrefixes paths (handled ++ [imp]) st'.
Proof.
  intros Hrun [H1 H2].
  assert (∀ toRemove' : list nat,
            (∀ j, j ∈ fs_importsToRemove st → j ∈ toRemove') →
            imp.1 ∈ toRemove'
            ∨ settledImport host files sourceFile aliasPrefixes paths imp.2 →
            ∀ x, x ∈ (handled ++ [imp])%list →
                 x.1 ∈ toRemove'
                 ∨ settledImport host files sourceFile aliasPrefixes paths x.2) as Hhandled.
  { intros toRemove' Hsub Himp x [Hx | ->%list_elem_of_singleton]%elem_of_app; [|done].
    destruct (H2 x Hx) as [?|?]; [left; by apply Hsub|by right]. }
  unfold rewriteImport in Hrun.
  destruct (isLocalImport aliasPrefixes _) eqn:Hloc; simpl in Hrun.
  2:{ result_inv. split; [done|]. apply Hhandled; [done|]. right. by left. }
  destruct (importTarget host files sourceFile _) as [declarations|] eqn:Ht.
  2:{ result_inv. split; [done|]. apply Hhandled; [done|]. right. right. by left. }
  destruct (isBarrel declarations) eqn:Hb; simpl in Hrun.
  2:{ result_inv. split; [done|]. apply Hhandled; [done|]. right. right. right.
      exists declarations. split; [done|]. by left. }
  destruct (getReExportMap host files declarations) as [reExportMap|]; [|done].
  unfold processImportDeclaration in Hrun.
  destruct (processBindings host imp.2 declarations sourceFile _ reExportMap paths)
    as [sb| |] eqn:Hsb; result_inv.
  destruct (ps_changed sb) eqn:Hcb; simpl in *.
  - destruct (forEachR mergeRewrittenImport _ _) as [[prototypeDefault importGroups]| |];
      result_inv; simpl in *.
    split.
    + case_decide; [|done]. intros j d [->|Hj]%addImportDeclaration_lookup_inv; [|by apply H1].
      right. by eapply residualImport_settled.
    + apply Hhandled; [set_solver|]. left. set_solver.
  - result_inv; simpl in *.
    split; [done|]. apply Hhandled; [done|]. right.
    unfold settledImport. right; right. exists declarations. split; [done|]. right.
    destruct (processBindings_unchanged _ _ _ _ _ _ _ _ Hsb Hcb) as [Hd Hn].
    split; [done|]. intros ni f Hin. rewrite Forall_forall in Hn. by apply Hn.
Qed.

Lemma rewriteImports_imports sourceFile aliasPrefixes paths l :
  ∀ handled st st',
    forEachR (rewriteImport host files sourceFile aliasPrefixes paths) l st = Return st' →
    importsInvariant host files sourceFile aliasPrefixes paths handled st →
    importsInvariant host files sourceFile aliasPrefixes paths (handled ++ l) st'.
Proof.
  induction l as [|x l IH]; intros handled st st' H Hinv; simpl in *.
  { simplify_eq. by rewrite app_nil_r. }
  destruct (rewriteImport host files sourceFile aliasPrefixes paths st x) as [st1| |] eqn:E;
    simpl in H; [|done|done].
  rewrite (cons_middle x handled l), app_assoc. eapply IH; [exact H|].
  by eapply rewriteImport_imports.
Qed.

Lemma findSourceFile_replaceFile out p :
  findSourceFile (replaceFile out files) p
  = (λ f, if decide (sf_filePath f = sf_filePath out) then out else f) <$> findSourceFile files p.
Proof.
  unfold findSourceFile, replaceFile. induction files as [|f fs IH]; [done|].
  rewrite fmap_cons. cbn [find].
  assert (sf_filePath (if decide (sf_filePath f = sf_filePath out) then out else f)
          = sf_filePath f) as -> by (by case_decide).
  destruct (bool_decide (sf_filePath f = p)); [done|exact IH].
Qed.

Lemma getExportDeclarations_otherStatements sf sf' :
  otherStatements (sf_statements sf) = otherStatements (sf_statements sf') →
  getExportDeclarations sf = getExportDeclarations sf'.
Proof.
  unfold getExportDeclarations, otherStatements.
  assert (∀ l, omap (λ st, match st with ExportStmt d => Some d | _ => None end) l
               = omap (λ st, match st with ExportStmt d => Some d | _ => None end)
                      (List.filter (λ stmt, negb (isImportStatement stmt)) l)) as Hf.
  { induction l as [|[imp|ex|text] l IH]; [done|exact IH| |].
    - cbn [List.filter isImportStatement negb omap list_omap]. by rewrite <- IH.
    - cbn [List.filter isImportStatement negb omap list_omap]. exact IH. }
  intros H. by rewrite (Hf (sf_statements sf)), (Hf (sf_statements sf')), H.
Qed.

Lemma settledImport_replaceFile sourceFile out aliasPrefixes paths importDecl :
  canonical files sourceFile →
  sf_filePath out = sf_filePath sourceFile →
  getExportDeclarations out = getExportDeclarations sourceFile →
  sf_exportedDeclarations out = sf_exportedDeclarations sourceFile →
  sf_defaultExportDeclarations out = sf_defaultExportDeclarations sourceFile →
  settledImport host files out aliasPrefixes paths importDecl →
  settledImport host (replaceFile out files) out aliasPrefixes paths importDecl.
Proof.
  intros Hc Hp He Hx Hd. unfold settledImport, importTarget.
  intros [Hl|[Hn|(t & Ht & Hs)]]; [by left| |].
  - right; left.
    destruct (moduleSpecifierSourceFile host (sf_filePath out) _) as [q|]; [|done].
    simpl in *. by rewrite findSourceFile_replaceFile, Hn.
  - right; right.
    destruct (moduleSpecifierSourceFile host (sf_filePath out) _) as [q|]; [|done].
    simpl in *. rewrite findSourceFile_replaceFile, Ht. simpl.
    case_decide as Hq; [|by exists t].
    assert (t = sourceFile) as ->.
    { destruct (findSourceFile_Some files _ _ Ht) as [Htq _].
      unfold canonical in Hc. rewrite <- Hp, <- Hq, Htq, Ht in Hc. congruence. }
    exists out. split; [done|]. unfold isBarrel in *. by rewrite He, Hx, Hd.
Qed.

(** X17: When every specifier that the first run writes leads to no barrel (it
    is not local, or its target is not found or has no export declaration),
    a second run on the file as the first left it, in the project that
    holds this file in place of the original, changes nothing and does not
    save. *)
Theorem rewriteImportsInFile_second_run
    sourceFile aliasPrefixes paths isDryRun isDryRun' outcome rs :
  canonical files sourceFile →
  rewriteImportsInFile host files sourceFile aliasPrefixes paths isDryRun = Return outcome →
  allRewrittenImports host files sourceFile aliasPrefixes paths = Return rs →
  (∀ r, r ∈ rs →
        leadsToNoBarrel host files sourceFile aliasPrefixes (ri_specifier r)) →
  rewriteImportsInFile host (replaceFile (ro_sourceFile outcome) files) (ro_sourceFile outcome)
    aliasPrefixes paths isDryRun'
  = Return {| ro_sourceFile := ro_sourceFile outcome; ro_changed := false; ro_saved := false |}.
Proof.
  intros Hcan Hrun Hrs Hnb. apply rewriteImportsInFile_settled.
  apply rewriteImportsInFile_returned in Hrun as (st & Hloop & ->).
  cbn [ro_sourceFile].
  set (out := {| sf_filePath := sf_filePath sourceFile; sf_statements := _;
                 sf_exportedDeclarations := _; sf_defaultExportDeclarations := _ |}).
  assert (sf_filePath sourceFile = sf_filePath out) as Hpath by done.
  assert (getExportDeclarations out = getExportDeclarations sourceFile) as Hexports.
  { apply getExportDeclarations_otherStatements. unfold out. cbn [sf_statements].
    destruct (rewriteImports_invariant _ _ _ _ _ _ _ Hloop) as (Hkept & Ho & H3 & _).
    rewrite otherStatements_addGroups, otherStatements_remove; [done|].
    intros i Hi. destruct (H3 i Hi) as (d & Hd & _). eauto. }
  destruct (rewriteImports_groups host files _ _ _ _ _ _ [] Hloop) as (rs' & Hrs' & Hgroups).
  assert (rs' = rs) as ->.
  { unfold allRewrittenImports in Hrs. simpl in Hrs'. congruence. }
  cbn [fs_prototypeDefault fs_importGroups] in Hgroups.
  pose proof (mergeRewrittenImports_keys _ _ _ Hgroups) as Hkeys. cbn [snd] in Hkeys.
  destruct (rewriteImports_imports sourceFile aliasPrefixes paths _ [] _ _ Hloop) as [H1 H2].
  { split; [by left|]. by intros imp ?%elem_of_nil. }
  intros [i d] Hin. apply getImportDeclarations_elem in Hin. cbn [snd].
  apply (settledImport_replaceFile sourceFile out); [done..|].
  apply (settledImport_path sourceFile out); [done|].
  apply list_elem_of_lookup_2 in Hin. unfold out in Hin. cbn [sf_statements] in Hin.
  rewrite addGroupImports_Permutation in Hin. apply elem_of_app in Hin as [Hin|Hin].
  - apply list_elem_of_fmap in Hin as ([specifier group] & [= ->] & Hentry).
    apply (proj1 (elem_of_Object_entries _ _)) in Hentry.
    assert (∃ r, r ∈ rs ∧ ri_specifier r = specifier) as (r & Hr & <-).
    { destruct (Hkeys specifier) as [Hin|Hr]; [|by apply elem_of_nil in Hin|done].
      apply list_elem_of_fmap. by exists (specifier, group). }
    unfold settledImport. cbn [groupImport id_moduleSpecifierValue fst].
    destruct (Hnb r Hr) as [?|[?|(t & ? & ?)]]; [by left|right; by left|].
    right; right. exists t. split; [done|]. by left.
  - apply removeStatements_elem in Hin as (j & Hj & Hnr).
    destruct (H1 j d Hj) as [Horig|Hs]; [|done].
    destruct (H2 (j, d)) as [Hr|Hs]; [|done|done].
    apply getImportDeclarations_elem. done.
Qed.

End SecondRun.

Lemma rewriteImportsInFile_second_run_witness :
  rewriteImportsInFile Fixture.host (replaceFile Fixture.importExample1 Fixture.files)
    Fixture.importExample1 [] [] false
  = Return {| ro_sourceFile := Fixture.importExample1; ro_changed := false; ro_saved := false |}.
Proof.
  apply (rewriteImportsInFile_second_run Fixture.host Fixture.files Fixture.importExample [] []
           false false
           {| ro_sourceFile := Fixture.importExample1; ro_changed := true; ro_saved := true |}
           [{| ri_specifier := "./modules/named-export"; ri_named := [("named", "named")];
               ri_defaultImport := None |};
            {| ri_specifier := "./modules/nested/nested-export";
               ri_named := [("actualNested", "nested")]; ri_defaultImport := None |}]).
  - reflexivity.
  - vm_compute; reflexivity.
  - vm_compute; reflexivity.
  - intros r Hr. apply elem_of_cons in Hr as [->|Hr].
    { right; right. exists Fixture.namedExport. split; vm_compute; reflexivity. }
    apply list_elem_of_singleton in Hr as ->.
    right; right. exists Fixture.nestedExport. split; vm_compute; reflexivity.
Defined.

(** ** The later revision of [processImportDeclaration] *)

Lemma Map_set_present {V : Type} k (v e : V) l :
  Later.Map_get k l = Some e →
  ∃ l1 l2, l = (l1 ++ (k, e) :: l2)%list ∧ Later.Map_set k v l = (l1 ++ (k, v) :: l2)%list.
Proof.
  induction l as [|[k' v'] l IH]; simpl; [done|].
  destruct (decide (k' = k)) as [->|Hne].
  - intros [= ->]. by exists [], l.
  - intros H. destruct (IH H) as (l1 & l2 & -> & ->).
    by exists ((k', v') :: l1), l2.
Qed.

Lemma Map_set_absent {V : Type} k (v : V) l :
  Later.Map_get k l = None → Later.Map_set k v l = (l ++ [(k, v)])%list.
Proof.
  induction l as [|[k' v'] l IH]; simpl; [done|].
  destruct (decide (k' = k)) as [->|Hne]; [done|].
  intros H. by rewrite IH.
Qed.

Lemma Map_get_set_eq {V : Type} k (v : V) l : Later.Map_get k (Later.Map_set k v l) = Some v.
Proof.
  induction l as [|[k' v'] l IH]; simpl.
  - by rewrite decide_True.
  - destruct (decide (k' = k)) as [->|Hne]; simpl.
    + by rewrite decide_True.
    + by rewrite decide_False.
Qed.

Lemma Map_get_set_ne {V : Type} k k' (v : V) l :
  k ≠ k' → Later.Map_get k' (Later.Map_set k v l) = Later.Map_get k' l.
Proof.
  intros Hne. induction l as [|[k0 v0] l IH]; simpl.
  - by rewrite decide_False.
  - destruct (decide (k0 = k)) as [->|Hne0]; simpl.
    + by rewrite !decide_False.
    + by rewrite IH.
Qed.

Lemma Map_get_elem_of {V : Type} k (v : V) l : Later.Map_get k l = Some v → (k, v) ∈ l.
Proof.
  induction l as [|[k' v'] l IH]; simpl; [done|].
  destruct (decide (k' = k)) as [->|Hne].
  - intros [= ->]. by left.
  - intros H. right. by apply IH.
Qed.

Lemma Map_get_lift {V : Type} k (l : list (string * V)) :
  Later.Map_get (Some k) ((λ entry : string * V, (Some entry.1, entry.2)) <$> l) = alist_get k l.
Proof.
  induction l as [|[k' v'] l IH]; [done|].
  rewrite fmap_cons. cbn [Later.Map_get alist_get fst snd].
  destruct (decide (k' = k)) as [->|Hne].
  - by rewrite decide_True.
  - by rewrite decide_False by congruence.
Qed.

Lemma Map_set_lift {V : Type} k (v : V) (l : list (string * V)) :
  Later.Map_set (Some k) v ((λ entry : string * V, (Some entry.1, entry.2)) <$> l)
  = (λ entry : string * V, (Some entry.1, entry.2)) <$> alist_set k v l.
Proof.
  induction l as [|[k' v'] l IH]; [done|].
  rewrite fmap_cons. cbn [Later.Map_set alist_set fst snd].
  destruct (decide (k' = k)) as [->|Hne].
  - rewrite decide_True by done. by rewrite fmap_cons.
  - rewrite decide_False by congruence. by rewrite fmap_cons, IH.
Qed.

Section LaterFacts.

Context (host : Host).

(** ** The counter *)

Lemma Later_processNamedImport_counts declarations sourceFile moduleSpecifier reExportMap paths
    tsconfigDir isAliasImport st namedImport st' :
  Later.processNamedImport host declarations sourceFile moduleSpecifier reExportMap paths
    tsconfigDir isAliasImport st namedImport = Return st' →
  (Later.ps_bindingsUpdated st' + bindingsIn (Later.ps_rewrittenBySpecifier st)
   = Later.ps_bindingsUpdated st + bindingsIn (Later.ps_rewrittenBySpecifier st'))%nat.
Proof.
  unfold Later.processNamedImport. intros H.
  case_match; [|by result_inv].
  destruct (Later.resolvedSpecifier host isAliasImport paths tsconfigDir sourceFile _)
    as [resolved| |]; result_inv.
  case_decide as Hne; result_inv; [|done]. simpl.
  unfold bindingsIn.
  destruct (Later.Map_get resolved (Later.ps_rewrittenBySpecifier st)) as [e|] eqn:E.
  - destruct (Map_set_present resolved
                {| rw_named := rw_named e ++ [(match reExportMap !! is_name namedImport with
                                               | Some reExport =>
                                                   if decide (resolvedPath reExport = s)
                                                   then localName reExport
                                                   else is_name namedImport
                                               | None => is_name namedImport
                                               end,
                                               Js.or_else (is_alias namedImport)
                                                 (is_name namedImport))];
                   rw_defaultImport := rw_defaultImport e |} e _ E) as (l1 & l2 & Hl & Hset).
    rewrite Hset, Hl. rewrite !sum_list_with_app. simpl.
    rewrite length_app. simpl. lia.
  - rewrite Map_set_absent by done. rewrite sum_list_with_app. simpl. lia.
Qed.

Lemma Later_processDefaultImport_start importDecl declarations sourceFile moduleSpecifier paths
    tsconfigDir isAliasImport n st :
  Later.processDefaultImport host importDecl declarations sourceFile moduleSpecifier paths
    tsconfigDir isAliasImport n = Return st →
  Later.ps_keptNamed st = []
  ∧ Later.ps_bindingsUpdated st = (n + bindingsIn (Later.ps_rewrittenBySpecifier st))%nat.
Proof.
  unfold Later.processDefaultImport. intros H.
  destruct (Js.truthy_opt (id_defaultImport importDecl)) eqn:Ht;
    [|result_inv; simpl; split; [done|unfold bindingsIn; simpl; lia]].
  destruct (sf_defaultExportDeclarations declarations ≫= head) as [resolvedFile|] eqn:Ef;
    [|result_inv; simpl; split; [done|unfold bindingsIn; simpl; lia]].
  destruct (Later.resolvedSpecifier host isAliasImport paths tsconfigDir sourceFile resolvedFile)
    as [resolved| |] eqn:Er; result_inv.
  case_decide; result_inv; simpl; (split; [done|]); unfold bindingsIn; simpl.
  - rewrite Ht. lia.
  - lia.
Qed.

(** X18: In the later revision, a call of [processImportDeclaration] that
    reports a change raises the counter [bindingsUpdated] by the number of
    bindings its rewritten imports carry: one for each named binding and
    one for each default import. *)
Theorem Later_processImportDeclaration_counts
    importDecl declarations sourceFile moduleSpecifier reExportMap paths tsconfigDir
    isAliasImport bindingsUpdated stmts result stmts' bindingsUpdated' :
  Later.processImportDeclaration host importDecl declarations sourceFile moduleSpecifier
    reExportMap paths tsconfigDir isAliasImport bindingsUpdated stmts
  = Return (result, stmts', bindingsUpdated') →
  Later.pr_changed result = true →
  bindingsUpdated' = (bindingsUpdated + Later.bindingsOf (Later.pr_rewrittenImports result))%nat.
Proof.
  unfold Later.processImportDeclaration. intros H Hch.
  destruct (Later.processBindings host importDecl declarations sourceFile moduleSpecifier
              reExportMap paths tsconfigDir isAliasImport bindingsUpdated) as [st| |] eqn:Hst;
    result_inv.
  destruct (Later.ps_changed st) eqn:Hc; simplify_eq. simpl.
  unfold Later.processBindings in Hst.
  destruct (Later.processDefaultImport host importDecl declarations sourceFile moduleSpecifier
              paths tsconfigDir isAliasImport bindingsUpdated) as [st0| |] eqn:Hst0; result_inv.
  destruct (Later_processDefaultImport_start _ _ _ _ _ _ _ _ _ Hst0) as [_ Hn0].
  assert (Later.ps_bindingsUpdated st
          = (bindingsUpdated + bindingsIn (Later.ps_rewrittenBySpecifier st))%nat) as ->.
  { eapply (forEachR_invariant _
              (λ st, Later.ps_bindingsUpdated st
                     = (bindingsUpdated + bindingsIn (Later.ps_rewrittenBySpecifier st))%nat));
      [|exact Hst|exact Hn0].
    intros s x s' Hs Hinv. pose proof (Later_processNamedImport_counts _ _ _ _ _ _ _ _ _ _ Hs).
    lia. }
  f_equal. unfold bindingsIn, Later.bindingsOf.
  induction (Later.ps_rewrittenBySpecifier st) as [|[s e] l IH]; [done|].
  rewrite fmap_cons. simpl. by rewrite IH.
Qed.

(** ** Relative imports *)

Lemma resolvedSpecifier_no_aliases sourceFile resolvedFile :
  resolvedSpecifier host [] sourceFile resolvedFile
  = Return (getRelativePath host (sf_filePath sourceFile) resolvedFile).
Proof. reflexivity. Qed.

Lemma Later_processNamedImport_relative declarations sourceFile moduleSpecifier reExportMap
    paths tsconfigDir earlier later namedImport :
  sameLocals earlier later →
  ∃ earlier' later',
    processNamedImport host declarations sourceFile moduleSpecifier reExportMap [] earlier
      namedImport = Return earlier'
    ∧ Later.processNamedImport host declarations sourceFile moduleSpecifier reExportMap paths
        tsconfigDir false later namedImport = Return later'
    ∧ sameLocals earlier' later'.
Proof.
  intros (Hr & Hk & Hc). unfold processNamedImport, Later.processNamedImport.
  destruct (alist_get (is_name namedImport) (sf_exportedDeclarations declarations) ≫= head)
    as [resolvedFile|].
  2:{ eexists _, _. split; [done|]. split; [done|]. unfold sameLocals. simpl.
      by rewrite Hr, Hk, Hc. }
  rewrite resolvedSpecifier_no_aliases. unfold Later.resolvedSpecifier.
  cbv beta iota delta [mbind Result_bind mret Result_ret].
  destruct (decide (getRelativePath host (sf_filePath sourceFile) resolvedFile = moduleSpecifier))
    as [Heq|Hne].
  - rewrite !decide_False by (intros Hn; apply Hn; congruence).
    eexists _, _. split; [done|]. split; [done|]. unfold sameLocals. simpl.
    by rewrite Hr, Hk, Hc.
  - rewrite !decide_True by congruence.
    eexists _, _. split; [done|]. split; [done|]. unfold sameLocals. simpl.
    rewrite Hr, Hk, Map_get_lift, Map_set_lift. done.
Qed.

Lemma Later_processNamedImports_relative declarations sourceFile moduleSpecifier reExportMap
    paths tsconfigDir l :
  ∀ earlier later,
    sameLocals earlier later →
    ∃ earlier' later',
      forEachR (processNamedImport host declarations sourceFile moduleSpecifier reExportMap [])
               l earlier = Return earlier'
      ∧ forEachR (Later.processNamedImport host declarations sourceFile moduleSpecifier
                    reExportMap paths tsconfigDir false) l later = Return later'
      ∧ sameLocals earlier' later'.
Proof.
  induction l as [|x l IH]; intros earlier later Hsame; simpl; [eauto|].
  destruct (Later_processNamedImport_relative declarations sourceFile moduleSpecifier
              reExportMap paths tsconfigDir earlier later x Hsame)
    as (e1 & l1 & -> & -> & Hsame1).
  cbv beta iota delta [mbind Result_bind]. by apply IH.
Qed.

(** X19: On an import that is no alias import, [processImportDeclaration] of
    the later revision returns what that of [src/lib/barrelBreaker.js]
    returns with an empty paths table: the same change flag, rewritten
    imports (under the same specifiers) and statements, whatever the paths
    table and the directory of tsconfig.json are. *)
Theorem Later_relative_import_as_earlier
    importDecl declarations sourceFile moduleSpecifier reExportMap paths tsconfigDir
    bindingsUpdated stmts :
  ∃ result stmts' bindingsUpdated',
    processImportDeclaration host importDecl declarations sourceFile moduleSpecifier
      reExportMap [] stmts = Return (result, stmts')
    ∧ Later.processImportDeclaration host importDecl declarations sourceFile moduleSpecifier
        reExportMap paths tsconfigDir false bindingsUpdated stmts
      = Return (laterResult result, stmts', bindingsUpdated').
Proof.
  unfold processImportDeclaration, Later.processImportDeclaration,
    processBindings, Later.processBindings.
  assert (∃ earlier later,
            processDefaultImport host importDecl declarations sourceFile moduleSpecifier []
            = Return earlier
            ∧ Later.processDefaultImport host importDecl declarations sourceFile moduleSpecifier
                paths tsconfigDir false bindingsUpdated = Return later
            ∧ sameLocals earlier later) as (e0 & l0 & -> & -> & Hsame0).
  { unfold processDefaultImport, Later.processDefaultImport.
    destruct (Js.truthy_opt (id_defaultImport importDecl)); [|by eexists _, _].
    destruct (sf_defaultExportDeclarations declarations ≫= head) as [resolvedFile|];
      [|by eexists _, _].
    rewrite resolvedSpecifier_no_aliases. unfold Later.resolvedSpecifier.
    cbv beta iota delta [mbind Result_bind mret Result_ret].
    destruct (decide (getRelativePath host (sf_filePath sourceFile) resolvedFile
                      = moduleSpecifier)) as [Heq|Hne].
    - rewrite !decide_False by (intros Hn; apply Hn; congruence). by eexists _, _.
    - rewrite !decide_True by congruence. by eexists _, _. }
  cbv beta iota delta [mbind Result_bind].
  destruct (Later_processNamedImports_relative declarations sourceFile moduleSpecifier
              reExportMap paths tsconfigDir (id_namedImports importDecl) e0 l0 Hsame0)
    as (e1 & l1 & -> & -> & (Hr & Hk & Hc)).
  cbv beta iota delta [mbind Result_bind mret Result_ret].
  rewrite Hc, Hk. destruct (ps_changed e1); eexists _, _, _; (split; [done|]); [|done].
  unfold laterResult. simpl. rewrite Hr, <- !list_fmap_compose.
  do 4 f_equal. apply list_fmap_ext. by intros i [s e] _.
Qed.

(** ** Alias imports *)

Lemma Later_processNamedImport_keeps declarations sourceFile moduleSpecifier reExportMap paths
    tsconfigDir isAliasImport st namedImport st' :
  Later.processNamedImport host declarations sourceFile moduleSpecifier reExportMap paths
    tsconfigDir isAliasImport st namedImport = Return st' →
  (∀ specifier pair e,
     Later.Map_get specifier (Later.ps_rewrittenBySpecifier st) = Some e → pair ∈ rw_named e →
     ∃ e', Later.Map_get specifier (Later.ps_rewrittenBySpecifier st') = Some e'
           ∧ pair ∈ rw_named e')
  ∧ (Later.ps_changed st = true → Later.ps_changed st' = true).
Proof.
  unfold Later.processNamedImport. intros H.
  case_match; [|result_inv; simpl; by eauto].
  destruct (Later.resolvedSpecifier host isAliasImport paths tsconfigDir sourceFile _)
    as [resolved| |]; result_inv.
  case_decide; result_inv; simpl; [|by eauto].
  split; [|done]. intros sp pair e He Hin.
  destruct (decide (resolved = sp)) as [->|Hne].
  - rewrite Map_get_set_eq. eexists. split; [done|]. simpl. rewrite He. set_solver.
  - rewrite Map_get_set_ne by done. eauto.
Qed.

Lemma Later_processNamedImports_keep declarations sourceFile moduleSpecifier reExportMap paths
    tsconfigDir isAliasImport l :
  ∀ st st',
    forEachR (Later.processNamedImport host declarations sourceFile moduleSpecifier reExportMap
                paths tsconfigDir isAliasImport) l st = Return st' →
    (∀ specifier pair e,
       Later.Map_get specifier (Later.ps_rewrittenBySpecifier st) = Some e → pair ∈ rw_named e →
       ∃ e', Later.Map_get specifier (Later.ps_rewrittenBySpecifier st') = Some e'
             ∧ pair ∈ rw_named e')
    ∧ (Later.ps_changed st = true → Later.ps_changed st' = true).
Proof.
  induction l as [|x l IH]; intros st st' H; simpl in *.
  { simplify_eq. split; [eauto|done]. }
  destruct (Later.processNamedImport host declarations sourceFile moduleSpecifier reExportMap
              paths tsconfigDir isAliasImport st x) as [st1| |] eqn:E; simpl in H; [|done|done].
  destruct (Later_processNamedImport_keeps _ _ _ _ _ _ _ _ _ _ E) as (H1 & H2).
  destruct (IH _ _ H) as (H3 & H4).
  split; [|by auto].
  intros sp pair e He Hin. destruct (H1 sp pair e He Hin) as (e1 & He1 & Hin1). eauto.
Qed.

(** X20: In the later revision, a named binding of an alias import whose
    declaration lies under no base path of the table is rewritten under the
    specifier [null]: the call reports a change, a rewritten import with
    specifier [null] carries the binding, and the loop of
    [rewriteImportsInFile], whatever [importGroups] and [Object.prototype]
    hold, files it without error in the group of key ["null"], whose import
    declaration has the module specifier ["null"]. *)
Theorem Later_alias_import_without_base
    importDecl declarations sourceFile moduleSpecifier reExportMap paths tsconfigDir
    bindingsUpdated stmts result stmts' bindingsUpdated' namedImport resolvedFile :
  Later.processImportDeclaration host importDecl declarations sourceFile moduleSpecifier
    reExportMap paths tsconfigDir true bindingsUpdated stmts
  = Return (result, stmts', bindingsUpdated') →
  namedImport ∈ id_namedImports importDecl →
  alist_get (is_name namedImport) (sf_exportedDeclarations declarations) ≫= head
  = Some resolvedFile →
  Later.resolveAlias host paths resolvedFile tsconfigDir = Return None →
  Later.pr_changed result = true
  ∧ ∃ r name,
      r ∈ Later.pr_rewrittenImports result
      ∧ Later.ri_specifier r = None
      ∧ (name, usedName namedImport) ∈ Later.ri_named r
      ∧ ∀ prototypeDefault importGroups,
          ∃ groups group,
            Later.mergeRewrittenImport (prototypeDefault, importGroups) r
            = Return (prototypeDefault, groups)
            ∧ alist_get "null" groups = Some group
            ∧ id_moduleSpecifierValue (groupImport ("null", group)) = "null".
Proof.
  unfold Later.processImportDeclaration, Later.processBindings. intros H Hin Hdecl Halias.
  destruct (Later.processDefaultImport host importDecl declarations sourceFile moduleSpecifier
              paths tsconfigDir true bindingsUpdated) as [st0| |]; result_inv.
  apply list_elem_of_split in Hin as (l1 & l2 & Hl). rewrite Hl, forEachR_app in H.
  destruct (forEachR _ l1 st0) as [st1| |]; result_inv.
  cbn [forEachR] in H.
  destruct (Later.processNamedImport host declarations sourceFile moduleSpecifier reExportMap
              paths tsconfigDir true st1 namedImport) as [st2| |] eqn:Hstep; result_inv.
  destruct (forEachR _ l2 st2) as [st3| |] eqn:Hrest; result_inv.
  unfold Later.processNamedImport, Later.resolvedSpecifier in Hstep.
  cbv beta iota delta [mbind] in Hstep. rewrite Hdecl, Halias in Hstep.
  cbv beta iota delta [Result_bind] in Hstep.
  rewrite decide_True in Hstep by done. result_inv.
  destruct (Later_processNamedImports_keep _ _ _ _ _ _ _ _ _ _ Hrest) as (Hkeep & Hch).
  simpl in Hkeep, Hch. rewrite (Hch eq_refl) in H. simplify_eq. simpl.
  split; [done|].
  edestruct (Hkeep None) as (e' & He' & Hpair).
  { apply Map_get_set_eq. }
  { simpl. apply elem_of_app. right. by left. }
  eexists {| Later.ri_specifier := None; Later.ri_named := rw_named e';
             Later.ri_defaultImport := rw_defaultImport e' |}, _.
  split; [|split; [done|split; [exact Hpair|]]].
  - apply list_elem_of_fmap. exists (None, e'). split; [done|]. by apply Map_get_elem_of.
  - intros prototypeDefault importGroups. eexists _, _. split.
    + apply (mergeGroup_own "null" (rw_named e') (rw_defaultImport e') prototypeDefault
               importGroups); [by apply plainHead_not_member|by right].
    + unfold mergeOwn. by rewrite alist_get_set_eq.
Qed.

End LaterFacts.

Lemma Later_processImportDeclaration_counts_witness :
  Later.processImportDeclaration Fixture.host Fixture.theImport Fixture.modulesIndex
    Fixture.importExample "./modules" Fixture.mapOfIndex [] "/p" false 5
    (sf_statements Fixture.importExample)
  = Return
      ({| Later.pr_changed := true;
          Later.pr_rewrittenImports :=
            [{| Later.ri_specifier := Some "./modules/named-export";
                Later.ri_named := [("named", "named")];
                Later.ri_defaultImport := None |};
             {| Later.ri_specifier := Some "./modules/nested/nested-export";
                Later.ri_named := [("actualNested", "nested")];
                Later.ri_defaultImport := None |}] |},
       [importNamed [("named", None); ("nested", None); ("missing", None)] "./modules";
        importNamed [("missing", None)] "./modules"],
       7)
  ∧ 7 = 5 + 2.
Proof.
  split; [vm_compute; reflexivity|].
  apply (Later_processImportDeclaration_counts Fixture.host Fixture.theImport
           Fixture.modulesIndex Fixture.importExample "./modules" Fixture.mapOfIndex [] "/p"
           false 5 (sf_statements Fixture.importExample)
           {| Later.pr_changed := true;
              Later.pr_rewrittenImports :=
                [{| Later.ri_specifier := Some "./modules/named-export";
                    Later.ri_named := [("named", "named")];
                    Later.ri_defaultImport := None |};
                 {| Later.ri_specifier := Some "./modules/nested/nested-export";
                    Later.ri_named := [("actualNested", "nested")];
                    Later.ri_defaultImport := None |}] |}
           [importNamed [("named", None); ("nested", None); ("missing", None)] "./modules";
            importNamed [("missing", None)] "./modules"]
           7).
  - vm_compute; reflexivity.
  - reflexivity.
Defined.

Lemma Later_alias_import_without_base_witness :
  Later.resolveAlias (Posix.host []) componentsPaths "/cwd/src/shared/helper.ts" "/cwd"
  = Return None
  ∧ ∃ r name,
      r ∈ [{| Later.ri_specifier := None; Later.ri_named := [("helper", "helper")];
              Later.ri_defaultImport := None |}]
      ∧ Later.ri_specifier r = None
      ∧ (name, "helper") ∈ Later.ri_named r
      ∧ ∀ prototypeDefault importGroups,
          ∃ groups group,
            Later.mergeRewrittenImport (prototypeDefault, importGroups) r
            = Return (prototypeDefault, groups)
            ∧ alist_get "null" groups = Some group
            ∧ id_moduleSpecifierValue (groupImport ("null", group)) = "null".
Proof.
  split; [vm_compute; reflexivity|].
  apply (Later_alias_import_without_base (Posix.host []) Outside.theImport
           Outside.componentsIndex Outside.app "@components" Outside.mapOfIndex componentsPaths
           "/cwd" 0 (sf_statements Outside.app)
           {| Later.pr_changed := true;
              Later.pr_rewrittenImports :=
                [{| Later.ri_specifier := None; Later.ri_named := [("helper", "helper")];
                    Later.ri_defaultImport := None |}] |}
           (sf_statements Outside.app) 1
           {| is_name := "helper"; is_alias := None |} "/cwd/src/shared/helper.ts").
  - vm_compute; reflexivity.
  - by left.
  - reflexivity.
  - vm_compute; reflexivity.
Defined.

(** On the tree of [Outside] the earlier revision falls back on the
    relative path; the later one has the group ["null"]. *)
Example alias_import_outside_bases :
  processImportDeclaration (Posix.host []) Outside.theImport Outside.componentsIndex
    Outside.app "@components" Outside.mapOfIndex componentsPaths (sf_statements Outside.app)
  = Return ({| pr_changed := true;
               pr_rewrittenImports :=
                 [{| ri_specifier := "./shared/helper"; ri_named := [("helper", "helper")];
                     ri_defaultImport := None |}] |},
            sf_statements Outside.app)
  ∧ (st ← forEachR Later.mergeRewrittenImport
             [{| Later.ri_specifier := None; Later.ri_named := [("helper", "helper")];
                 Later.ri_defaultImport := None |}] (None, []);
     mret (groupImport <$> Object_entries st.2))
    = Return [Outside.importNamedDeclaration "null"].
Proof. split; vm_compute; reflexivity. Qed.

(** ** The logged line of the later revision *)

Lemma foldl_alist_set_fresh (entries : list (string * string)) :
  ∀ m, NoDup (m.*1 ++ entries.*1) →
       foldl (λ m entry, alist_set entry.1 entry.2 m) m entries = (m ++ entries)%list.
Proof.
  induction entries as [|[n a] es IH]; intros m Hnd; simpl.
  - by rewrite app_nil_r.
  - rewrite alist_set_absent.
    + rewrite IH; [by rewrite <- app_assoc|].
      rewrite fmap_app. simpl. by rewrite <- app_assoc.
    + apply alist_get_None. apply NoDup_app in Hnd as (_ & Hdisj & _).
      intros Hin. apply (Hdisj n Hin). simpl. by left.
Qed.

(** X21: For a rewritten import whose exported names are pairwise distinct and
    whose specifier names no property that every object inherits, the line
    that [buildImportString] builds for the log is the text that
    [printImportDiff] builds for the group that the import makes alone. *)
Theorem buildImportString_is_diff_line (rewritten : Later.RewrittenImport) :
  Later.propertyKey (Later.ri_specifier rewritten) ∉ objectPrototypeKeys →
  NoDup (Later.ri_named rewritten).*1 →
  ∃ importGroups,
    forEachR Later.mergeRewrittenImport [rewritten] (None, []) = Return (None, importGroups)
    ∧ updatedImportText importGroups = buildImportString rewritten.
Proof.
  intros Hkey Hnd. cbn [forEachR]. unfold Later.mergeRewrittenImport.
  rewrite mergeGroup_own; [|done|by left]. eexists. split; [done|].
  unfold mergeOwn. cbn [alist_get alist_set ig_named ig_default].
  rewrite (foldl_alist_set_fresh (Later.ri_named rewritten) []) by exact Hnd.
  unfold updatedImportText. rewrite Object_entries_singleton.
  unfold importLine, importParts, buildImportString, Later.propertyKey.
  cbn [fmap list_fmap String.concat fst snd ig_named ig_default app].
  destruct (Later.ri_defaultImport rewritten) as [d|]; [|done].
  simpl. destruct (Js.truthy d) eqn:Ht; simpl; [by rewrite Ht|done].
Qed.

Lemma buildImportString_is_diff_line_witness :
  ∃ importGroups,
    forEachR Later.mergeRewrittenImport
      [{| Later.ri_specifier := Some "./modules/nested/nested-export";
          Later.ri_named := [("actualNested", "nested"); ("other", "other")];
          Later.ri_defaultImport := Some "def" |}] (None, [])
    = Return (None, importGroups)
    ∧ updatedImportText importGroups
      = "import def, { actualNested as nested, other } from './modules/nested/nested-export';".
Proof.
  apply (buildImportString_is_diff_line
           {| Later.ri_specifier := Some "./modules/nested/nested-export";
              Later.ri_named := [("actualNested", "nested"); ("other", "other")];
              Later.ri_defaultImport := Some "def" |}).
  - vm_compute. intros H. repeat (apply elem_of_cons in H as [H|H]; [discriminate H|]).
    by apply elem_of_nil in H.
  - vm_compute. repeat constructor; set_solver.
Defined.

(** Two writes of the same name: the logged line has both, the diff has
    the last. *)
Example buildImportString_repeated_name :
  buildImportString {| Later.ri_specifier := Some "./m";
                       Later.ri_named := [("a", "a"); ("a", "b")];
                       Later.ri_defaultImport := None |}
  = "import { a, a as b } from './m';"
  ∧ (st ← forEachR Later.mergeRewrittenImport
             [{| Later.ri_specifier := Some "./m"; Later.ri_named := [("a", "a"); ("a", "b")];
                 Later.ri_defaultImport := None |}] (None, []);
     mret (updatedImportText st.2))
    = Return "import { a as b } from './m';".
Proof. split; vm_compute; reflexivity. Qed.

(** ** The cache of the later revision, in general *)

Section Cache.

Context (host : Host) (files : list SourceFile).

Lemma exportStepCached_loop_returns n sf :
  (∀ t s c, canonical files t → (unseen files s < n)%nat →
            ∃ r, getReExportMapRecursiveCached host files n t s c = Some r ∧ s ⊆ r.1.2) →
  ∀ ds (st : CacheState), (unseen files st.1.2 < n)%nat →
    ∃ r, forEachM (exportStepCached host files (getReExportMapRecursiveCached host files n) sf)
           ds st = Some r
         ∧ st.1.2 ⊆ r.1.2.
Proof.
  intros IHn ds. induction ds as [|d ds IHds]; intros [[M S] C] Hlt; simpl in *.
  - eauto.
  - destruct (exportTarget host files sf d) as [t|] eqn:Et; simpl.
    + destruct (ed_isNamespaceExport d).
      * destruct (IHn t S C) as [[[M1 S1] C1] [-> Hsub]]; [by eapply exportTarget_canonical|done|].
        simpl in Hsub.
        destruct (IHds (mergeEntries M1 M, S1, C1)) as [r [-> Hr]].
        { simpl. pose proof (unseen_mono files _ _ Hsub). lia. }
        exists r. split; [done|]. simpl in Hr. set_solver.
      * apply (IHds (_, S, C)). done.
    + apply (IHds (M, S, C)). done.
Qed.

Lemma getReExportMapRecursiveCached_returns_canonical n :
  ∀ sf seen cache, canonical files sf → (unseen files seen < n)%nat →
    ∃ r, getReExportMapRecursiveCached host files n sf seen cache = Some r ∧ seen ⊆ r.1.2.
Proof.
  induction n as [|n IHn]; intros sf seen cache Hc Hlt; [lia|].
  simpl. destruct (cache !! sf_filePath sf) as [cached|]; [eauto|].
  case_decide as Hseen; [eauto|].
  destruct (exportStepCached_loop_returns n sf IHn (getExportDeclarations sf)
              (∅, {[sf_filePath sf]} ∪ seen, cache)) as [[[M S] C] [-> Hr]].
  - simpl. pose proof (unseen_insert files _ _ (canonical_known files _ Hc) Hseen). lia.
  - eexists. split; [done|]. simpl in *. set_solver.
Qed.

(** X22: [getReExportMapRecursive] of the later revision returns for every
    file, [seen] and cache, also on cyclic re-exports: the fuel
    [enoughFuel] is enough. *)
Theorem getReExportMapRecursiveCached_returns sf seen cache :
  is_Some (getReExportMapRecursiveCached host files (enoughFuel files) sf seen cache).
Proof.
  unfold enoughFuel. remember (S (length files)) as n eqn:Hn.
  simpl. destruct (cache !! sf_filePath sf) as [cached|]; [eauto|].
  case_decide as Hseen; [eauto|].
  destruct (exportStepCached_loop_returns n sf
              (getReExportMapRecursiveCached_returns_canonical n)
              (getExportDeclarations sf) (∅, {[sf_filePath sf]} ∪ seen, cache))
    as [[[M S] C] [-> Hr]]; [|eauto].
  simpl. pose proof (size_knownPaths files).
  assert (unseen files ({[sf_filePath sf]} ∪ seen) ≤ size (knownPaths files))%nat
    by (unfold unseen; apply subseteq_size; set_solver).
  lia.
Qed.

Lemma exportStepCached_loop_grows n sf :
  (∀ t s c r, getReExportMapRecursiveCached host files n t s c = Some r → cacheGrows s c r) →
  ∀ ds (st r : CacheState),
    forEachM (exportStepCached host files (getReExportMapRecursiveCached host files n) sf)
      ds st = Some r →
    cacheGrows st.1.2 st.2 r.
Proof.
  intros IHn ds. induction ds as [|d ds IHds]; intros [[M S] C] r Hrun; simpl in *.
  - simplify_eq. unfold cacheGrows. simpl. split; [done|]. split; [done|]. by left.
  - destruct (exportTarget host files sf d) as [t|] eqn:Et; simpl in Hrun;
      [|exact (IHds (M, S, C) r Hrun)].
    destruct (ed_isNamespaceExport d); [|exact (IHds (_, S, C) r Hrun)].
    destruct (getReExportMapRecursiveCached host files n t S C) as [[[M1 S1] C1]|] eqn:Erec;
      [|done].
    destruct (IHn _ _ _ _ Erec) as (Hs1 & Hc1 & Hn1).
    destruct (IHds _ _ Hrun) as (Hs2 & Hc2 & Hn2). simpl in *.
    split; [set_solver|]. split; [by etrans|].
    intros p Hp. destruct (Hn2 p Hp) as [Hp1|[Hp2 Hp3]].
    + destruct (Hn1 p Hp1) as [?|[? ?]]; [by left|]. right. set_solver.
    + right. set_solver.
Qed.

Lemma getReExportMapRecursiveCached_grows n :
  ∀ sf seen cache r,
    getReExportMapRecursiveCached host files n sf seen cache = Some r →
    cacheGrows seen cache r.
Proof.
  induction n as [|n IHn]; intros sf seen cache r Hrun; [done|].
  simpl in Hrun. destruct (cache !! sf_filePath sf) as [cached|] eqn:Ecache.
  { simplify_eq. unfold cacheGrows. simpl. split; [done|]. split; [done|]. by left. }
  case_decide as Hseen.
  { simplify_eq. unfold cacheGrows. simpl. split; [done|]. split; [done|]. by left. }
  destruct (forEachM _ _ _) as [[[M S] C]|] eqn:Eloop; [|done]. simplify_eq.
  destruct (exportStepCached_loop_grows n sf IHn _ _ _ Eloop) as (Hs & Hc & Hn). simpl in *.
  assert (sf_filePath sf ∉ dom C) as Hfresh.
  { intros Hin. destruct (Hn _ Hin) as [Hd|[_ Hns]].
    - apply elem_of_dom in Hd as [? ?]. congruence.
    - set_solver. }
  split; [set_solver|]. split.
  - etrans; [exact Hc|]. apply insert_subseteq. by apply not_elem_of_dom.
  - intros p. simpl. rewrite dom_insert. intros [Hp|Hp]%elem_of_union.
    + apply elem_of_singleton in Hp as ->. right. set_solver.
    + destruct (Hn p Hp) as [?|[? ?]]; [by left|]. right. set_solver.
Qed.

(** X23: A call of [getReExportMapRecursive] of the later revision never
    removes or changes an entry of the cache, and every path it adds was
    first seen during the call. *)
Theorem getReExportMapRecursiveCached_keeps_cache fuel sf seen cache M seen' cache' :
  getReExportMapRecursiveCached host files fuel sf seen cache = Some (M, seen', cache') →
  cache ⊆ cache'
  ∧ ∀ p, p ∈ dom cache' → p ∈ dom cache ∨ (p ∈ seen' ∧ p ∉ seen).
Proof.
  intros H. by destruct (getReExportMapRecursiveCached_grows _ _ _ _ _ H) as (_ & ? & ?).
Qed.

(** X24: Once a call of [getReExportMapRecursive] of the later revision with an
    empty [seen] has returned a map for a file, every call for this file
    after any further call returns this map and leaves [seen] and the cache
    as they are. *)
Theorem getReExportMapRecursiveCached_answer_is_kept
    fuel fuel2 fuel3 sf sf2 cache M seen1 cache1 seen2 M2 seen2' cache2 seen3 :
  getReExportMapRecursiveCached host files fuel sf ∅ cache = Some (M, seen1, cache1) →
  getReExportMapRecursiveCached host files fuel2 sf2 seen2 cache1 = Some (M2, seen2', cache2) →
  getReExportMapRecursiveCached host files (S fuel3) sf seen3 cache2 = Some (M, seen3, cache2).
Proof.
  intros H H2.
  assert (cache1 !! sf_filePath sf = Some M) as Hc.
  { destruct fuel as [|n]; [done|]. simpl in H.
    destruct (cache !! sf_filePath sf) as [cached|] eqn:Ecache; [by simplify_eq|].
    rewrite decide_False in H by set_solver.
    destruct (forEachM _ _ _) as [[[M1 S1] C1]|]; [|done]. simplify_eq.
    by rewrite lookup_insert_eq. }
  destruct (getReExportMapRecursiveCached_grows _ _ _ _ _ H2) as (_ & Hsub & _).
  simpl in *. by rewrite (lookup_weaken _ _ _ _ Hc Hsub).
Qed.

End Cache.

Lemma getReExportMapRecursiveCached_keeps_cache_witness :
  ∃ M seen' cache',
    getReExportMapRecursiveCached Cycle.host Cycle.files (enoughFuel Cycle.files) Cycle.A ∅ ∅
    = Some (M, seen', cache')
    ∧ (∅ : gmap string (gmap string ReExport)) ⊆ cache'
    ∧ ∀ p, p ∈ dom cache' →
           p ∈ dom (∅ : gmap string (gmap string ReExport)) ∨ (p ∈ seen' ∧ p ∉ (∅ : gset string)).
Proof.
  eexists _, _, _. split; [vm_compute; reflexivity|].
  eapply (getReExportMapRecursiveCached_keeps_cache Cycle.host Cycle.files
            (enoughFuel Cycle.files) Cycle.A ∅ ∅).
  vm_compute; reflexivity.
Defined.

Lemma getReExportMapRecursiveCached_answer_is_kept_witness :
  ∃ cache2,
    getReExportMapRecursiveCached Cycle.host Cycle.files 1 Cycle.A {[ "/p/B.ts" ]} cache2
    = Some ({[ "a" := {| localName := "a"; resolvedPath := "/p/A1.ts" |};
               "b" := {| localName := "b"; resolvedPath := "/p/B1.ts" |} ]},
            {[ "/p/B.ts" ]}, cache2).
Proof.
  eexists.
  eapply (getReExportMapRecursiveCached_answer_is_kept Cycle.host Cycle.files
            (enoughFuel Cycle.files) (enoughFuel Cycle.files) 0 Cycle.A Cycle.B ∅ _ _ _ ∅).
  - vm_compute; reflexivity.
  - vm_compute; reflexivity.
Defined.
